(** * Instant Harmonies: the just-intonation tuning engine

    A shallow embedding of the JavaScript modules of the tuner
    ([js/tuning-core.js], [js/tuning-mpe.js], [js/tuning-mts.js],
    [js/key-detection.js], [js/main.js], the older single-file
    prototype [script5.js], and of the MIDI file side:
    [js/tuning-midi2.js], [js/midi-file-tuner.js], [js/midi-writer.js]
    and [js/midi-parser.js]) together with the properties the design
    document states about them and further properties of the code.

    Conventions of the embedding.
    - A JavaScript [number] that only ever holds an integer (MIDI data
      bytes, channels, pitch-bend units) is a [Z]; the remainder
      operator [%] is [Z.rem], the bit operators are [Z.land], [Z.lor]
      and [Z.shiftr].
    - A [number] that goes through [Math.log2] is a real ([R]); a
      [number] of the key detector, which is built with [+], [*] and [/]
      only, is a rational ([Q]).  IEEE-754 rounding of the intermediate
      results is not modelled: arithmetic is exact.
    - [Math.round x] is [floor (x + 1/2)] (ties go up, as in JavaScript).
    - Where the code can compute [NaN] from the values the embedding
      admits (a key name that names a property every object inherits,
      the logarithm of a ratio that is not positive), the result has
      the type [jsNumber], a number or [NaN].
    - Module-level [let] variables become fields of a state record that
      is threaded through the functions; [console.*] calls and
      [midiOutput.send] calls are collected in an effect trace. *)

From stdpp Require Import gmap strings list sorting pretty.
From Stdlib Require Import Ascii ZArith QArith Qround Qminmax Reals Psatz.
From Equations Require Import Equations.

Set Default Proof Using "Type".

(** ** Effects shared by the modules *)

(** What a function does to the outside world, in the order it does it. *)
Inductive effect : Type :=
  | MidiSend (bytes : list Z)      (* midiOutput.send([...]) *)
  | ConsoleLog (msg : string)      (* console.log *)
  | ConsoleWarn (msg : string)     (* console.warn *)
  | ConsoleError (msg : string)    (* console.error *)
  | Alert (msg : string)           (* alert *)
  | Invoke (callback : string).    (* a call of a callback argument *)

(** A MIDI output port.  [send] throws on a system-exclusive message
    when the port rejects them (no SysEx permission, or a device that
    refuses the data); channel messages are always accepted. *)
Record port : Type := mkPort { rejectsSysEx : bool }.

Definition isSysEx (bytes : list Z) : bool :=
  match bytes with b :: _ => (b =? 0xF0)%Z | [] => false end.

Definition sendThrows (p : port) (bytes : list Z) : bool :=
  rejectsSysEx p && isSysEx bytes.

Definition is_warning (e : effect) : bool :=
  match e with ConsoleWarn _ | ConsoleError _ => true | _ => false end.

Definition is_log_line (e : effect) : bool :=
  match e with MidiSend _ => false | _ => true end.

Definition sent_messages (tr : list effect) : list (list Z) :=
  omap (fun e => match e with MidiSend b => Some b | _ => None end) tr.

(** ** js/tuning-core.js *)

Module TuningCore.
Local Open Scope R_scope.

(** [Math.log2] *)
Definition log2 (x : R) : R := ln x / ln 2.

(** [Math.round], as a real-to-integer function. *)
Definition Math_round (x : R) : Z := Zfloor (x + 1 / 2).

(** [JI_RATIOS.major] and [JI_RATIOS.minor]: an object indexed by the
    interval 0..12; any other index is [undefined] ([None]). *)
Definition JI_RATIOS_major (interval : Z) : option R :=
  match interval with
  | 0%Z => Some (1 / 1)
  | 1%Z => Some (16 / 15)
  | 2%Z => Some (9 / 8)
  | 3%Z => Some (6 / 5)
  | 4%Z => Some (5 / 4)
  | 5%Z => Some (4 / 3)
  | 6%Z => Some (45 / 32)
  | 7%Z => Some (3 / 2)
  | 8%Z => Some (8 / 5)
  | 9%Z => Some (5 / 3)
  | 10%Z => Some (9 / 5)
  | 11%Z => Some (15 / 8)
  | 12%Z => Some (2 / 1)
  | _ => None
  end.

Definition JI_RATIOS_minor (interval : Z) : option R :=
  match interval with
  | 0%Z => Some (1 / 1)
  | 1%Z => Some (16 / 15)
  | 2%Z => Some (9 / 8)
  | 3%Z => Some (6 / 5)
  | 4%Z => Some (5 / 4)
  | 5%Z => Some (4 / 3)
  | 6%Z => Some (45 / 32)
  | 7%Z => Some (3 / 2)
  | 8%Z => Some (8 / 5)
  | 9%Z => Some (5 / 3)
  | 10%Z => Some (16 / 9)
  | 11%Z => Some (15 / 8)
  | 12%Z => Some (2 / 1)
  | _ => None
  end.

Definition JI_RATIOS (isMinor : bool) : Z -> option R :=
  if isMinor then JI_RATIOS_minor else JI_RATIOS_major.

(** [ratios[interval] || 1.0]: every entry of the table is non-zero, so
    the default is taken exactly when the entry is [undefined]. *)
Definition ratio_or_one (ratios : Z -> option R) (interval : Z) : R :=
  default 1 (ratios interval).

(** [KEY_ROOTS], in source order. *)
Definition KEY_ROOTS : list (string * Z) :=
  [ ("C", 60); ("C#", 61); ("Db", 61); ("D", 62); ("D#", 63); ("Eb", 63);
    ("E", 64); ("F", 65); ("F#", 66); ("Gb", 66); ("G", 67); ("G#", 68);
    ("Ab", 68); ("A", 69); ("A#", 70); ("Bb", 70); ("B", 71);
    ("Cm", 60); ("C#m", 61); ("Dm", 62); ("D#m", 63); ("Ebm", 63);
    ("Em", 64); ("Fm", 65); ("F#m", 66); ("Gm", 67); ("G#m", 68);
    ("Am", 69); ("A#m", 70); ("Bbm", 70); ("Bm", 71) ]%Z.

Fixpoint assoc_lookup {A} (k : string) (l : list (string * A)) : option A :=
  match l with
  | [] => None
  | (k', v) :: l' => if String.eqb k k' then Some v else assoc_lookup k l'
  end.

(** [KEY_ROOTS] is an object literal, so [KEY_ROOTS[keyName]] also finds
    the properties every object inherits from [Object.prototype]: these
    names.  What it finds there is a function (for [__proto__] the
    prototype object itself), not a number. *)
Definition OBJECT_PROTOTYPE_KEYS : list string :=
  [ "constructor"; "hasOwnProperty"; "isPrototypeOf"; "propertyIsEnumerable";
    "toLocaleString"; "toString"; "valueOf";
    "__defineGetter__"; "__defineSetter__"; "__lookupGetter__"; "__lookupSetter__";
    "__proto__" ]%string.

(** What [getKeyRoot] returns: a number, or one of the inherited
    functions and objects. *)
Inductive keyRootValue : Type :=
  | RootNumber (keyRoot : Z)
  | RootInherited.

(** A number the code computes from such a value: arithmetic on a
    function or an object gives [NaN], and [NaN] stays [NaN] through
    [+], [-], [*], [%], [Math.round], [Math.min] and [Math.max]. *)
Inductive jsNumber (A : Type) : Type :=
  | Num (x : A)
  | NaN.
Arguments Num {A} x.
Arguments NaN {A}.

(** [getKeyRoot]: [KEY_ROOTS[keyName] || 60].  No root is 0 and the
    inherited values are truthy, so the default is taken exactly when
    the name is neither a key of the table nor inherited. *)
Definition getKeyRoot (keyName : string) : keyRootValue :=
  match assoc_lookup keyName KEY_ROOTS with
  | Some keyRoot => RootNumber keyRoot
  | None =>
      if bool_decide (keyName ∈ OBJECT_PROTOTYPE_KEYS) then RootInherited
      else RootNumber 60
  end.

(** [keyName.includes('m')] *)
Fixpoint includes_m (s : string) : bool :=
  match s with
  | EmptyString => false
  | String c s' => if Ascii.eqb c "m"%char then true else includes_m s'
  end.

(** [isMinorKey]: [keyName && keyName.includes('m')], used as a
    condition; the empty string is falsy and contains no 'm'. *)
Definition isMinorKey (keyName : string) : bool := includes_m keyName.

(** [centsToPitchBend] *)
Definition centsToPitchBend (cents : R) : Z :=
  let pitchBend := Math_round ((cents / 200) * 8192) in
  Z.max (-8192) (Z.min 8191 pitchBend).

(** [pitchBendToCents] *)
Definition pitchBendToCents (pitchBend : Z) : R :=
  (IZR pitchBend / 8192) * 200.

(** [ratioToCentsDeviation] *)
Definition ratioToCentsDeviation (ratio : R) (interval : Z) : R :=
  let jiCents := 1200 * log2 ratio in
  let etCents := IZR interval * 100 in
  jiCents - etCents.

(** [calculateJICentsForNote].  When [keyRoot] is not a number,
    [midiNote - keyRoot] is [NaN] and so is the interval;
    [ratios[NaN]] is [undefined], the ratio is 1.0, and
    [1200 * Math.log2(1.0) - NaN * 100] is [NaN]. *)
Definition calculateJICentsForNote (midiNote : Z) (keyName : string) : jsNumber R :=
  let ratios := JI_RATIOS (isMinorKey keyName) in
  match getKeyRoot keyName with
  | RootNumber keyRoot =>
      let interval := Z.rem (midiNote - keyRoot + 144) 12 in
      let ratio := ratio_or_one ratios interval in
      Num (ratioToCentsDeviation ratio interval)
  | RootInherited => NaN
  end.

(** [calculateJIPitchBend]; [centsToPitchBend(NaN)] is [NaN]. *)
Definition calculateJIPitchBend (midiNote : Z) (keyName : string) : jsNumber Z :=
  match calculateJICentsForNote midiNote keyName with
  | Num cents => Num (centsToPitchBend cents)
  | NaN => NaN
  end.

(** The body of the [for (pc ...)] loop of [calculateScaleOctaveTuning]:
    the value stored in [centsArray[pc]]. *)
Definition scaleOctaveEntry (keyRoot : Z) (isMinor : bool) (pc : Z) : R :=
  let ratios := JI_RATIOS isMinor in
  let interval := Z.rem (pc - Z.rem keyRoot 12 + 12) 12 in
  let ratio := ratio_or_one ratios interval in
  let jiCents := 1200 * log2 ratio in
  let etCents := IZR interval * 100 in
  let deviation := jiCents - etCents in
  IZR (Math_round (deviation * 100)) / 100.

(** [calculateScaleOctaveTuning]: the 12-entry cents table of a key. *)
Definition calculateScaleOctaveTuning (keyRoot : Z) (isMinor : bool) : list R :=
  map (scaleOctaveEntry keyRoot isMinor) (map Z.of_nat (seq 0 12)).

(** The spec's [deviation(pitchClass, root, mode)]: entry [pc] of the
    table; reading past the end of a JavaScript array gives
    [undefined], here [None]. *)
Definition deviation (pc : Z) (keyRoot : Z) (isMinor : bool) : option R :=
  if (pc <? 0)%Z then None
  else calculateScaleOctaveTuning keyRoot isMinor !! Z.to_nat pc.

End TuningCore.

(** ** js/tuning-mpe.js *)

Module TuningMPE.
Local Open Scope Z_scope.

Definition MPE_MASTER_CHANNEL : Z := 0.

(** [Array.from({ length: 15 }, (_, i) => i + 1)] *)
Definition MPE_MEMBER_CHANNELS : list Z :=
  map (fun i : nat => Z.of_nat i + 1) (seq 0 15).

(** What a slot of [channelPool] or a value of [activeNotes] can hold:
    a channel number, or [undefined] (what [Map.get] and [Array.shift]
    give when there is nothing to give). *)
Inductive chan : Type :=
  | Undefined
  | Chan (n : Z).

Global Instance chan_eq_dec : EqDecision chan.
Proof. solve_decision. Defined.

(** The module-level variables.  A note id is a string (main.js builds
    it from a counter and the pitch); a falsy id ([null], [undefined],
    the empty string) is the empty string. *)
Record state : Type := mkState {
  channelPool : list chan;
  activeNotes : gmap string chan;
  channelUsageOrder : list string;
  pitchBendRangeInitialized : bool
}.

(** The initial values of the variables, and [resetMPEState]. *)
Definition initialState : state :=
  mkState (map Chan MPE_MEMBER_CHANNELS) ∅ [] false.

Definition resetMPEState (s : state) : state := initialState.

Definition isPitchBendRangeInitialized (s : state) : bool :=
  pitchBendRangeInitialized s.

(** The six RPN messages sent for one channel. *)
Definition bendRangeMessages (channel : Z) : list effect :=
  [ MidiSend [Z.lor 0xB0 channel; 101; 0];
    MidiSend [Z.lor 0xB0 channel; 100; 0];
    MidiSend [Z.lor 0xB0 channel; 6; 2];
    MidiSend [Z.lor 0xB0 channel; 38; 0];
    MidiSend [Z.lor 0xB0 channel; 101; 127];
    MidiSend [Z.lor 0xB0 channel; 100; 127] ].

(** [initializePitchBendRange]; [midiOutput] is [true] when an output
    port is given.  The port accepts every message built here, so the
    [catch] branch is not taken.  (The log texts write the plus-minus
    sign of the source as [+-].) *)
Definition initializePitchBendRange (midiOutput : bool) (s : state)
  : bool * state * list effect :=
  if negb midiOutput then
    (false, s, [ConsoleWarn "Cannot initialize MPE pitch bend range: no MIDI output"])
  else if pitchBendRangeInitialized s then
    (true, s, [ConsoleLog "MPE pitch bend range already initialized"])
  else
    (true,
     mkState (channelPool s) (activeNotes s) (channelUsageOrder s) true,
     [ConsoleLog "Initializing MPE pitch bend range (+-2 semitones)..."]
       ++ concat (map bendRangeMessages MPE_MEMBER_CHANNELS)
       ++ [ConsoleLog "MPE pitch bend range set to +-2 semitones"]).

(** [const index = arr.indexOf(x); if (index > -1) arr.splice(index, 1)] *)
Definition spliceOut (x : string) (arr : list string) : list string :=
  match list_find (fun y => y = x) arr with
  | Some (index, _) => delete index arr
  | None => arr
  end.

(** [activeNotes.get(noteId)] *)
Definition mapGet (m : gmap string chan) (noteId : string) : chan :=
  default Undefined (m !! noteId).

(** What [allocateChannel] returns: [null], a channel, or the object
    [{ channel, reusedNoteId }]. *)
Inductive allocation : Type :=
  | AllocNull
  | AllocChannel (channel : chan)
  | AllocReused (channel : chan) (reusedNoteId : string).

Definition showChan (c : chan) : string :=
  match c with Undefined => "undefined" | Chan n => pretty n end.

(** The warning of a stolen channel. *)
Definition stealWarning (channel : chan) : effect :=
  ConsoleWarn ("Channel pool exhausted. Reusing channel " +:+ showChan channel).

(** [allocateChannel] *)
Definition allocateChannel (noteId : string) (s : state)
  : allocation * state * list effect :=
  if bool_decide (noteId = "") then (AllocNull, s, [])
  else
    match activeNotes s !! noteId with
    | Some c =>
        (AllocChannel c,
         mkState (channelPool s) (activeNotes s)
                 (spliceOut noteId (channelUsageOrder s) ++ [noteId])
                 (pitchBendRangeInitialized s),
         [])
    | None =>
        match channelPool s with
        | channel :: pool' =>
            (* channelPool.shift() gave a channel *)
            (AllocChannel channel,
             mkState pool' (<[noteId := channel]> (activeNotes s))
                     (channelUsageOrder s ++ [noteId])
                     (pitchBendRangeInitialized s),
             [])
        | [] =>
            (* channel === null *)
            match channelUsageOrder s with
            | reusedNoteId :: order' =>
                let channel := mapGet (activeNotes s) reusedNoteId in
                (AllocReused channel reusedNoteId,
                 mkState [] (<[noteId := channel]> (delete reusedNoteId (activeNotes s)))
                         (order' ++ [noteId])
                         (pitchBendRangeInitialized s),
                 [stealWarning channel])
            | [] => (AllocNull, s, [])
            end
        end
    end.

(** The order [channelPool.sort((a, b) => a - b)] puts two slots in:
    numbers ascending, [undefined] after every number. *)
Definition chan_le (a b : chan) : Prop :=
  match a, b with
  | Chan x, Chan y => x <= y
  | _, Undefined => True
  | Undefined, Chan _ => False
  end.

Global Instance chan_le_dec a b : Decision (chan_le a b).
Proof. destruct a, b; simpl; apply _. Defined.

(** [releaseChannel].  The map never holds [null], so the first of the
    three guards of the push, [channel !== null], always passes. *)
Definition releaseChannel (noteId : string) (s : state) : state :=
  if bool_decide (noteId = "") then s
  else
    match activeNotes s !! noteId with
    | None => s
    | Some channel =>
        let active' := delete noteId (activeNotes s) in
        let order' := spliceOut noteId (channelUsageOrder s) in
        let pool' :=
          if negb (bool_decide (channel ∈ channelPool s))
             && negb (bool_decide (channel = Chan MPE_MASTER_CHANNEL))
          then merge_sort chan_le (channelPool s ++ [channel])
          else channelPool s in
        mkState pool' active' order' (pitchBendRangeInitialized s)
    end.

(** [getChannelForNote]: [None] is [null]. *)
Definition getChannelForNote (noteId : string) (s : state) : option chan :=
  match activeNotes s !! noteId with
  | Some c => Some c
  | None => None
  end.

(** A channel as an operand of [|]: [undefined] converts to 0. *)
Definition chanBits (channel : chan) : Z :=
  match channel with Undefined => 0 | Chan n => n end.

(** [sendPitchBend]: the number of bytes sent and what was done.
    [midiOutput] is [true] when an output port is given; [channel] is
    [None] for [null]. *)
Definition sendPitchBend (midiOutput : bool) (channel : option chan) (bendValue : Z)
  : Z * list effect :=
  match channel with
  | None | Some Undefined => (0, [])
  | Some (Chan ch) =>
      if negb midiOutput then (0, [])
      else
        let clamped := Z.max (-8192) (Z.min 8191 bendValue) in
        let bend := clamped + 8192 in
        let lsb := Z.land bend 0x7F in
        let msb := Z.land (Z.shiftr bend 7) 0x7F in
        (3, [MidiSend [Z.lor 0xE0 ch; lsb; msb]])
  end.

(** [sendNoteOn] and [sendNoteOff] *)
Definition sendNoteOn (midiOutput : bool) (channel note velocity : Z) : Z * list effect :=
  if negb midiOutput then (0, [])
  else (3, [MidiSend [Z.lor 0x90 channel; note; velocity]]).

Definition sendNoteOff (midiOutput : bool) (channel note : Z) : Z * list effect :=
  if negb midiOutput then (0, [])
  else (3, [MidiSend [Z.lor 0x80 channel; note; 0]]).

(** *** Runs of the allocator

    What the rest of the program can do to the module: the calls of its
    exported functions that change the variables. *)
Inductive call : Type :=
  | Allocate (noteId : string)
  | Release (noteId : string)
  | Reset
  | InitRange.

Definition perform (s : state) (c : call) : state :=
  match c with
  | Allocate noteId => snd (fst (allocateChannel noteId s))
  | Release noteId => releaseChannel noteId s
  | Reset => resetMPEState s
  | InitRange => snd (fst (initializePitchBendRange true s))
  end.

(** The state after a sequence of calls, from the values the variables
    have when the module is loaded. *)
Definition after (calls : list call) : state := fold_left perform calls initialState.

(** The notes that sound after a sequence of calls, read off the calls
    alone: main.js allocates a channel at the note-on and releases it
    at the note-off, so a note is held from its [Allocate] to its
    [Release], or to a [Reset].  (A falsy id is given no channel.) *)
Definition hold (held : gset string) (c : call) : gset string :=
  match c with
  | Allocate noteId => if bool_decide (noteId = "") then held else {[ noteId ]} ∪ held
  | Release noteId => held ∖ {[ noteId ]}
  | Reset => ∅
  | InitRange => held
  end.

Definition heldAfter (calls : list call) : gset string := fold_left hold calls ∅.

(** At no point of [calls], started with the notes [held], are more
    than [limit] notes held at once. *)
Fixpoint peakWithin (limit : nat) (held : gset string) (calls : list call) : bool :=
  match calls with
  | [] => true
  | c :: rest =>
      bool_decide (size (hold held c) <= limit)%nat && peakWithin limit (hold held c) rest
  end.

Definition atMost15Held (calls : list call) : bool := peakWithin 15 ∅ calls.

(** Fourteen notes played and released one after the other while the
    note [1_60] is held. *)
Definition passingNotes : list call :=
  Allocate "1_60"
    :: concat (map (fun id => [Allocate id; Release id])
                   ["2_62"; "3_64"; "4_65"; "5_67"; "6_69"; "7_71"; "8_72";
                    "9_74"; "10_76"; "11_77"; "12_79"; "13_81"; "14_83"; "15_84"]%string).

(** Fifteen notes held at once, under the ids main.js gives them. *)
Definition heldNotes : list string :=
  ["1_60"; "2_62"; "3_64"; "4_65"; "5_67"; "6_69"; "7_71"; "8_72";
   "9_74"; "10_76"; "11_77"; "12_79"; "13_81"; "14_83"; "15_84"]%string.

Definition fifteenNoteOns : list call := map Allocate heldNotes.

(** In [calls], the last allocation of [a] comes before the last
    allocation of [b]: some [Allocate a] precedes the last
    [Allocate b], and none follows it. *)
Definition allocatedBefore (calls : list call) (a b : string) : Prop :=
  exists l1 l3,
    calls = l1 ++ Allocate b :: l3
    /\ Allocate a ∈ l1 /\ (Allocate a ∉ l3) /\ (Allocate b ∉ l3).

(** A slot that holds one of the member channels 1..15. *)
Definition member (c : chan) : Prop := exists n, c = Chan n /\ 1 <= n <= 15.

(** The invariant of the three variables. *)
Record Inv (s : state) : Prop := mkInv {
  inv_pool_nodup : NoDup (channelPool s);
  inv_pool_member : forall c, c ∈ channelPool s -> member c;
  inv_active_member : forall id c, activeNotes s !! id = Some c -> member c;
  inv_disjoint : forall id c, activeNotes s !! id = Some c -> c ∉ channelPool s;
  inv_distinct : forall id1 id2 c,
      activeNotes s !! id1 = Some c -> activeNotes s !! id2 = Some c -> id1 = id2;
  inv_order_nodup : NoDup (channelUsageOrder s);
  inv_order_dom : forall id, id ∈ channelUsageOrder s <-> is_Some (activeNotes s !! id);
  inv_count : (length (channelPool s) + size (activeNotes s) = 15)%nat;
  inv_order_length : length (channelUsageOrder s) = size (activeNotes s)
}.

End TuningMPE.

(** ** js/key-detection.js *)

Module KeyDetection.
Local Open Scope Q_scope.

(** A number of the detector: a rational, or the [-Infinity] the
    running maxima start from. *)
Inductive xnum : Type :=
  | NegInfinity
  | Fin (q : Q).

(** [a > b], [a >= b], [a + b], and the products [c * a] and [a * c]
    with a positive constant [c] (every factor the detector multiplies
    a score with is positive). *)
Definition Qgtb (a b : Q) : bool := negb (Qle_bool a b).

Definition xgt (a b : xnum) : bool :=
  match a, b with
  | NegInfinity, _ => false
  | Fin _, NegInfinity => true
  | Fin x, Fin y => Qgtb x y
  end.

Definition xge (a b : xnum) : bool :=
  match a, b with
  | _, NegInfinity => true
  | NegInfinity, Fin _ => false
  | Fin x, Fin y => Qle_bool y x
  end.

Definition xadd (a b : xnum) : xnum :=
  match a, b with
  | Fin x, Fin y => Fin (x + y)
  | _, _ => NegInfinity
  end.

Definition xscale (c : Q) (a : xnum) : xnum :=
  match a with
  | Fin x => Fin (c * x)
  | NegInfinity => NegInfinity
  end.

Definition xtimes (a : xnum) (c : Q) : xnum :=
  match a with
  | Fin x => Fin (x * c)
  | NegInfinity => NegInfinity
  end.

(** [Math.round] *)
Definition Math_round (a : xnum) : xnum :=
  match a with
  | Fin x => Fin (inject_Z (Qfloor (x + (1 # 2))))
  | NegInfinity => NegInfinity
  end.

Record profilePair : Type := mkProfiles { major : list Q; minor : list Q }.

Definition ALBRECHT_SHANAHAN_PROFILES : profilePair :=
  mkProfiles
    [0.238; 0.006; 0.111; 0.006; 0.137; 0.094; 0.016; 0.214; 0.009; 0.080; 0.008; 0.081]
    [0.220; 0.006; 0.104; 0.123; 0.019; 0.103; 0.012; 0.214; 0.062; 0.022; 0.061; 0.052].

Definition TEMPERLEY_PROFILES : profilePair :=
  mkProfiles
    [0.176; 0.014; 0.115; 0.019; 0.158; 0.108; 0.023; 0.168; 0.024; 0.086; 0.013; 0.094]
    [0.170; 0.020; 0.113; 0.148; 0.012; 0.110; 0.025; 0.179; 0.097; 0.016; 0.032; 0.079].

Definition KRUMHANSL_KESSLER_PROFILES : profilePair :=
  mkProfiles
    [0.152; 0.053; 0.083; 0.056; 0.105; 0.098; 0.060; 0.124; 0.057; 0.088; 0.055; 0.069]
    [0.142; 0.060; 0.079; 0.121; 0.058; 0.079; 0.057; 0.107; 0.089; 0.060; 0.075; 0.071].

Record profileConfig : Type := mkConfig { data : profilePair; weight : Q }.

(** [ENSEMBLE_CONFIG.profiles], in the order [Object.entries] lists it. *)
Definition ENSEMBLE_CONFIG_profiles : list (string * profileConfig) :=
  [ ("albrecht_shanahan"%string, mkConfig ALBRECHT_SHANAHAN_PROFILES 0.45);
    ("temperley"%string, mkConfig TEMPERLEY_PROFILES 0.35);
    ("krumhansl_kessler"%string, mkConfig KRUMHANSL_KESSLER_PROFILES 0.20) ].

Definition NOTE_NAMES : list string :=
  ["C"; "C#"; "D"; "D#"; "E"; "F"; "F#"; "G"; "G#"; "A"; "A#"; "B"]%string.

(** An element of the note buffer, as main.js pushes it; [note] is a
    MIDI data byte. *)
Record noteEvent : Type := mkNote { note : nat; time : Z; velocity : Z }.

(** The sensitivity threshold. *)
Definition thresholdOf (sensitivity : string) : Q :=
  if String.eqb sensitivity "high" then 0.03
  else if String.eqb sensitivity "medium" then 0.04
  else 0.05.

(** [noteCounts] after the [forEach]. *)
Definition countNotes (noteBuffer : list noteEvent) : list Z :=
  fold_left (fun counts ev => alter Z.succ (note ev mod 12)%nat counts)
            noteBuffer (replicate 12 0%Z).

(** [noteCounts.reduce((a, b) => a + b, 0)] *)
Definition totalOf (noteCounts : list Z) : Z := fold_left Z.add noteCounts 0%Z.

Definition normalize (noteCounts : list Z) (total : Z) : list Q :=
  map (fun c => inject_Z c / inject_Z total) noteCounts.

(** [[...p.slice(12 - root), ...p.slice(0, 12 - root)]] *)
Definition rotate (profileData : list Q) (root : nat) : list Q :=
  drop (12 - root) profileData ++ take (12 - root) profileData.

(** The scalar product loop. *)
Definition scoreOf (normalized rotated : list Q) : Q :=
  fold_left (fun score i => score + nth i normalized 0 * nth i rotated 0)
            (seq 0 12) 0.

Definition keyName (root : nat) (isMinor : bool) : string :=
  (nth root NOTE_NAMES "" +:+ (if isMinor then "m" else ""))%string.

(** The (root, mode) pairs in the order the two nested loops visit
    them; the mode is [true] for ['minor']. *)
Definition candidates : list (nat * bool) :=
  flat_map (fun root => [(root, false); (root, true)]) (seq 0 12).

(** One pass of the body of the inner loop: [bestKey] is [None] for
    [null]. *)
Definition bestStep (profile : profilePair) (normalized : list Q)
    (acc : option string * xnum) (cand : nat * bool) : option string * xnum :=
  let '(bestKey, bestScore) := acc in
  let '(root, isMinor) := cand in
  let profileData := if isMinor then minor profile else major profile in
  let rotated := rotate profileData root in
  let score := scoreOf normalized rotated in
  if xgt (Fin score) bestScore then (Some (keyName root isMinor), Fin score)
  else (bestKey, bestScore).

Definition bestKeyOf (profile : profilePair) (normalized : list Q) : option string * xnum :=
  fold_left (bestStep profile normalized) candidates (None, NegInfinity).

(** An entry of [keyVotes]. *)
Record vote : Type := mkVote {
  weightedScore : xnum;
  voteCount : Z;
  profiles : list string
}.

(** A key used as a property name: [null] becomes the string "null". *)
Definition propertyName (k : option string) : string := default "null"%string k.

Fixpoint lookupVote (k : string) (votes : list (string * vote)) : option vote :=
  match votes with
  | [] => None
  | (k', v) :: rest => if String.eqb k' k then Some v else lookupVote k rest
  end.

Definition updateVote (k : string) (f : vote -> vote) (votes : list (string * vote))
  : list (string * vote) :=
  map (fun kv => if String.eqb (fst kv) k then (fst kv, f (snd kv)) else kv) votes.

(** The part of the body of the profile loop that updates [keyVotes]:
    a key that has no entry yet gets one at the end of the object. *)
Definition castVote (profileName : string) (w : Q) (bestKey : option string)
    (bestScore : xnum) (keyVotes : list (string * vote)) : list (string * vote) :=
  let k := propertyName bestKey in
  let keyVotes :=
    match lookupVote k keyVotes with
    | Some _ => keyVotes
    | None => keyVotes ++ [(k, mkVote (Fin 0) 0 [])]
    end in
  updateVote k (fun v => mkVote (xadd (weightedScore v) (xscale w bestScore))
                                (voteCount v + 1)
                                (profiles v ++ [profileName])) keyVotes.

(** The profile loop: [keyVotes] and [profileResults] after it. *)
Definition profileStep (normalized : list Q)
    (acc : list (string * vote) * list (string * (option string * xnum)))
    (entry : string * profileConfig)
  : list (string * vote) * list (string * (option string * xnum)) :=
  let '(keyVotes, profileResults) := acc in
  let '(profileName, profileConfig) := entry in
  let '(bestKey, bestScore) := bestKeyOf (data profileConfig) normalized in
  (castVote profileName (weight profileConfig) bestKey bestScore keyVotes,
   profileResults ++ [(profileName, (bestKey, bestScore))]).

Definition tally (normalized : list Q)
  : list (string * vote) * list (string * (option string * xnum)) :=
  fold_left (profileStep normalized) ENSEMBLE_CONFIG_profiles ([], []).

(** The loop over [Object.entries(keyVotes)]. *)
Definition finalStep (acc : option string * xnum * Z) (entry : string * vote)
  : option string * xnum * Z :=
  let '(finalKey, finalScore, agreement) := acc in
  let '(key, data) := entry in
  if xgt (weightedScore data) finalScore
  then (Some key, weightedScore data, voteCount data)
  else (finalKey, finalScore, agreement).

Definition finalOf (keyVotes : list (string * vote)) : option string * xnum * Z :=
  fold_left finalStep keyVotes (None, NegInfinity, 0%Z).

Definition agreementBonusOf (agreement : Z) : Q :=
  if (agreement =? 3)%Z then 1.2 else if (agreement =? 2)%Z then 1.0 else 0.8.

(** The object [detectKeyEnsemble] returns. *)
Record estimate : Type := mkEstimate {
  key : option string;
  confidence : xnum;
  agreement : Z;
  agreementText : string;
  profileResults : list (string * (option string * xnum));
  method : string
}.

(** [detectKeyEnsemble]; the detector's only field, [currentKey], is
    passed in and returned ([None] is [null]). *)
Definition detectKeyEnsemble (noteBuffer : list noteEvent) (sensitivity : string)
    (currentKey : option string)
  : option estimate * option string * list effect :=
  let threshold := thresholdOf sensitivity in
  let noteCounts := countNotes noteBuffer in
  let total := totalOf noteCounts in
  if (total =? 0)%Z then (None, currentKey, [])
  else
    let normalized := normalize noteCounts total in
    let '(keyVotes, profileResults) := tally normalized in
    let '(finalKey, finalScore, agreement) := finalOf keyVotes in
    let agreementBonus := agreementBonusOf agreement in
    let confidencePercent := Math_round (xtimes (xtimes finalScore 400) agreementBonus) in
    if xge finalScore (Fin threshold)
       && negb (bool_decide (finalKey = currentKey))
    then
      let agreementText :=
        if (agreement =? 3)%Z then "unanimous"%string
        else (pretty agreement +:+ "/3 agree")%string in
      (Some (mkEstimate finalKey confidencePercent agreement agreementText
                        profileResults "ensemble"),
       finalKey,
       [ConsoleLog "Ensemble results:"])
    else (None, currentKey, []).

(** The winner of the vote for a buffer: the final key, its weighted
    score and its vote count. *)
Definition winnerOf (noteBuffer : list noteEvent) : option string * xnum * Z :=
  let noteCounts := countNotes noteBuffer in
  finalOf (fst (tally (normalize noteCounts (totalOf noteCounts)))).

(** [detectKey] and its default argument. *)
Definition detectKey (noteBuffer : list noteEvent) (sensitivity : option string)
    (currentKey : option string) :=
  detectKeyEnsemble noteBuffer (default "medium"%string sensitivity) currentKey.

(** The [KeyDetector] object: [currentKey] after a run of [detectKey]
    calls on the given buffers. *)
Definition feed (sensitivity : string) (currentKey : option string)
    (buffers : list (list noteEvent)) : option string :=
  fold_left (fun cur buf => snd (fst (detectKeyEnsemble buf sensitivity cur)))
            buffers currentKey.

(** Two buffers: an ascending C major scale, and thirteen notes spread
    over the chromatic scale. *)
Definition notesOf (pitches : list nat) : list noteEvent :=
  map (fun n => mkNote n 0 100) pitches.

Definition cMajorScale : list noteEvent :=
  notesOf [60; 62; 64; 65; 67; 69; 71; 72]%nat.

Definition chromaticCluster : list noteEvent :=
  notesOf [61; 65; 71; 62; 66; 67; 63; 67; 69; 61; 65; 64; 63]%nat.

(** A name the detector can give a key: a note name, followed by [m]
    for the minor mode. *)
Definition knownName (k : string) : Prop :=
  exists (root : nat) (isMinor : bool), (root < 12)%nat /\ k = keyName root isMinor.

(** [note.note % 12], the only part of a buffered note the detector
    reads. *)
Definition pitchClass (ev : noteEvent) : nat := (note ev mod 12)%nat.

End KeyDetection.

(** ** js/tuning-mts.js *)

Module TuningMTS.
Import TuningCore.
Local Open Scope R_scope.

Record state : Type := mkState {
  mtsSupported : bool;
  mtsDetectionAttempted : bool;
  mtsFallbackRequested : bool;
  mtsLastSuccessTime : Z;
  mtsMessagesSent : Z;
  currentScaleOctaveTuning : list (jsNumber R);
  currentTuningMode : string
}.

Definition equalTemperament : list R := replicate 12 0.

Definition initialState : state :=
  mkState false false false 0 0 (Num <$> equalTemperament) "detecting".

Definition getTuningMode (s : state) : string := currentTuningMode s.
Definition isMTSSupported (s : state) : bool := mtsSupported s.
Definition isMTSFallbackRequested (s : state) : bool := mtsFallbackRequested s.

Definition resetMTSDetection (s : state) : state :=
  mkState (mtsSupported s) false (mtsFallbackRequested s) (mtsLastSuccessTime s)
          (mtsMessagesSent s) (currentScaleOctaveTuning s) (currentTuningMode s).

(** The result object [{ success, bytesSent }]. *)
Record result : Type := mkResult { success : bool; bytesSent : Z }.

Definition failure : result := mkResult false 0.

(** [centsToMTSFrequencyData] *)
Definition centsToMTSFrequencyData (baseMidiNote : Z) (centsOffset : R) : list Z :=
  let totalCents := IZR baseMidiNote * 100 + centsOffset in
  let semitone := Zfloor (totalCents / 100) in
  if (semitone <? 0)%Z then [0x00; 0x00; 0x00]%Z
  else if (127 <? semitone)%Z then [0x7F; 0x7F; 0x7E]%Z
  else
    let fractionCents := totalCents - IZR semitone * 100 in
    let fractionCents := Rmax 0 (Rmin 99.9939 fractionCents) in
    let fraction14bit := Math_round ((fractionCents / 100) * 16383) in
    let fractionClamped := Z.max 0 (Z.min 16383 fraction14bit) in
    let fractionMSB := Z.land (Z.shiftr fractionClamped 7) 0x7F in
    let fractionLSB := Z.land fractionClamped 0x7F in
    [Z.land semitone 0x7F; fractionMSB; fractionLSB].

(** [buildSingleNoteTuning] *)
Definition buildSingleNoteTuning (noteNumber : Z) (centsOffset : R) : list Z :=
  [0xF0; 0x7F; 0x7F; 0x08; 0x02; 0x00; 0x01; Z.land noteNumber 0x7F]%Z
    ++ centsToMTSFrequencyData noteNumber centsOffset
    ++ [0xF7]%Z.

(** One step of the loop of [buildScaleOctaveTuning2Byte]: the two bytes
    pushed for one pitch class. *)
Definition scaleOctaveBytes (cents : R) : list Z :=
  let clampedCents := Rmax (-100) (Rmin 100 cents) in
  let value14bit := Math_round (((clampedCents + 100) / 200) * 16383) in
  let valueClamped := Z.max 0 (Z.min 16383 value14bit) in
  let msb := Z.land (Z.shiftr valueClamped 7) 0x7F in
  let lsb := Z.land valueClamped 0x7F in
  [msb; lsb].

(** [buildScaleOctaveTuning2Byte]; [channelMask] is [None] for the
    default ['all'] (and for anything that is not an array of three
    bytes) and [Some (ff, gg, hh)] for an array. *)
Definition buildScaleOctaveTuning2Byte (centsArray : list R) (channelMask : option (Z * Z * Z))
  : option (list Z) * list effect :=
  if negb (length centsArray =? 12)%nat then
    (None, [ConsoleError "Scale/Octave tuning requires exactly 12 cent values"])
  else
    let '(ff, gg, hh) :=
      match channelMask with
      | None => (0x03, 0x7F, 0x7F)%Z
      | Some (ff, gg, hh) => (Z.land ff 0x03, gg, hh)
      end in
    (Some ([0xF0; 0x7F; 0x7F; 0x08; 0x09; ff; gg; hh]%Z
             ++ concat (map scaleOctaveBytes centsArray)
             ++ [0xF7]%Z),
     []).

(** [sendScaleOctaveTuning]; [now] is what [Date.now()] returns. *)
Definition sendScaleOctaveTuning (midiOutput : option port) (centsArray : list R)
    (now : Z) (s : state) : result * state * list effect :=
  match midiOutput with
  | None => (failure, s, [])
  | Some out =>
      match buildScaleOctaveTuning2Byte centsArray None with
      | (None, tr) => (failure, s, tr)
      | (Some message, tr) =>
          if sendThrows out message then
            (failure, s, tr ++ [ConsoleError "Failed to send MTS Scale/Octave tuning:"])
          else
            (mkResult true (Z.of_nat (length message)),
             mkState (mtsSupported s) (mtsDetectionAttempted s) (mtsFallbackRequested s)
                     now (mtsMessagesSent s + 1) (Num <$> centsArray) (currentTuningMode s),
             tr ++ [MidiSend message])
      end
  end.

(** [resetToEqualTemperament] *)
Definition resetToEqualTemperament (midiOutput : option port) (now : Z) (s : state)
  : state * list effect :=
  if bool_decide (is_Some midiOutput) && mtsSupported s then
    let '(_, s', tr) := sendScaleOctaveTuning midiOutput equalTemperament now s in
    (s', tr ++ [ConsoleLog "Reset tuning to equal temperament"])
  else (s, []).

(** [applySingleNoteTuning] *)
Definition applySingleNoteTuning (midiOutput : option port) (note : Z) (cents : R)
    (now : Z) (s : state) : result * state * list effect :=
  match midiOutput with
  | None => (failure, s, [])
  | Some out =>
      if negb (mtsSupported s) then (failure, s, [])
      else
        let mtsMessage := buildSingleNoteTuning note cents in
        if sendThrows out mtsMessage then
          (failure, s, [ConsoleWarn "MTS tuning failed:"])
        else
          (mkResult true (Z.of_nat (length mtsMessage)),
           mkState (mtsSupported s) (mtsDetectionAttempted s) (mtsFallbackRequested s)
                   now (mtsMessagesSent s + 1) (currentScaleOctaveTuning s)
                   (currentTuningMode s),
           [MidiSend mtsMessage])
  end.

(** [NOTE_NAMES[index]] inside a template literal: an index that is
    negative (or [NaN]) reads [undefined]. *)
Definition noteNameText (index : option Z) : string :=
  match index with
  | Some i =>
      if (i <? 0)%Z then "undefined"
      else default "undefined"%string (KeyDetection.NOTE_NAMES !! Z.to_nat i)
  | None => "undefined"
  end.

(** The text [applyJITuningForKey] logs. *)
Definition tuningAppliedText (index : option Z) (isMinor : bool) : string :=
  "MTS tuning applied for " +:+ noteNameText index +:+ (if isMinor then "m" else "").

(** [applyJITuningForKey], for a [keyRoot] that is a number. *)
Definition applyJITuningForKey (midiOutput : option port) (keyRoot : Z) (isMinor : bool)
    (now : Z) (s : state) : result * state * list effect :=
  match midiOutput with
  | None => (failure, s, [])
  | Some _ =>
      let centsArray := calculateScaleOctaveTuning keyRoot isMinor in
      if mtsSupported s && negb (mtsFallbackRequested s) then
        let '(r, s', tr) := sendScaleOctaveTuning midiOutput centsArray now s in
        if success r then
          (r, s', tr ++ [ConsoleLog (tuningAppliedText (Some (Z.rem keyRoot 12)) isMinor)])
        else (failure, s', tr)
      else (failure, s, [])
  end.

(** The message [buildScaleOctaveTuning2Byte] builds from twelve [NaN]:
    [Math.max], [Math.min] and [Math.round] return [NaN], and [>>] and
    [&] convert [NaN] to 0, so each of the 24 data bytes is 0. *)
Definition scaleOctaveMessageOfNaN : list Z :=
  [0xF0; 0x7F; 0x7F; 0x08; 0x09; 0x03; 0x7F; 0x7F]%Z
    ++ concat (replicate 12 [Z.land (Z.shiftr 0 7) 0x7F; Z.land 0 0x7F])
    ++ [0xF7]%Z.

(** [applyJITuningForKey], for a [keyRoot] that is not a number but one
    of the values inherited from [Object.prototype]: [keyRoot % 12] is
    [NaN], so every interval of [calculateScaleOctaveTuning] is [NaN],
    every ratio is 1.0 and every entry of [centsArray] is [NaN];
    [sendScaleOctaveTuning] sends the message built from them, and the
    name in the log line is [NOTE_NAMES[NaN]]. *)
Definition applyJITuningForInheritedRoot (midiOutput : option port) (isMinor : bool)
    (now : Z) (s : state) : result * state * list effect :=
  match midiOutput with
  | None => (failure, s, [])
  | Some out =>
      if mtsSupported s && negb (mtsFallbackRequested s) then
        let message := scaleOctaveMessageOfNaN in
        if sendThrows out message then
          (failure, s, [ConsoleError "Failed to send MTS Scale/Octave tuning:"])
        else
          (mkResult true (Z.of_nat (length message)),
           mkState (mtsSupported s) (mtsDetectionAttempted s) (mtsFallbackRequested s)
                   now (mtsMessagesSent s + 1) (replicate 12 NaN) (currentTuningMode s),
           [MidiSend message; ConsoleLog (tuningAppliedText None isMinor)])
      else (failure, s, [])
  end.

(** The key of [localStorage] that holds the user's override. *)
Definition preferenceKey : string := "tuningModePreference".

(** [detectMTSSupport].  [sysexEnabled] is whether the browser granted
    SysEx access; [localStorage] is read, not written; the callbacks
    [initMPE] and [updateDisplay] are given at every call site and
    appear in the trace when they are called. *)
Definition detectMTSSupport (midiOutput : option port) (sysexEnabled : bool)
    (localStorage : gmap string string) (now : Z) (s : state)
  : state * list effect :=
  if negb (bool_decide (is_Some midiOutput)) || mtsDetectionAttempted s then (s, [])
  else
    if negb sysexEnabled then
      (mkState false true true (mtsLastSuccessTime s) (mtsMessagesSent s)
               (currentScaleOctaveTuning s) "MPE",
       [ConsoleLog "Initializing MTS tuning system...";
        ConsoleWarn "SysEx not enabled - MTS unavailable, using MPE";
        Invoke "initMPE"; Invoke "updateDisplay"])
    else if bool_decide (localStorage !! preferenceKey = Some "MPE") then
      (mkState false true true (mtsLastSuccessTime s) (mtsMessagesSent s)
               (currentScaleOctaveTuning s) "MPE",
       [ConsoleLog "Initializing MTS tuning system...";
        ConsoleLog "Using MPE mode (user preference)";
        Invoke "initMPE"; Invoke "updateDisplay"])
    else
      let s1 := mkState true true (mtsFallbackRequested s) (mtsLastSuccessTime s)
                        (mtsMessagesSent s) (currentScaleOctaveTuning s) "MTS" in
      (* sendScaleOctaveTuning catches what send throws, so the catch
         branch of detectMTSSupport is never entered *)
      let '(_, s2, tr) := sendScaleOctaveTuning midiOutput equalTemperament now s1 in
      (mkState (mtsSupported s2) (mtsDetectionAttempted s2) (mtsFallbackRequested s2)
               now (mtsMessagesSent s2) (currentScaleOctaveTuning s2)
               (currentTuningMode s2),
       [ConsoleLog "Initializing MTS tuning system..."; ConsoleLog "MTS mode enabled"]
         ++ tr
         ++ [ConsoleLog "MTS initialization successful"; Invoke "updateDisplay"]).

(** [switchToMPEMode]: the user's override, persisted in [localStorage]. *)
Definition switchToMPEMode (midiOutput : option port)
    (localStorage : gmap string string) (s : state)
  : state * gmap string string * list effect :=
  (mkState false (mtsDetectionAttempted s) true (mtsLastSuccessTime s)
           (mtsMessagesSent s) (currentScaleOctaveTuning s) "MPE",
   <[preferenceKey := "MPE"%string]> localStorage,
   [ConsoleLog "Switched to MPE mode"; Invoke "updateDisplay"]
     ++ (if bool_decide (is_Some midiOutput) then [Invoke "initMPE"] else [])).

(** [switchToMTSMode]; [currentKey] is [None] for [null]. *)
Definition switchToMTSMode (midiOutput : option port) (sysexEnabled : bool)
    (currentKey : option string) (localStorage : gmap string string)
    (now : Z) (s : state)
  : bool * state * gmap string string * list effect :=
  if negb sysexEnabled then
    (false, s, localStorage,
     [ConsoleError "Cannot switch to MTS: SysEx permission not granted";
      Alert "Cannot switch to MTS mode: SysEx permission is required."])
  else
    let s1 := mkState true (mtsDetectionAttempted s) false (mtsLastSuccessTime s)
                      (mtsMessagesSent s) (currentScaleOctaveTuning s) "MTS" in
    let '(_, s2, tr1) := sendScaleOctaveTuning midiOutput equalTemperament now s1 in
    let '(s3, tr2) :=
      match currentKey with
      | Some key =>
          if bool_decide (key = "") then (s2, [])
          else
            let '(_, s3, tr2) :=
              match getKeyRoot key with
              | RootNumber keyRoot =>
                  applyJITuningForKey midiOutput keyRoot (isMinorKey key) now s2
              | RootInherited =>
                  applyJITuningForInheritedRoot midiOutput (isMinorKey key) now s2
              end in
            (s3, tr2)
      | None => (s2, [])
      end in
    (true, s3, delete preferenceKey localStorage,
     [ConsoleLog "Switched to MTS mode"] ++ tr1 ++ tr2 ++ [Invoke "updateDisplay"]).

(** [buildMultiNoteTuning]; a change is the pair of its [note] and
    [cents]; [None] is [null]. *)
Definition buildMultiNoteTuning (noteChanges : list (Z * R)) : option (list Z) :=
  if (length noteChanges =? 0)%nat then None
  else
    let numChanges := Nat.min (length noteChanges) 127 in
    Some ([0xF0; 0x7F; 0x7F; 0x08; 0x02; 0x00; Z.of_nat numChanges]%Z
            ++ concat (map (fun change =>
                              Z.land (fst change) 0x7F
                              :: centsToMTSFrequencyData (fst change) (snd change))
                           (take numChanges noteChanges))
            ++ [0xF7]%Z).

(** *** Runs of the module

    The calls of the exported functions that change the variables or
    send something, with their arguments. *)
Inductive mtsCall : Type :=
  | SendScaleOctave (midiOutput : option port) (centsArray : list R) (now : Z)
  | ResetToEqual (midiOutput : option port) (now : Z)
  | ApplySingleNote (midiOutput : option port) (note : Z) (cents : R) (now : Z)
  | ApplyJIForKey (midiOutput : option port) (keyRoot : Z) (isMinor : bool) (now : Z)
  | DetectSupport (midiOutput : option port) (sysexEnabled : bool) (now : Z)
  | SwitchToMPE (midiOutput : option port)
  | SwitchToMTS (midiOutput : option port) (sysexEnabled : bool)
                (currentKey : option string) (now : Z)
  | ResetDetection.

(** The variables of the module, the browser's [localStorage], and
    everything done so far. *)
Record mtsWorld : Type := mkWorld {
  vars : state;
  storage : gmap string string;
  effects : list effect
}.

Definition mtsPerform (w : mtsWorld) (c : mtsCall) : mtsWorld :=
  match c with
  | SendScaleOctave midiOutput centsArray now =>
      let '(_, s, tr) := sendScaleOctaveTuning midiOutput centsArray now (vars w) in
      mkWorld s (storage w) (effects w ++ tr)
  | ResetToEqual midiOutput now =>
      let '(s, tr) := resetToEqualTemperament midiOutput now (vars w) in
      mkWorld s (storage w) (effects w ++ tr)
  | ApplySingleNote midiOutput note cents now =>
      let '(_, s, tr) := applySingleNoteTuning midiOutput note cents now (vars w) in
      mkWorld s (storage w) (effects w ++ tr)
  | ApplyJIForKey midiOutput keyRoot isMinor now =>
      let '(_, s, tr) := applyJITuningForKey midiOutput keyRoot isMinor now (vars w) in
      mkWorld s (storage w) (effects w ++ tr)
  | DetectSupport midiOutput sysexEnabled now =>
      let '(s, tr) := detectMTSSupport midiOutput sysexEnabled (storage w) now (vars w) in
      mkWorld s (storage w) (effects w ++ tr)
  | SwitchToMPE midiOutput =>
      let '(s, ls, tr) := switchToMPEMode midiOutput (storage w) (vars w) in
      mkWorld s ls (effects w ++ tr)
  | SwitchToMTS midiOutput sysexEnabled currentKey now =>
      let '(_, s, ls, tr) :=
        switchToMTSMode midiOutput sysexEnabled currentKey (storage w) now (vars w) in
      mkWorld s ls (effects w ++ tr)
  | ResetDetection => mkWorld (resetMTSDetection (vars w)) (storage w) (effects w)
  end.

(** The world after a sequence of calls, from the values the variables
    have when the module is loaded and what [localStorage] held then. *)
Definition mtsAfter (stored : gmap string string) (calls : list mtsCall) : mtsWorld :=
  fold_left mtsPerform calls (mkWorld initialState stored []).

(** A step from [s] to [s'] with the effects [tr] that sends SysEx
    messages and counts them, and leaves the mode as it is. *)
Definition sendsAndCounts (s s' : state) (tr : list effect) : Prop :=
  mtsMessagesSent s' = (mtsMessagesSent s + Z.of_nat (length (sent_messages tr)))%Z
  /\ Forall (fun m => isSysEx m = true) (sent_messages tr)
  /\ mtsSupported s' = mtsSupported s
  /\ mtsFallbackRequested s' = mtsFallbackRequested s
  /\ mtsDetectionAttempted s' = mtsDetectionAttempted s
  /\ currentTuningMode s' = currentTuningMode s.

(** What holds of the variables and of what was sent, whatever was
    called. *)
Record mtsInv (w : mtsWorld) : Prop := mkMtsInv {
  inv_counter :
    mtsMessagesSent (vars w) = Z.of_nat (length (sent_messages (effects w)));
  inv_sysex : Forall (fun m => isSysEx m = true) (sent_messages (effects w));
  inv_supported :
    mtsSupported (vars w) = true <-> currentTuningMode (vars w) = "MTS"%string;
  inv_mode :
    currentTuningMode (vars w) ∈ ["detecting"; "MPE"; "MTS"]%string
}.

End TuningMTS.

(** ** js/tuning-core.js: the table shown to the user *)

Module TuningTable.
Import TuningCore KeyDetection.
Local Open Scope R_scope.

Definition INTERVAL_NAMES : list string :=
  [ "Unison"; "Minor 2nd"; "Major 2nd"; "Minor 3rd";
    "Major 3rd"; "Perfect 4th"; "Tritone"; "Perfect 5th";
    "Minor 6th"; "Major 6th"; "Minor 7th"; "Major 7th" ]%string.

(** The object [getIntervalInfo] returns, without [ratioString] (the
    text form of the ratio). *)
Record intervalInfo : Type := mkInfo {
  name : option string;
  ratio : R;
  cents : R
}.

(** [getIntervalInfo]; an index outside an array reads [undefined]. *)
Definition getIntervalInfo (interval : Z) (isMinor : bool) : intervalInfo :=
  let ratios := JI_RATIOS isMinor in
  let ratio := ratio_or_one ratios interval in
  let deviation := ratioToCentsDeviation ratio interval in
  mkInfo (if (interval <? 0)%Z then None else INTERVAL_NAMES !! Z.to_nat interval)
         ratio
         (IZR (TuningCore.Math_round (deviation * 100)) / 100).

(** A row of the table: [{ interval, noteName, ...info }]. *)
Record tableRow : Type := mkRow {
  interval : Z;
  noteName : option string;
  info : intervalInfo
}.

(** [generateTuningTable] *)
Definition generateTuningTable (keyName : string) : list tableRow :=
  let isMinor := isMinorKey keyName in
  map (fun interval =>
         let info := getIntervalInfo interval isMinor in
         mkRow interval
               match getKeyRoot keyName with
               | RootNumber keyRoot =>
                   let notePc := Z.rem (keyRoot + interval) 12 in
                   if (notePc <? 0)%Z then None else NOTE_NAMES !! Z.to_nat notePc
               | RootInherited =>
                   (* keyRoot + interval is a string, notePc is NaN *)
                   None
               end
               info)
      (map Z.of_nat (seq 0 12)).

End TuningTable.

(** ** js/main.js: the orchestrator *)

Module Main.
Import TuningCore.
Local Open Scope R_scope.

(** An entry of a predictive queue, as the score follower sends it: an
    object whose fields may be missing ([None]), or a bare number (a
    ratio).  [timestamp] is in seconds. *)
Record predictionFields : Type := mkFields {
  timestamp : option R;
  cents : option R;
  ratio : option R;
  note_id : option string
}.

Inductive prediction : Type :=
  | PredNumber (x : R)
  | PredObject (o : predictionFields).

(** The three module-level variables of predictive tuning.
    [predictiveJITable] maps a pitch to its queue. *)
Record predictiveState : Type := mkPredictive {
  predictiveJITable : gmap Z (list prediction);
  predictiveTuningActive : bool;
  predictiveSeenIds : gset string
}.

(** [resetPredictiveState] *)
Definition resetPredictiveState (st : predictiveState) : predictiveState :=
  mkPredictive ∅ false ∅.

(** What the reactive path reads: the score follower's state
    ([None] when there is no client), the key taken from the score,
    and the detector's current key. *)
Record reactiveContext : Type := mkContext {
  systemState : option string;
  lastMusicXMLKey : option string;
  detectorCurrentKey : option string
}.

(** The object [applyTuning] returns, with the [noteId] that
    [handleNoteOn] adds to it (a falsy id is the empty string).  The
    bend has the type [B]: an integer or [NaN] where [applyTuning]
    computes it, an integer where [forwardNoteExternal] is given it
    (forwarding a bend of [NaN] is not modelled). *)
Record tunedNoteOf (B : Type) : Type := mkTuned {
  note : Z;
  velocity : Z;
  pitchBend : B;
  noteId : string
}.
Arguments mkTuned {B} note velocity pitchBend noteId.
Arguments note {B} t.
Arguments velocity {B} t.
Arguments pitchBend {B} t.
Arguments noteId {B} t.

Abbreviation tunedNote := (tunedNoteOf Z).

Definition PREDICTION_STALENESS_THRESHOLD : R := 60000.

(** [Object.values(predictiveJITable).some(q => q?.length > 0)] *)
Definition someQueueWaiting (table : gmap Z (list prediction)) : bool :=
  bool_decide (map_Exists (fun _ q => (0 < length q)%nat) table).

(** A string or [null] used as a condition. *)
Definition truthy (k : option string) : bool :=
  match k with Some s => negb (bool_decide (s = "")) | None => false end.

(** [entry?.note_id], [entry?.timestamp], [entry?.cents], [entry?.ratio] *)
Definition fieldsOf (entry : prediction) : predictionFields :=
  match entry with
  | PredObject o => o
  | PredNumber _ => mkFields None None None None
  end.

(** The three lines shared by the stale branch of [applyTuning] and the
    head of [applyPredictiveTuning]: here [rest] is the queue after the
    [shift], which the table holds for [note]. *)
Definition consumeEntry (entry : prediction) (n : Z) (rest : list prediction)
    (st : predictiveState) : predictiveState :=
  let seen :=
    if truthy (note_id (fieldsOf entry))
    then predictiveSeenIds st ∖ {[ default ""%string (note_id (fieldsOf entry)) ]}
    else predictiveSeenIds st in
  let table := <[n := rest]> (predictiveJITable st) in
  let table := if bool_decide (rest = []) then delete n table else table in
  mkPredictive table (someQueueWaiting table) seen.

(** [centsToPitchBend(1200 * Math.log2(x))].  [Math.log2] is
    [-Infinity] at 0, which the clamp of [centsToPitchBend] turns into
    -8192, and [NaN] below 0, which [Math.round] and the clamp keep. *)
Definition bendOfRatio (x : R) : jsNumber Z :=
  if Rlt_dec 0 x then Num (centsToPitchBend (1200 * log2 x))
  else if Req_dec_T x 0 then Num (-8192)%Z
  else NaN.

(** [applyPredictiveTuning] *)
Definition applyPredictiveTuning (entry : prediction) (n v : Z)
    (rest : list prediction) (st : predictiveState)
  : tunedNoteOf (jsNumber Z) * predictiveState :=
  let st' := consumeEntry entry n rest st in
  let pitchBend :=
    match cents (fieldsOf entry), ratio (fieldsOf entry), entry with
    | Some c, _, _ => Num (centsToPitchBend c)
    | None, Some r, _ => bendOfRatio r
    | None, None, PredNumber x => bendOfRatio x
    | None, None, PredObject _ => Num 0%Z
    end in
  (mkTuned n v pitchBend "", st').

(** [scoreFollowingActive]: the score follower reports that it follows. *)
Definition scoreFollowingActive (ctx : reactiveContext) : bool :=
  let state := default "no_client"%string (systemState ctx) in
  bool_decide (state = "following"%string)
  || bool_decide (state = "score_following_active"%string).

(** [currentKey] of [applyTuning]: the key of the score while the score
    is followed and has one, the detector's key otherwise. *)
Definition currentKeyOf (ctx : reactiveContext) : option string :=
  if scoreFollowingActive ctx && truthy (lastMusicXMLKey ctx)
  then lastMusicXMLKey ctx
  else detectorCurrentKey ctx.

(** The second half of [applyTuning]: tuning from the current key. *)
Definition reactiveTuning (n v : Z) (ctx : reactiveContext) : tunedNoteOf (jsNumber Z) :=
  match currentKeyOf ctx with
  | Some k =>
      if bool_decide (k = ""%string) then mkTuned n v (Num 0%Z) ""
      else mkTuned n v (calculateJIPitchBend n k) ""
  | None => mkTuned n v (Num 0%Z) ""
  end.

(** [applyTuning]; [now] is what [Date.now()] returns (milliseconds). *)
Definition applyTuning (n v channel : Z) (now : Z) (ctx : reactiveContext)
    (st : predictiveState) : tunedNoteOf (jsNumber Z) * predictiveState * list effect :=
  match (if predictiveTuningActive st then predictiveJITable st !! n else None) with
  | Some (entry :: rest) =>
      (* queue.shift() *)
      match timestamp (fieldsOf entry) with
      | Some t =>
          if Req_dec_T t 0 then
            let '(r, st') := applyPredictiveTuning entry n v rest st in (r, st', [])
          else
            let age := IZR now - t * 1000 in
            if Rgt_dec age PREDICTION_STALENESS_THRESHOLD then
              (reactiveTuning n v ctx,
               consumeEntry entry n rest st,
               [ConsoleWarn ("Discarding stale prediction for note " +:+ pretty n)])
            else
              let '(r, st') := applyPredictiveTuning entry n v rest st in (r, st', [])
      | None =>
          let '(r, st') := applyPredictiveTuning entry n v rest st in (r, st', [])
      end
  | _ => (reactiveTuning n v ctx, st, [])
  end.

(** The warning of a dropped note. *)
Definition dropWarning (n : Z) : effect :=
  ConsoleWarn ("Cannot send note " +:+ pretty n +:+ " - all MPE channels exhausted").

(** The state [forwardNoteExternal] works on: the variables of
    tuning-mpe.js and of tuning-mts.js. *)
Record backends : Type := mkBackends {
  mpe : TuningMPE.state;
  mts : TuningMTS.state
}.

(** [forwardNoteExternal].  [forwardNote] calls it only when
    [selectedOutput] is a port.  The calls into latency-metrics.js only
    record timings and are left out. *)
Definition forwardNoteExternal (noteData : tunedNote) (channel : Z) (isNoteOn : bool)
    (selectedOutput : port) (now : Z) (b : backends) : backends * list effect :=
  let pitchBendValue := pitchBend noteData in
  let usingMTS := TuningMTS.isMTSSupported (mts b) in
  (* the block under [if (!usingMTS)]: the output channel, or a drop *)
  let '(outputChannel, dropped, mpe1, tr1) :=
    if usingMTS then (TuningMPE.Chan channel, false, mpe b, [])
    else
      let '(mpe0, tr0) :=
        if negb (TuningMPE.isPitchBendRangeInitialized (mpe b)) && isNoteOn then
          let '(_, m, tr) := TuningMPE.initializePitchBendRange true (mpe b) in (m, tr)
        else (mpe b, []) in
      if isNoteOn then
        let '(allocationResult, m, tr) := TuningMPE.allocateChannel (noteId noteData) mpe0 in
        match allocationResult with
        | TuningMPE.AllocReused (TuningMPE.Chan c) _ =>
            let '(_, trb) := TuningMPE.sendPitchBend true (Some (TuningMPE.Chan c)) 0 in
            (TuningMPE.Chan c, false, m, tr0 ++ tr ++ trb)
        | TuningMPE.AllocReused TuningMPE.Undefined _ =>
            (TuningMPE.Chan channel, false, m, tr0 ++ tr)
        | TuningMPE.AllocChannel (TuningMPE.Chan c) =>
            (TuningMPE.Chan c, false, m, tr0 ++ tr)
        | TuningMPE.AllocChannel TuningMPE.Undefined | TuningMPE.AllocNull =>
            (TuningMPE.Chan channel, true, m,
             tr0 ++ tr ++ [dropWarning (note noteData)])
        end
      else if negb (bool_decide (noteId noteData = ""%string)) then
        match TuningMPE.getChannelForNote (noteId noteData) mpe0 with
        | Some ch => (ch, false, mpe0, tr0)
        | None => (TuningMPE.Chan channel, false, mpe0, tr0)
        end
      else (TuningMPE.Chan channel, false, mpe0, tr0) in
  if dropped then (mkBackends mpe1 (mts b), tr1)
  else
    let '(mtsResult, mts1, tr2) :=
      if isNoteOn && negb (pitchBendValue =? 0)%Z && usingMTS then
        TuningMTS.applySingleNoteTuning (Some selectedOutput) (note noteData)
          (pitchBendToCents pitchBendValue) now (mts b)
      else (TuningMTS.failure, mts b, []) in
    let tr3 :=
      if negb usingMTS then
        snd (TuningMPE.sendPitchBend true (Some outputChannel) pitchBendValue)
      else if isNoteOn && negb (TuningMTS.success mtsResult)
              && negb (pitchBendValue =? 0)%Z then
        snd (TuningMPE.sendPitchBend true (Some outputChannel) pitchBendValue)
      else [] in
    let status :=
      if isNoteOn then Z.lor 0x90 (TuningMPE.chanBits outputChannel)
      else Z.lor 0x80 (TuningMPE.chanBits outputChannel) in
    let tr4 := [MidiSend [status; note noteData; velocity noteData]] in
    let '(mpe2, tr5) :=
      if negb isNoteOn && negb usingMTS then
        (TuningMPE.releaseChannel (noteId noteData) mpe1,
         snd (TuningMPE.sendPitchBend true (Some outputChannel) 0))
      else (mpe1, []) in
    (mkBackends mpe2 mts1, tr1 ++ tr2 ++ tr3 ++ tr4 ++ tr5).

(** The first lines of the MPE block of [forwardNoteExternal] on a
    note-on: the bend range is set up once. *)
Definition rangeSetup (s : TuningMPE.state) : TuningMPE.state * list effect :=
  if negb (TuningMPE.isPitchBendRangeInitialized s)
  then (snd (fst (TuningMPE.initializePitchBendRange true s)),
        snd (TuningMPE.initializePitchBendRange true s))
  else (s, []).



Definition noKey : reactiveContext := mkContext None None None.


Definition followingAMinor : reactiveContext :=
  mkContext (Some "following"%string) (Some "Am"%string) (Some "C"%string).

(** A sixteenth note, played while [TuningMPE.heldNotes] are held. *)
Definition sixteenthNote : tunedNote := mkTuned 86 100 0%Z "16_86".

(** [window.applyJITuning], as far as the three predictive variables
    go.  [ratioTable] lists [Object.entries] of the table the score
    follower sends: a pitch and its entries (a value that is not an
    array is the list of one entry).  An entry without a [note_id], and
    a bare number, is skipped; so is an entry whose id was seen before.
    What the function does with a key signature found in an entry (it
    stores the key and retunes the MTS device) does not touch these
    variables and is left out. *)
Definition queueEntry (pitch : Z) (st : predictiveState) (entry : prediction)
  : predictiveState :=
  match note_id (fieldsOf entry) with
  | None => st
  | Some id =>
      if bool_decide (id ∈ predictiveSeenIds st) then st
      else
        mkPredictive
          (<[pitch := default [] (predictiveJITable st !! pitch) ++ [entry]]>
             (predictiveJITable st))
          (predictiveTuningActive st)
          ({[ id ]} ∪ predictiveSeenIds st)
  end.

Definition applyJITuning (ratioTable : list (Z * list prediction)) (st : predictiveState)
  : predictiveState :=
  if bool_decide (ratioTable = []) then resetPredictiveState st
  else
    let st' :=
      fold_left (fun st pe => fold_left (queueEntry (fst pe)) (snd pe) st) ratioTable st in
    mkPredictive (predictiveJITable st')
                 (someQueueWaiting (predictiveJITable st'))
                 (predictiveSeenIds st').

(** *** Runs of predictive tuning

    What changes the three predictive variables: a table from the score
    follower, a note-on (through [applyTuning]), and a reset. *)
Inductive predictiveCall : Type :=
  | Predict (ratioTable : list (Z * list prediction))
  | PlayNote (n v channel now : Z) (ctx : reactiveContext)
  | ResetPredictions.

Definition predictiveStep (st : predictiveState) (c : predictiveCall) : predictiveState :=
  match c with
  | Predict ratioTable => applyJITuning ratioTable st
  | PlayNote n v channel now ctx => snd (fst (applyTuning n v channel now ctx st))
  | ResetPredictions => resetPredictiveState st
  end.

(** The variables after a sequence of calls, from their initial
    values. *)
Definition predictiveAfter (calls : list predictiveCall) : predictiveState :=
  fold_left predictiveStep calls (mkPredictive ∅ false ∅).

(** The prediction [id] waits at index [i] of the queue of [pitch]. *)
Definition queuedAt (st : predictiveState) (id : string) (pitch : Z) (i : nat) : Prop :=
  exists queue entry,
    predictiveJITable st !! pitch = Some queue
    /\ queue !! i = Some entry
    /\ note_id (fieldsOf entry) = Some id.

(** What holds of the queues between calls (the flag apart). *)
Record queueInv (st : predictiveState) : Prop := mkQueueInv {
  queued_seen : forall id p i, queuedAt st id p i -> id ∈ predictiveSeenIds st;
  queued_once : forall id p i p' i',
      queuedAt st id p i -> queuedAt st id p' i' -> p = p' /\ i = i';
  queued_ids : forall (p : Z) (q : list prediction) (e : prediction),
      predictiveJITable st !! p = Some q -> e ∈ q -> is_Some (note_id (fieldsOf e));
  queued_nonempty : forall p : Z, predictiveJITable st !! p ≠ Some []
}.

End Main.

(** ** script5.js: the single-file prototype with device probing *)

Module Prototype.
Import TuningCore.
Local Open Scope Z_scope.

(** The variables the probing code and the note path share. *)
Record state : Type := mkState {
  lastDeviceId : Z;
  sysExSupported : bool;
  forcePbOnly : bool;
  statusText : string
}.

(** The initial values: [lastDeviceId = 0x7F], [sysExSupported = true],
    [forcePbOnly = false]. *)
Definition initialState : state := mkState 0x7F true false "".

(** [d[i] === v] on a [Uint8Array]: false past the end. *)
Definition byteIs (d : list Z) (i : nat) (v : Z) : bool :=
  match d !! i with Some b => (b =? v) | None => false end.

(** [waitForSysex].  [incoming] is what arrives on the input port before
    the timeout fires, in order; the promise resolves with the first
    message that starts with 0xF0 and passes [matchFn], and with [null]
    ([None]) when the timeout fires first. *)
Definition waitForSysex (midiInput : bool) (matchFn : list Z -> bool)
    (incoming : list (list Z)) : option (list Z) :=
  if negb midiInput then None
  else snd <$> list_find (fun d => byteIs d 0 0xF0 && matchFn d = true) incoming.

Definition identityReplyMatches (d : list Z) : bool :=
  (15 <=? length d)%nat && byteIs d 1 0x7E && byteIs d 3 0x06 && byteIs d 4 0x02.

Definition dumpReplyMatches (d : list Z) : bool :=
  byteIs d 1 0x7E && byteIs d 3 0x08
  && (byteIs d 4 1 || byteIs d 4 4 || byteIs d 4 5 || byteIs d 4 6).

(** [probeIdentity]: the device id of the reply, or [null]. *)
Definition probeIdentity (midiOutput midiInput : bool) (incoming : list (list Z))
  : option Z * list effect :=
  if negb midiOutput || negb midiInput then (None, [])
  else
    let tr := [MidiSend [0xF0; 0x7E; 0x7F; 0x06; 0x01; 0xF7]] in
    match waitForSysex midiInput identityReplyMatches incoming with
    | None => (None, tr)
    | Some rsp => (Some (Z.land (default 0 (rsp !! 2%nat)) 0x7F), tr)
    end.

(** [probeMtsDump] *)
Definition probeMtsDump (midiOutput midiInput : bool) (deviceId program : Z)
    (incoming : list (list Z)) : bool * list effect :=
  if negb midiOutput || negb midiInput then (false, [])
  else
    (bool_decide (is_Some (waitForSysex midiInput dumpReplyMatches incoming)),
     [MidiSend [0xF0; 0x7E; deviceId; 0x08; 0x00; Z.land program 0x7F; 0xF7]]).

(** [afterOutputSelected]: [idWindow] and [dumpWindow] are what arrives
    during the 500 ms wait of the identity probe and the 600 ms wait of
    the dump probe. *)
Definition afterOutputSelected (midiOutput midiInput : bool)
    (idWindow dumpWindow : list (list Z)) (s : state) : state * list effect :=
  let '(id, tr1) := probeIdentity midiOutput midiInput idWindow in
  let deviceId := match id with Some d => d | None => lastDeviceId s end in
  let '(hasDump, tr2) := probeMtsDump midiOutput midiInput deviceId 0 dumpWindow in
  (mkState deviceId (sysExSupported s) (forcePbOnly s)
           (if hasDump then "MTS Confirmed (device responded to MTS query)."
            else "MTS support is unknown. You can run an audible test."),
   tr1 ++ tr2).

(** [onMIDIFailure]: access to MIDI with SysEx was refused. *)
Definition onMIDIFailure (s : state) : state :=
  mkState (lastDeviceId s) false (forcePbOnly s)
          "MIDI access failed. Pitch-bend fallback will be used.".

(** The test of the note-on path: a tuned note goes out as a SysEx
    message when this holds, as a pitch bend otherwise. *)
Definition usesSysEx (s : state) : bool := negb (forcePbOnly s) && sysExSupported s.

(** [midiNoteToFrequency] and [createMtsSysex] *)
Definition midiNoteToFrequency (n : Z) : R :=
  (440 * Rpower 2 ((IZR n - 69) / 12))%R.

Definition createMtsSysex (s : state) (n : Z) (cents : R) : list Z :=
  let devId := Z.land (lastDeviceId s) 0x7F in
  let baseHz := midiNoteToFrequency n in
  let targetHz := (baseHz * Rpower 2 (cents / 1200))%R in
  let nFloat := (69 + 12 * log2 (targetHz / 440))%R in
  let xx := Z.max 0 (Z.min 127 (Zfloor nFloat)) in
  let frac := Math_round ((nFloat - IZR xx) * 16384)%R in
  let '(xx, frac) := if frac =? 16384 then (xx + 1, 0) else (xx, frac) in
  let yy := Z.land (Z.shiftr frac 7) 0x7F in
  let zz := Z.land frac 0x7F in
  [0xF0; 0x7F; devId; 0x08; 0x02; 0x00; 0x01; Z.land n 0x7F; Z.land xx 0x7F; yy; zz; 0xF7].

(** An identity reply of a device whose id is 0x10. *)
Definition identityReply : list Z :=
  [0xF0; 0x7E; 0x10; 0x06; 0x02; 0x41; 0x19; 0x00; 0x01; 0x00; 0x00; 0x00; 0x01; 0x00; 0xF7].

End Prototype.

(** ** 32-bit integers

    The operands of the bit operators [&], [|], [<<] and [>>] are
    converted with [ToInt32]; [>>> 0] and a store into a [Uint32Array]
    convert with [ToUint32]. *)

Definition toInt32 (x : Z) : Z := ((x + 2 ^ 31) mod 2 ^ 32 - 2 ^ 31)%Z.

Definition toUint32 (x : Z) : Z := (x mod 2 ^ 32)%Z.

(** ** js/tuning-midi2.js *)

Module TuningMIDI2.
Import TuningCore.
Local Open Scope R_scope.

Definition PITCH_7_25_FRACTIONAL_MAX : Z := 0x1FFFFFF.
Definition PITCH_BEND_32_CENTER : Z := 0x80000000.
Definition PITCH_7_25_CONTROLLER : Z := 3.

(** [centsToPitch725] *)
Definition centsToPitch725 (semitone : Z) (cents : R) : Z :=
  let totalSemitones := IZR semitone + cents / 100 in
  let semitoneInt := Z.land (toInt32 (Zfloor totalSemitones)) 0x7F in
  let fractional := totalSemitones - IZR (Zfloor totalSemitones) in
  let fractional25bit :=
    Z.land (toInt32 (Math_round (fractional * IZR PITCH_7_25_FRACTIONAL_MAX)))
           PITCH_7_25_FRACTIONAL_MAX in
  Z.lor (toInt32 (Z.shiftl semitoneInt 25)) fractional25bit.

(** [jiRatioToPitch725] *)
Definition jiRatioToPitch725 (ratio : R) (baseNote interval : Z) : Z :=
  let jiCents := 1200 * log2 ratio in
  let etCents := IZR interval * 100 in
  let centsDeviation := jiCents - etCents in
  let targetNote := (baseNote + interval)%Z in
  centsToPitch725 targetNote centsDeviation.

(** [centsToPitchBend32] *)
Definition centsToPitchBend32 (cents sensitivitySemitones : R) : Z :=
  let sensitivityCents := sensitivitySemitones * 100 in
  let clampedCents := Rmax (- sensitivityCents) (Rmin sensitivityCents cents) in
  let normalized := clampedCents / sensitivityCents in
  toUint32 (Math_round (normalized * IZR 0x7FFFFFFF + IZR PITCH_BEND_32_CENTER)).

(** The first word of a MIDI 2.0 channel-voice packet with the given
    status nibble and last byte. *)
Definition umpWord1 (status channel noteNumber group index : Z) : Z :=
  toUint32
    (Z.lor (Z.lor (Z.lor (Z.lor (toInt32 (Z.shiftl 0x4 28))
                                (toInt32 (Z.shiftl (Z.land group 0xF) 24)))
                         (toInt32 (Z.shiftl (Z.lor status (Z.land channel 0xF)) 16)))
                  (toInt32 (Z.shiftl (Z.land noteNumber 0x7F) 8)))
           index).

(** [encodePerNotePitch725UMP] and [encodePerNotePitchBendUMP]: the two
    words of the [Uint32Array]. *)
Definition encodePerNotePitch725UMP (channel noteNumber pitch725Value group : Z) : list Z :=
  [umpWord1 0x00 channel noteNumber group (Z.land PITCH_7_25_CONTROLLER 0xFF);
   toUint32 pitch725Value].

Definition encodePerNotePitchBendUMP (channel noteNumber pitchBend32 group : Z) : list Z :=
  [umpWord1 0x60 channel noteNumber group 0x00; toUint32 pitchBend32].

End TuningMIDI2.

(** ** js/midi-file-tuner.js *)

Module MidiFileTuner.
Import TuningCore.

(** A key segment of [analyzeKeyChanges]; [key] is [None] for [null],
    times are in seconds. *)
Record segment : Type := mkSegment {
  startTime : Q;
  endTime : Q;
  startTick : Z;
  endTick : Z;
  key : option string;
  confidence : Z;
  score : Q;
  agreement : Z;
  noteCount : Z
}.

(** What the body of the loop of [mergeConsecutiveKeys] makes of
    [previous] when [current] has the same key.  The confidences are
    integers, so [Math.round((p + c) / 2)] is [(p + c + 1) / 2] rounded
    down. *)
Definition absorb (previous current : segment) : segment :=
  mkSegment (startTime previous) (endTime current)
            (startTick previous) (endTick current)
            (key previous)
            ((confidence previous + confidence current + 1) / 2)%Z
            (score previous) (agreement previous)
            (noteCount previous + noteCount current)%Z.

(** One pass of the loop: [previous] is the last element of [merged]
    and is updated in place. *)
Definition mergeStep (merged : list segment) (current : segment) : list segment :=
  match last merged with
  | Some previous =>
      if bool_decide (key current = key previous)
      then take (length merged - 1) merged ++ [absorb previous current]
      else merged ++ [current]
  | None => merged ++ [current]
  end.

(** [mergeConsecutiveKeys] *)
Definition mergeConsecutiveKeys (segments : list segment) : list segment :=
  match segments with
  | [] => []
  | first :: rest => fold_left mergeStep rest [first]
  end.

(** The first loop of [fillMissingKeys]: the first key that is not
    [null] (nor empty), or ['C']. *)
Definition firstKeyOf (segments : list segment) : string :=
  match list_find (fun seg => Main.truthy (key seg) = true) segments with
  | Some (_, seg) => default "C"%string (key seg)
  | None => "C"%string
  end.

(** The second loop, with [lastKey] as it stands. *)
Fixpoint fillFrom (lastKey : string) (segments : list segment) : list segment :=
  match segments with
  | [] => []
  | seg :: rest =>
      if Main.truthy (key seg)
      then seg :: fillFrom (default lastKey (key seg)) rest
      else mkSegment (startTime seg) (endTime seg) (startTick seg) (endTick seg)
                     (Some lastKey) 0 (score seg) (agreement seg) (noteCount seg)
           :: fillFrom lastKey rest
  end.

(** [fillMissingKeys]: the segments after the call. *)
Definition fillMissingKeys (segments : list segment) : list segment :=
  fillFrom (firstKeyOf segments) segments.

(** The body of the loop of [calculateJITuning]: the [centsDeviation]
    of a note of the given pitch in a segment of the given key. *)
Definition noteDeviation (pitch : Z) (key : string) : jsNumber R :=
  let ratios := JI_RATIOS (isMinorKey key) in
  match getKeyRoot key with
  | RootNumber keyRoot =>
      let interval := Z.rem (Z.rem pitch 12 - Z.rem keyRoot 12 + 12) 12 in
      let ratio := ratio_or_one ratios interval in
      Num (ratioToCentsDeviation ratio interval)
  | RootInherited =>
      (* keyRoot % 12 is NaN: the interval is NaN, the ratio 1.0 *)
      NaN
  end.

(** [calculateMTSScaleTuning] *)
Definition calculateMTSScaleTuning (key : string) : list (jsNumber R) :=
  let ratios := JI_RATIOS (isMinorKey key) in
  map (fun pc =>
         match getKeyRoot key with
         | RootNumber keyRoot =>
             let interval := Z.rem (pc - Z.rem keyRoot 12 + 12) 12 in
             let ratio := ratio_or_one ratios interval in
             Num (ratioToCentsDeviation ratio interval)
         | RootInherited => NaN
         end)
      (map Z.of_nat (seq 0 12)).

(** No two neighbours of a list of segments have the same key. *)
Definition keysAlternate (segments : list segment) : Prop :=
  forall (i : nat) (a b : segment),
    segments !! i = Some a -> segments !! S i = Some b -> key a ≠ key b.

(** The notes of a list of segments. *)
Definition totalNotes (segments : list segment) : Z :=
  foldr Z.add 0%Z (noteCount <$> segments).

End MidiFileTuner.

(** ** js/midi-writer.js *)

Module MidiWriter.
Local Open Scope Z_scope.

(** [view.setUint16(_, v, false)] and [view.setUint32(_, v, false)]:
    the bytes written, most significant first. *)
Definition uint16Bytes (v : Z) : list Z :=
  [Z.land (Z.shiftr v 8) 0xFF; Z.land v 0xFF].

Definition uint32Bytes (v : Z) : list Z :=
  [Z.land (Z.shiftr v 24) 0xFF; Z.land (Z.shiftr v 16) 0xFF;
   Z.land (Z.shiftr v 8) 0xFF; Z.land v 0xFF].

(** [createHeaderChunk] *)
Definition createHeaderChunk (format numTracks ticksPerQuarter : Z) : list Z :=
  [0x4D; 0x54; 0x68; 0x64]
    ++ uint32Bytes 6
    ++ uint16Bytes format ++ uint16Bytes numTracks ++ uint16Bytes ticksPerQuarter.

(** [createTrackChunk]; a [Uint8Array] keeps the low eight bits of what
    is stored in it. *)
Definition createTrackChunk (eventBytes : list Z) : list Z :=
  [0x4D; 0x54; 0x72; 0x6B]
    ++ uint32Bytes (Z.of_nat (length eventBytes))
    ++ map (fun b => Z.land b 0xFF) eventBytes.

(** The [while] loop of [encodeVariableLength]. *)
Equations? encodeLoop (value : Z) (bytes : list Z) : list Z by wf (Z.to_nat value) lt :=
  encodeLoop value bytes with decide (0x7F < value) := {
    | left _ =>
        let value' := Z.shiftr (toInt32 value) 7 in
        encodeLoop value' (bytes ++ [Z.lor (Z.land (toInt32 value') 0x7F) 0x80]);
    | right _ => bytes }.
Proof.
  subst value'.
  assert (toInt32 value <= value).
  { unfold toInt32. pose proof (Z.mod_le (value + 2 ^ 31) (2 ^ 32)). lia. }
  rewrite Z.shiftr_div_pow2 by lia.
  assert (toInt32 value / 2 ^ 7 < value); [| lia].
  apply Z.div_lt_upper_bound; lia.
Qed.

(** [encodeVariableLength] *)
Definition encodeVariableLength (value : Z) : list Z :=
  let value := if value <? 0 then 0 else value in
  reverse (encodeLoop value [Z.land (toInt32 value) 0x7F]).

(** [createMTSScaleOctaveSysExData]: the body of the SysEx event of a
    file, after the 0xF0 and the length. *)
Definition createMTSScaleOctaveSysExData (centsArray : list R) : list Z :=
  [0x7F; 0x7F; 0x08; 0x09; 0x7F; 0x7F; 0x03]
    ++ concat (map (fun i : nat =>
                      let cents := default 0%R (centsArray !! i) in
                      let clampedCents := Rmax (-100) (Rmin 100 cents) in
                      let value14bit :=
                        TuningCore.Math_round (((clampedCents + 100) / 200) * 16383)%R in
                      let valueClamped := Z.max 0 (Z.min 16383 value14bit) in
                      let msb := Z.land (Z.shiftr valueClamped 7) 0x7F in
                      let lsb := Z.land valueClamped 0x7F in
                      [msb; lsb])
                   (seq 0 12))
    ++ [0xF7].

End MidiWriter.

(** ** js/midi-parser.js *)

Module MidiParser.
Local Open Scope Z_scope.

(** The reader: [data] is the file, one byte per element, and
    [position] the index of the next byte.  A read past the end throws
    a [RangeError]; a function that throws returns [None]. *)
Definition readUint8 (data : list Z) (position : nat) : option (Z * nat) :=
  match data !! position with
  | Some b => Some (b, S position)
  | None => None
  end.

Definition readUint16 (data : list Z) (position : nat) : option (Z * nat) :=
  match data !! position, data !! (position + 1)%nat with
  | Some b0, Some b1 => Some (b0 * 256 + b1, (position + 2)%nat)
  | _, _ => None
  end.

Definition readUint32 (data : list Z) (position : nat) : option (Z * nat) :=
  match data !! position, data !! (position + 1)%nat,
        data !! (position + 2)%nat, data !! (position + 3)%nat with
  | Some b0, Some b1, Some b2, Some b3 =>
      Some (b0 * 16777216 + b1 * 65536 + b2 * 256 + b3, (position + 4)%nat)
  | _, _, _, _ => None
  end.

(** The [do ... while] loop of [readVariableLength] over the bytes that
    are left. *)
Fixpoint readVariableLengthFrom (bytes : list Z) (value : Z) (position : nat)
  : option (Z * nat) :=
  match bytes with
  | [] => None
  | byte :: rest =>
      let value := Z.lor (toInt32 (Z.shiftl value 7)) (Z.land byte 0x7F) in
      if Z.land byte 0x80 =? 0 then Some (value, S position)
      else readVariableLengthFrom rest value (S position)
  end.

(** [readVariableLength] *)
Definition readVariableLength (data : list Z) (position : nat) : option (Z * nat) :=
  readVariableLengthFrom (drop position data) 0 position.

(** What [parseHeaderChunk] returns. *)
Record header : Type := mkHeader { format : Z; trackCount : Z; division : Z }.

(** [parseHeaderChunk]: the header, the position after it, and the
    warning of SMPTE timing if there is one. *)
Definition parseHeaderChunk (data : list Z) (position : nat)
  : option (header * nat * list effect) :=
  match readUint32 data position with
  | None => None
  | Some (chunkType, position) =>
      if negb (chunkType =? 0x4D546864) then None
      else
        match readUint32 data position with
        | None => None
        | Some (chunkLength, position) =>
            match readUint16 data position with
            | None => None
            | Some (format, position) =>
                match readUint16 data position with
                | None => None
                | Some (trackCount, position) =>
                    match readUint16 data position with
                    | None => None
                    | Some (division, position) =>
                        Some (mkHeader format trackCount (Z.land division 0x7FFF),
                              position,
                              if negb (Z.land division 0x8000 =? 0)
                              then [ConsoleWarn "SMPTE timing detected"]
                              else [])
                    end
                end
            end
        end
  end.

End MidiParser.

(** * Properties *)

(** ** The tuning table (js/tuning-core.js) *)

Module TuningCoreProofs.
Import TuningCore.
Local Open Scope R_scope.

Lemma ln_2_pos : 0 < ln 2.
Proof. rewrite <- ln_1. apply ln_increasing; lra. Qed.

Lemma log2_1 : log2 1 = 0.
Proof. unfold log2. rewrite ln_1. lra. Qed.

Lemma ln_quotient (x y : R) : 0 < x -> 0 < y -> ln (x / y) = ln x - ln y.
Proof.
  intros Hx Hy. unfold Rdiv.
  rewrite ln_mult, ln_Rinv; [lra | lra | lra | now apply Rinv_0_lt_compat].
Qed.

Lemma log2_ratio_gt (a b : Z) (p q : nat) :
  (0 < a)%Z -> (0 < b)%Z -> (0 < q)%nat ->
  (2 ^ Z.of_nat p * b ^ Z.of_nat q < a ^ Z.of_nat q)%Z ->
  INR p / INR q < log2 (IZR a / IZR b).
Proof.
  intros Ha Hb Hq H.
  apply IZR_lt in Ha, Hb.
  apply IZR_lt in H. rewrite mult_IZR, <- !pow_IZR in H.
  assert (Hq' : 0 < INR q) by (apply lt_0_INR; lia).
  pose proof ln_2_pos as H2.
  apply ln_increasing in H.
  2:{ apply Rmult_lt_0_compat; apply pow_lt; lra. }
  rewrite ln_mult, !ln_pow in H by (try apply pow_lt; lra).
  unfold log2. rewrite ln_quotient by lra.
  apply Rmult_lt_reg_r with (INR q * ln 2); [nra|].
  replace (INR p / INR q * (INR q * ln 2)) with (INR p * ln 2) by (field; lra).
  replace ((ln (IZR a) - ln (IZR b)) / ln 2 * (INR q * ln 2))
    with (INR q * ln (IZR a) - INR q * ln (IZR b)) by (field; lra).
  lra.
Qed.

Lemma log2_ratio_lt (a b : Z) (p q : nat) :
  (0 < a)%Z -> (0 < b)%Z -> (0 < q)%nat ->
  (a ^ Z.of_nat q < 2 ^ Z.of_nat p * b ^ Z.of_nat q)%Z ->
  log2 (IZR a / IZR b) < INR p / INR q.
Proof.
  intros Ha Hb Hq H.
  apply IZR_lt in Ha, Hb.
  apply IZR_lt in H. rewrite mult_IZR, <- !pow_IZR in H.
  assert (Hq' : 0 < INR q) by (apply lt_0_INR; lia).
  pose proof ln_2_pos as H2.
  apply ln_increasing in H.
  2:{ apply pow_lt; lra. }
  rewrite ln_mult, !ln_pow in H by (try apply pow_lt; lra).
  unfold log2. rewrite ln_quotient by lra.
  apply Rmult_lt_reg_r with (INR q * ln 2); [nra|].
  replace (INR p / INR q * (INR q * ln 2)) with (INR p * ln 2) by (field; lra).
  replace ((ln (IZR a) - ln (IZR b)) / ln 2 * (INR q * ln 2))
    with (INR q * ln (IZR a) - INR q * ln (IZR b)) by (field; lra).
  lra.
Qed.

Lemma log2_16_15_bounds : 277 / 2975 < log2 (16 / 15) < 50 / 537.
Proof.
  split.
  - replace (277 / 2975) with (INR 277 / INR 2975)
      by (rewrite !INR_IZR_INZ; reflexivity).
    apply log2_ratio_gt; [lia | lia | lia |].
    apply Z.ltb_lt. vm_compute. reflexivity.
  - replace (50 / 537) with (INR 50 / INR 537)
      by (rewrite !INR_IZR_INZ; reflexivity).
    apply log2_ratio_lt; [lia | lia | lia |].
    apply Z.ltb_lt. vm_compute. reflexivity.
Qed.

Lemma Math_round_eq (x : R) (z : Z) : IZR z - 1 / 2 <= x < IZR z + 1 / 2 -> Math_round x = z.
Proof. intros H. unfold Math_round. apply Zfloor_eq. lra. Qed.


Lemma tonic_interval (k : Z) :
  Z.rem ((k mod 12) - Z.rem k 12 + 12) 12 = 0%Z.
Proof.
  assert ((k mod 12) - Z.rem k 12 + 12 = 12 \/ (k mod 12) - Z.rem k 12 + 12 = 24)%Z
    as [-> | ->]; [| reflexivity | reflexivity].
  pose proof (Z.quot_rem' k 12) as Hq.
  pose proof (Z.rem_bound_abs k 12) as Hr.
  generalize dependent (Z.rem k 12). generalize (k ÷ 12)%Z. intros q r Hq Hr.
  pose proof (Z.mod_pos_bound k 12) as Hm. pose proof (Z.div_mod k 12) as Hd.
  generalize dependent (k mod 12)%Z. generalize dependent (k / 12)%Z.
  intros; lia.
Qed.

Lemma ratio_unison isMinor : ratio_or_one (JI_RATIOS isMinor) 0 = 1.
Proof. destruct isMinor; unfold ratio_or_one; simpl; lra. Qed.

Lemma ratio_minor_second isMinor : ratio_or_one (JI_RATIOS isMinor) 1 = 16 / 15.
Proof. destruct isMinor; reflexivity. Qed.

Lemma scaleOctaveEntry_tonic keyRoot isMinor :
  scaleOctaveEntry keyRoot isMinor (keyRoot mod 12) = 0.
Proof.
  unfold scaleOctaveEntry.
  rewrite tonic_interval, ratio_unison, log2_1.
  rewrite (Math_round_eq _ 0); lra.
Qed.

Lemma table_lookup keyRoot isMinor (pc : Z) :
  (0 <= pc < 12)%Z ->
  deviation pc keyRoot isMinor = Some (scaleOctaveEntry keyRoot isMinor pc).
Proof.
  intros H. unfold deviation, calculateScaleOctaveTuning.
  destruct (Z.ltb_spec pc 0); [lia|].
  rewrite !list_lookup_fmap, lookup_seq_lt by lia.
  simpl. f_equal. f_equal. lia.
Qed.

Lemma table_outside keyRoot isMinor (pc : Z) :
  ~ (0 <= pc < 12)%Z -> deviation pc keyRoot isMinor = None.
Proof.
  intros H. unfold deviation, calculateScaleOctaveTuning.
  destruct (Z.ltb_spec pc 0); [done|].
  apply lookup_ge_None. rewrite !length_map, length_seq. lia.
Qed.

Lemma interval_of_class (pc k : Z) :
  (0 <= pc < 12)%Z -> Z.rem (pc - Z.rem k 12 + 12) 12 = ((pc - k) mod 12)%Z.
Proof.
  intros Hpc.
  pose proof (Z.quot_rem' k 12) as Hq.
  pose proof (Z.rem_bound_abs k 12) as Hr.
  rewrite Z.rem_mod_nonneg by lia.
  generalize dependent (Z.rem k 12). generalize (k ÷ 12)%Z. intros q r Hq Hr.
  subst k. replace (pc - (12 * q + r))%Z with (pc - r + 12 + (- q - 1) * 12)%Z by lia.
  now rewrite Z.mod_add by lia.
Qed.

Lemma assoc_lookup_elem {A} (k : string) (l : list (string * A)) (v : A) :
  assoc_lookup k l = Some v -> (k, v) ∈ l.
Proof.
  induction l as [| [k' v'] l IH]; simpl; [done |].
  destruct (String.eqb_spec k k') as [-> | _].
  - intros [= ->]. apply elem_of_cons. by left.
  - intros H. apply elem_of_cons. right. by apply IH.
Qed.

Lemma getKeyRoot_range (keyName : string) (keyRoot : Z) :
  getKeyRoot keyName = RootNumber keyRoot -> (60 <= keyRoot <= 71)%Z.
Proof.
  unfold getKeyRoot.
  destruct (assoc_lookup keyName KEY_ROOTS) as [v |] eqn:E.
  - intros [= <-]. apply assoc_lookup_elem in E.
    assert (Hall : Forall (fun kv : string * Z => (60 <= kv.2 <= 71)%Z) KEY_ROOTS).
    { unfold KEY_ROOTS. repeat (constructor; [simpl; lia |]). constructor. }
    rewrite Forall_forall in Hall. apply (Hall _ E).
  - case_bool_decide; [done |]. intros [= <-]. lia.
Qed.

Lemma getKeyRoot_number (keyName : string) :
  keyName ∉ OBJECT_PROTOTYPE_KEYS ->
  exists keyRoot, getKeyRoot keyName = RootNumber keyRoot /\ (60 <= keyRoot <= 71)%Z.
Proof.
  intros Hown.
  assert (H : exists keyRoot, getKeyRoot keyName = RootNumber keyRoot).
  { unfold getKeyRoot. destruct (assoc_lookup keyName KEY_ROOTS) as [v |]; [by eexists |].
    rewrite bool_decide_eq_false_2 by done. by eexists. }
  destruct H as [keyRoot H]. exists keyRoot. split; [done |].
  by apply (getKeyRoot_range keyName).
Qed.

Lemma getKeyRoot_inherited (keyName : string) :
  keyName ∈ OBJECT_PROTOTYPE_KEYS -> getKeyRoot keyName = RootInherited.
Proof.
  intros H. unfold OBJECT_PROTOTYPE_KEYS in H.
  repeat (apply elem_of_cons in H as [-> | H]; [reflexivity |]).
  by apply elem_of_nil in H.
Qed.

(** C1.  The tuning table is a function of the key alone: its entry at
    the tonic pitch class is 0 cents for every root and both modes, the
    per-note deviation of a note on the tonic is 0 cents (every key
    name has a number as its root, the property names inherited from
    [Object.prototype] apart), and two roots of the same pitch class
    give the same table. *)
Theorem tonic_deviation_is_zero :
  (forall (p keyRoot : Z) (isMinor : bool),
      p = (keyRoot mod 12)%Z -> deviation p keyRoot isMinor = Some 0)
  /\ (forall (midiNote : Z) (keyName : string),
        keyName ∉ OBJECT_PROTOTYPE_KEYS ->
        exists keyRoot : Z,
          getKeyRoot keyName = RootNumber keyRoot
          /\ ((midiNote mod 12 = keyRoot mod 12)%Z ->
              calculateJICentsForNote midiNote keyName = Num 0))
  /\ (forall (p keyRoot keyRoot' : Z) (isMinor : bool),
        (keyRoot mod 12 = keyRoot' mod 12)%Z ->
        deviation p keyRoot isMinor = deviation p keyRoot' isMinor).
Proof.
  split; [| split].
  - intros p keyRoot isMinor ->.
    rewrite table_lookup by (apply Z.mod_pos_bound; lia).
    now rewrite scaleOctaveEntry_tonic.
  - intros midiNote keyName Hown.
    destruct (getKeyRoot_number keyName Hown) as (keyRoot & Hroot & _).
    exists keyRoot. split; [exact Hroot |]. intros H.
    unfold calculateJICentsForNote, ratioToCentsDeviation. rewrite Hroot.
    assert (Z.rem (midiNote - keyRoot + 144) 12 = 0%Z) as ->.
    { apply Z.rem_mod_eq_0; [lia|].
      replace 144%Z with (12 * 12)%Z by reflexivity.
      rewrite Z.mod_add by lia. rewrite Zminus_mod, H, Z.sub_diag. reflexivity. }
    rewrite ratio_unison, log2_1. f_equal. lra.
  - intros p keyRoot keyRoot' isMinor H.
    destruct (decide (0 <= p < 12)%Z) as [Hp | Hp].
    + rewrite !table_lookup by done. unfold scaleOctaveEntry.
      rewrite !interval_of_class by done.
      now rewrite (Zminus_mod p keyRoot), H, <- Zminus_mod.
    + now rewrite !table_outside.
Qed.

Lemma tonic_deviation_is_zero_witness :
  deviation 4 64 true = Some 0
  /\ calculateJICentsForNote 81 "Am" = Num 0
  /\ deviation 7 64 true = deviation 7 4 true.
Proof.
  split; [| split].
  - apply (proj1 tonic_deviation_is_zero 4%Z 64%Z true). reflexivity.
  - destruct (proj1 (proj2 tonic_deviation_is_zero) 81%Z "Am"%string ltac:(compute_done))
      as (keyRoot & Hroot & H).
    apply H. vm_compute in Hroot. injection Hroot as <-. reflexivity.
  - apply (proj2 (proj2 tonic_deviation_is_zero) 7%Z 64%Z 4%Z true). reflexivity.
Defined.

Lemma minor_second_cents :
  11.731 < 1200 * log2 (16 / 15) - 100 < 11.732.
Proof. pose proof log2_16_15_bounds. lra. Qed.

(** C8.  In C major (root 60) the table entry for pitch class 1 (C#) is
    +11.73 cents; the unrounded deviation of note 61 that the note path
    computes lies within half a hundredth of it, and becomes the
    pitch-bend value 481. *)
Lemma c_sharp_cents :
  calculateJICentsForNote 61 "C" = Num (1200 * log2 (16 / 15) - 100).
Proof.
  unfold calculateJICentsForNote.
  change (getKeyRoot "C") with (RootNumber 60).
  change (isMinorKey "C") with false.
  cbv beta iota zeta.
  change (Z.rem (61 - 60 + 144) 12) with 1%Z.
  unfold ratioToCentsDeviation.
  rewrite ratio_minor_second. f_equal. lra.
Qed.

Lemma c_sharp_bend : calculateJIPitchBend 61 "C" = Num 481%Z.
Proof.
  pose proof minor_second_cents as Hc.
  unfold calculateJIPitchBend. rewrite c_sharp_cents. f_equal.
  unfold centsToPitchBend.
  rewrite (Math_round_eq _ 481) by lra. reflexivity.
Qed.

Theorem c_sharp_in_c_major :
  deviation 1 60 false = Some 11.73
  /\ (exists cents, calculateJICentsForNote 61 "C" = Num cents
                    /\ 11.725 <= cents < 11.735)
  /\ calculateJIPitchBend 61 "C" = Num 481%Z.
Proof.
  pose proof minor_second_cents as Hc.
  split; [| split].
  - rewrite table_lookup by lia. f_equal. unfold scaleOctaveEntry.
    change (Z.rem (1 - Z.rem 60 12 + 12) 12) with 1%Z.
    rewrite ratio_minor_second.
    rewrite (Math_round_eq _ 1173); lra.
  - eexists. split; [apply c_sharp_cents | lra].
  - apply c_sharp_bend.
Qed.

End TuningCoreProofs.

(** ** The channel allocator (js/tuning-mpe.js) *)

Module TuningMPEProofs.
Import TuningMPE.
Local Open Scope Z_scope.

Lemma spliceOut_cons x y l :
  spliceOut x (y :: l) = if decide (y = x) then l else y :: spliceOut x l.
Proof.
  unfold spliceOut. simpl. destruct (decide (y = x)) as [->|Hne]; [done|].
  destruct (list_find _ l) as [[i z]|]; done.
Qed.

Lemma spliceOut_absent x l : x ∉ l -> spliceOut x l = l.
Proof.
  induction l as [|y l IH]; [done|]. intros Hx.
  rewrite spliceOut_cons. apply not_elem_of_cons in Hx as [Hne Hx].
  destruct (decide (y = x)); [congruence|]. now rewrite IH.
Qed.

Lemma elem_of_spliceOut x y l :
  NoDup l -> y ∈ spliceOut x l <-> y ∈ l /\ y ≠ x.
Proof.
  induction 1 as [|z l Hz Hnd IH].
  - split; [intros H%elem_of_nil; done | intros [H%elem_of_nil _]; done].
  - rewrite spliceOut_cons. destruct (decide (z = x)) as [->|Hne].
    + rewrite elem_of_cons. split.
      * intros Hy. split; [by right | intros ->; done].
      * intros [[-> | Hy] Hne]; done.
    + rewrite !elem_of_cons, IH. split.
      * intros [-> | [Hy Hn]]; split; auto.
      * intros [[-> | Hy] Hn]; auto.
Qed.

Lemma NoDup_spliceOut x l : NoDup l -> NoDup (spliceOut x l).
Proof.
  induction 1 as [|z l Hz Hnd IH]; [constructor|].
  rewrite spliceOut_cons. destruct (decide (z = x)); [done|].
  constructor; [|done]. rewrite elem_of_spliceOut by done. tauto.
Qed.

Lemma length_spliceOut x l :
  x ∈ l -> S (length (spliceOut x l)) = length l.
Proof.
  induction l as [|z l IH]; [intros H%elem_of_nil; done|]. intros Hx.
  rewrite spliceOut_cons. destruct (decide (z = x)); [done|].
  apply elem_of_cons in Hx as [-> | Hx]; [done|].
  simpl. now rewrite IH.
Qed.

Lemma initial_pool_nodup : NoDup (map Chan MPE_MEMBER_CHANNELS).
Proof.
  apply NoDup_fmap_2; [intros x y [=]; done|].
  apply NoDup_fmap_2; [intros x y; lia | apply NoDup_seq].
Qed.

Lemma initial_pool_member c : c ∈ map Chan MPE_MEMBER_CHANNELS -> member c.
Proof.
  intros Hc. unfold MPE_MEMBER_CHANNELS in Hc. simpl in Hc.
  repeat (apply elem_of_cons in Hc as [-> | Hc]; [eexists; split; [reflexivity | lia] |]).
  apply elem_of_nil in Hc; done.
Qed.

Lemma Inv_initial : Inv initialState.
Proof.
  split; [apply initial_pool_nodup | apply initial_pool_member | ..]; simpl.
  - intros id c. rewrite lookup_empty. done.
  - intros id c. rewrite lookup_empty. done.
  - intros id1 id2 c. rewrite lookup_empty. done.
  - constructor.
  - intros id. rewrite lookup_empty. split; [intros H%elem_of_nil; done | intros []; done].
  - rewrite map_size_empty. reflexivity.
  - rewrite map_size_empty. reflexivity.
Qed.

Lemma size_delete_present (m : gmap string chan) i c :
  m !! i = Some c -> S (size (delete i m)) = size m.
Proof.
  intros H. rewrite map_size_delete, H. simpl.
  destruct (size m) eqn:Hs; [|done].
  apply map_size_empty_inv in Hs. subst m. by rewrite lookup_empty in H.
Qed.

Lemma pool_head_fresh s c pool' id :
  Inv s -> channelPool s = c :: pool' -> activeNotes s !! id ≠ Some c.
Proof.
  intros HI Hp Hid. apply (inv_disjoint s HI) in Hid. rewrite Hp in Hid.
  apply Hid. by left.
Qed.

Lemma allocate_preserves noteId s : Inv s -> Inv (allocateChannel noteId s).1.2.
Proof.
  intros HI. unfold allocateChannel.
  case_bool_decide as Hid; [done|].
  destruct (activeNotes s !! noteId) as [c|] eqn:Hact.
  { (* the note already holds a channel: only the usage order changes *)
    destruct HI. split; simpl; try done.
    - apply NoDup_app. split; [by apply NoDup_spliceOut|]. split; [|apply NoDup_singleton].
      intros x Hx ->%list_elem_of_singleton. apply elem_of_spliceOut in Hx; [tauto | done].
    - intros id. rewrite elem_of_app, list_elem_of_singleton, elem_of_spliceOut, inv_order_dom0 by done.
      destruct (decide (id = noteId)) as [->|]; [rewrite Hact; split; eauto | tauto].
    - rewrite length_app. simpl. rewrite <- inv_order_length0.
      rewrite <- (length_spliceOut noteId (channelUsageOrder s)); [lia|].
      apply inv_order_dom0. by rewrite Hact. }
  destruct (channelPool s) as [|c pool'] eqn:Hpool.
  - destruct (channelUsageOrder s) as [|reused order'] eqn:Hord; [done|].
    (* steal *)
    assert (Hin : reused ∈ channelUsageOrder s) by (rewrite Hord; by left).
    pose proof (proj1 (inv_order_dom s HI reused) Hin) as [c Hc].
    assert (Hne : reused ≠ noteId) by (intros ->; congruence).
    pose proof (inv_order_nodup s HI) as Hnd. rewrite Hord in Hnd.
    apply NoDup_cons in Hnd as [Hnot Hnd].
    unfold mapGet. rewrite Hc. simpl.
    split; simpl.
    + constructor.
    + intros c' Hc'%elem_of_nil. done.
    + intros id c'. rewrite lookup_insert. case_decide as Hd.
      * intros [= <-]. eapply inv_active_member; eauto.
      * rewrite lookup_delete. case_decide; [done|]. eapply inv_active_member; eauto.
    + intros id c' _ Hc'%elem_of_nil. done.
    + intros id1 id2 c'. rewrite !lookup_insert, !lookup_delete.
      repeat case_decide; subst; try done.
      * intros [= <-] H2. exfalso. apply H1. eapply inv_distinct; eauto.
      * intros H1' [= <-]. exfalso. apply H0. eapply inv_distinct; eauto.
      * eapply inv_distinct; eauto.
    + apply NoDup_app. split; [done|]. split; [|apply NoDup_singleton].
      intros x Hx ->%list_elem_of_singleton.
      assert (noteId ∈ channelUsageOrder s) as Hcon by (rewrite Hord; by right).
      apply (inv_order_dom s HI) in Hcon as [? ?]. congruence.
    + intros id. rewrite elem_of_app, list_elem_of_singleton, lookup_insert.
      case_decide as Hd; [subst; split; eauto|].
      rewrite lookup_delete. case_decide as Hd'.
      * subst. split; [intros [?|?]; done | intros []; done].
      * rewrite <- (inv_order_dom s HI), Hord, elem_of_cons. split; [intros [|]; [auto|done] | intros [|]; [congruence | auto]].
    + rewrite map_size_insert_None by (rewrite lookup_delete_ne; done).
      pose proof (inv_count s HI) as Hcount. rewrite Hpool in Hcount. simpl in Hcount.
      pose proof (size_delete_present (activeNotes s) reused c Hc). lia.
    + rewrite length_app. simpl.
      rewrite map_size_insert_None by (rewrite lookup_delete_ne; done).
      pose proof (inv_order_length s HI) as Hlen. rewrite Hord in Hlen. simpl in Hlen.
      pose proof (size_delete_present (activeNotes s) reused c Hc). lia.
  - (* a free channel *)
    pose proof (inv_pool_nodup s HI) as Hnd. rewrite Hpool in Hnd.
    apply NoDup_cons in Hnd as [Hnot Hnd].
    split; simpl.
    + done.
    + intros c' Hc'. apply (inv_pool_member s HI). rewrite Hpool. by right.
    + intros id c'. rewrite lookup_insert. case_decide.
      * intros [= <-]. apply (inv_pool_member s HI). rewrite Hpool. by left.
      * apply (inv_active_member s HI).
    + intros id c'. rewrite lookup_insert. case_decide.
      * intros [= <-]. done.
      * intros Hc' Hin. apply (inv_disjoint s HI _ _ Hc'). rewrite Hpool. by right.
    + intros id1 id2 c'. rewrite !lookup_insert.
      repeat case_decide; subst; try done.
      * intros [= <-] H2. exfalso. eapply pool_head_fresh; eauto.
      * intros H1' [= <-]. exfalso. eapply pool_head_fresh; eauto.
      * eapply inv_distinct; eauto.
    + apply NoDup_app. split; [apply (inv_order_nodup s HI)|]. split; [|apply NoDup_singleton].
      intros x Hx ->%list_elem_of_singleton.
      apply (inv_order_dom s HI) in Hx as [? ?]. congruence.
    + intros id. rewrite elem_of_app, list_elem_of_singleton, lookup_insert.
      case_decide as Hd; [subst; split; eauto|].
      rewrite (inv_order_dom s HI). split; [intros [|]; [auto|congruence] | auto].
    + rewrite map_size_insert_None by done.
      pose proof (inv_count s HI) as Hcount. rewrite Hpool in Hcount. simpl in Hcount. lia.
    + rewrite length_app. simpl. rewrite map_size_insert_None by done.
      pose proof (inv_order_length s HI). lia.
Qed.

Lemma release_preserves noteId s : Inv s -> Inv (releaseChannel noteId s).
Proof.
  intros HI. unfold releaseChannel.
  case_bool_decide as Hid; [done|].
  destruct (activeNotes s !! noteId) as [c|] eqn:Hact; [|done].
  pose proof (inv_disjoint s HI _ _ Hact) as Hfree.
  pose proof (inv_active_member s HI _ _ Hact) as (n & -> & Hn).
  rewrite (bool_decide_eq_false_2 _ Hfree).
  rewrite bool_decide_eq_false_2 by (unfold MPE_MASTER_CHANNEL; intros [=]; lia).
  simpl.
  pose proof (merge_sort_Permutation chan_le (channelPool s ++ [Chan n])) as Hperm.
  split; simpl.
  - rewrite Hperm. apply NoDup_app. split; [apply (inv_pool_nodup s HI)|].
    split; [|apply NoDup_singleton].
    intros x Hx ->%list_elem_of_singleton. done.
  - intros c. rewrite Hperm, elem_of_app, list_elem_of_singleton.
    intros [Hc | ->]; [by apply (inv_pool_member s HI) | by exists n].
  - intros id c. rewrite lookup_delete. case_decide; [done|]. apply (inv_active_member s HI).
  - intros id c. rewrite lookup_delete. case_decide as Hd; [done|]. intros Hc.
    rewrite Hperm, elem_of_app, list_elem_of_singleton.
    intros [Hin | ->]; [by apply (inv_disjoint s HI _ _ Hc)|].
    apply Hd. symmetry. eapply inv_distinct; eauto.
  - intros id1 id2 c. rewrite !lookup_delete. repeat case_decide; try done.
    apply (inv_distinct s HI).
  - apply NoDup_spliceOut, (inv_order_nodup s HI).
  - intros id. rewrite elem_of_spliceOut by apply (inv_order_nodup s HI).
    rewrite lookup_delete, (inv_order_dom s HI). case_decide as Hd.
    + subst. split; [tauto | intros []; done].
    + split; [tauto | auto].
  - rewrite Hperm, length_app. simpl.
    pose proof (inv_count s HI). pose proof (size_delete_present _ _ _ Hact). lia.
  - pose proof (inv_order_length s HI) as Hlen.
    pose proof (size_delete_present _ _ _ Hact).
    assert (noteId ∈ channelUsageOrder s) as Hin by (apply (inv_order_dom s HI); eauto).
    pose proof (length_spliceOut _ _ Hin). lia.
Qed.

Lemma perform_preserves s c : Inv s -> Inv (perform s c).
Proof.
  destruct c; simpl; intros HI.
  - by apply allocate_preserves.
  - by apply release_preserves.
  - apply Inv_initial.
  - unfold initializePitchBendRange. simpl.
    destruct (pitchBendRangeInitialized s); [done|]. by destruct HI.
Qed.

Lemma Inv_after calls : Inv (after calls).
Proof.
  unfold after. generalize Inv_initial. generalize initialState.
  induction calls as [|c calls IH]; intros s HI; simpl; [done|].
  apply IH. by apply perform_preserves.
Qed.

(** C10.  After every sequence of [allocateChannel], [releaseChannel],
    [resetMPEState] (and [initializePitchBendRange]) calls, the free
    pool has no duplicate, does not hold the master channel 0, shares no
    channel with the active-note map, and every channel of the pool or
    of the map is one of the member channels 1..15. *)
Theorem pool_and_active_channels_invariant (calls : list call) :
  let s := after calls in
  NoDup (channelPool s)
  /\ (Chan MPE_MASTER_CHANNEL ∉ channelPool s)
  /\ (forall noteId c, activeNotes s !! noteId = Some c -> c ∉ channelPool s)
  /\ (forall c, c ∈ channelPool s \/ (exists noteId, activeNotes s !! noteId = Some c) ->
                exists n, c = Chan n /\ 1 <= n <= 15).
Proof.
  intros s. pose proof (Inv_after calls) as HI. fold s in HI.
  split; [apply (inv_pool_nodup s HI)|].
  split.
  { intros H0. apply (inv_pool_member s HI) in H0 as (n & [= <-] & Hn).
    unfold MPE_MASTER_CHANNEL in Hn. lia. }
  split; [apply (inv_disjoint s HI)|].
  intros c [Hc | [noteId Hc]].
  - by apply (inv_pool_member s HI).
  - by apply (inv_active_member s HI noteId).
Qed.

Lemma held_at_most_15 s : Inv s -> (size (activeNotes s) <= 15)%nat.
Proof. intros HI. pose proof (inv_count s HI). lia. Qed.

Lemma pool_empty_iff s : Inv s -> channelPool s = [] <-> size (activeNotes s) = 15%nat.
Proof.
  intros HI. pose proof (inv_count s HI) as H. split.
  - intros Hp. rewrite Hp in H. simpl in H. lia.
  - intros Hs. destruct (channelPool s); [done | simpl in H; lia].
Qed.

Lemma allocatedBefore_later calls a b c :
  allocatedBefore calls a b -> c ≠ Allocate a -> c ≠ Allocate b ->
  allocatedBefore (calls ++ [c]) a b.
Proof.
  intros (l1 & l3 & -> & Ha & Ha3 & Hb3) Hca Hcb.
  exists l1, (l3 ++ [c]). rewrite <- app_assoc. split; [done|]. split; [done|].
  split; rewrite elem_of_app, list_elem_of_singleton; intros [H | H]; auto.
Qed.

Lemma allocatedBefore_newest calls a b :
  Allocate a ∈ calls -> a ≠ b -> allocatedBefore (calls ++ [Allocate b]) a b.
Proof.
  intros Ha Hab. exists calls, []. split; [done|]. split; [done|].
  split; apply not_elem_of_nil.
Qed.

Lemma spliceOut_sublist x l : spliceOut x l `sublist_of` l.
Proof.
  unfold spliceOut. destruct (list_find _ l) as [[i y]|]; [apply sublist_delete | done].
Qed.

Lemma after_snoc calls c : after (calls ++ [c]) = perform (after calls) c.
Proof. unfold after. by rewrite fold_left_app. Qed.

(** What one call does to [channelUsageOrder]: an allocation for a
    proper id moves or appends that id to the end, and may drop the
    head; everything else only removes entries. *)
Lemma order_step s c :
  Inv s ->
  (exists noteId k,
      c = Allocate noteId /\ noteId ≠ "" /\ (noteId ∉ k)
      /\ k `sublist_of` channelUsageOrder s
      /\ channelUsageOrder (perform s c) = k ++ [noteId])
  \/ ((forall noteId, c = Allocate noteId -> noteId = "")
      /\ channelUsageOrder (perform s c) `sublist_of` channelUsageOrder s).
Proof.
  intros HI. destruct c as [noteId | noteId | |]; cbn [perform].
  - destruct (decide (noteId = "")) as [-> | Hid].
    { right. split; [by intros ? [= <-]|]. unfold allocateChannel. by rewrite bool_decide_eq_true_2. }
    left. unfold allocateChannel. rewrite bool_decide_eq_false_2 by done.
    destruct (activeNotes s !! noteId) as [ch|] eqn:Hact; cbn [fst snd channelUsageOrder].
    { exists noteId, (spliceOut noteId (channelUsageOrder s)).
      repeat split; try done; [|apply spliceOut_sublist].
      rewrite elem_of_spliceOut by apply (inv_order_nodup s HI). tauto. }
    assert (Hnot : noteId ∉ channelUsageOrder s).
    { intros [? ?]%(inv_order_dom s HI). congruence. }
    destruct (channelPool s) as [|ch pool'] eqn:Hpool; cbn [fst snd channelUsageOrder].
    + destruct (channelUsageOrder s) as [|reused rest] eqn:Hord; cbn [fst snd channelUsageOrder].
      { apply (pool_empty_iff s HI) in Hpool.
        pose proof (inv_order_length s HI) as Hlen. rewrite Hord in Hlen. simpl in Hlen. lia. }
      exists noteId, rest. repeat split; try done.
      * intros Hin. apply Hnot. by right.
      * by apply sublist_cons.
    + exists noteId, (channelUsageOrder s). repeat split; done.
  - right. split; [discriminate|]. unfold releaseChannel.
    case_bool_decide; [done|]. destruct (activeNotes s !! noteId); [|done].
    cbn [channelUsageOrder]. apply spliceOut_sublist.
  - right. split; [discriminate|]. apply sublist_nil_l.
  - right. split; [discriminate|]. unfold initializePitchBendRange. cbn [negb].
    by destruct (pitchBendRangeInitialized s).
Qed.

(** [channelUsageOrder] lists the held notes from the least recently
    to the most recently allocated. *)
Lemma usage_order_by_recency calls :
  ("" ∉ channelUsageOrder (after calls))
  /\ (forall a, a ∈ channelUsageOrder (after calls) -> Allocate a ∈ calls)
  /\ (forall a b, [a; b] `sublist_of` channelUsageOrder (after calls) ->
                  allocatedBefore calls a b).
Proof.
  induction calls as [|c calls (IH1 & IH2 & IH3)] using rev_ind.
  { cbn. split; [apply not_elem_of_nil|]. split.
    - intros a Ha. by apply elem_of_nil in Ha.
    - intros a b Hab. by apply sublist_nil_r in Hab. }
  rewrite after_snoc.
  destruct (order_step (after calls) c (Inv_after calls))
    as [(noteId & k & -> & Hid & Hk & Hsub & ->) | (Hc & Hsub)].
  - split; [|split].
    + rewrite elem_of_app, list_elem_of_singleton. intros [H | H]; [|done].
      apply IH1. by eapply elem_of_sublist.
    + intros a. rewrite !elem_of_app, !list_elem_of_singleton. intros [Ha | ->]; [|by right].
      left. apply IH2. by eapply elem_of_sublist.
    + intros a b (l1 & l2 & Hl & H1 & H2)%sublist_app_r.
      apply sublist_cons_r in H2 as [->%sublist_nil_r | (l' & -> & ->%sublist_nil_r)].
      * rewrite app_nil_r in Hl. subst l1.
        assert (a ∈ k /\ b ∈ k) as [Ha Hb].
        { split; [apply (elem_of_sublist [a; b] k a) | apply (elem_of_sublist [a; b] k b)];
            try exact H1; [by left | right; by left]. }
        apply allocatedBefore_later.
        -- apply IH3. by etrans.
        -- intros [= ->]. done.
        -- intros [= ->]. done.
      * destruct l1 as [|x [|y l1]];
          [discriminate Hl | | exfalso; injection Hl as _ _ Hl; by destruct l1].
        injection Hl as <- <-.
        assert (a ∈ k) as Ha by (by apply singleton_sublist_l).
        apply allocatedBefore_newest.
        -- apply IH2. by eapply elem_of_sublist.
        -- intros ->. done.
  - split; [|split].
    + intros H. apply IH1. by eapply elem_of_sublist.
    + intros a Ha. apply elem_of_app. left. apply IH2. by eapply elem_of_sublist.
    + intros a b Hab.
      assert (a ∈ channelUsageOrder (after calls) /\ b ∈ channelUsageOrder (after calls))
        as [Ha Hb].
      { split; (eapply elem_of_sublist; [|exact Hsub]);
          (eapply elem_of_sublist; [|exact Hab]); [by left | right; by left]. }
      apply allocatedBefore_later.
      * apply IH3. by etrans.
      * intros ->. rewrite (Hc a eq_refl) in Ha. done.
      * intros ->. rewrite (Hc b eq_refl) in Hb. done.
Qed.

Lemma head_is_least_recent calls reused rest other :
  channelUsageOrder (after calls) = reused :: rest -> other ∈ rest ->
  allocatedBefore calls reused other.
Proof.
  intros Hord Hother. apply usage_order_by_recency. rewrite Hord.
  apply sublist_skip. by apply singleton_sublist_l.
Qed.

Lemma heldAfter_snoc calls c : heldAfter (calls ++ [c]) = hold (heldAfter calls) c.
Proof. unfold heldAfter. by rewrite fold_left_app. Qed.

Lemma falsy_id_never_held calls : ""%string ∉ heldAfter calls.
Proof.
  induction calls as [| c calls IH] using rev_ind.
  - unfold heldAfter. cbn. apply not_elem_of_empty.
  - rewrite heldAfter_snoc. destruct c as [id | id | |]; cbn [hold].
    + case_bool_decide as Hid; [done |].
      intros [H%elem_of_singleton | H]%elem_of_union; [by subst | done].
    + intros [H _]%elem_of_difference. done.
    + apply not_elem_of_empty.
    + done.
Qed.

Lemma dom_allocate noteId s :
  dom (activeNotes (allocateChannel noteId s).1.2) ⊆ {[ noteId ]} ∪ dom (activeNotes s).
Proof.
  unfold allocateChannel.
  case_bool_decide as Hid; cbn [fst snd]; [apply union_subseteq_r |].
  destruct (activeNotes s !! noteId) as [c |]; cbn [fst snd activeNotes];
    [apply union_subseteq_r |].
  destruct (channelPool s) as [| channel pool']; cbn [fst snd activeNotes].
  - destruct (channelUsageOrder s) as [| reused order']; cbn [fst snd activeNotes];
      [apply union_subseteq_r |].
    rewrite dom_insert_L, dom_delete_L.
    apply union_mono_l. apply subseteq_difference_l. done.
  - by rewrite dom_insert_L.
Qed.

Lemma dom_release noteId s :
  noteId ≠ ""%string ->
  dom (activeNotes (releaseChannel noteId s)) = dom (activeNotes s) ∖ {[ noteId ]}.
Proof.
  intros Hid. unfold releaseChannel. rewrite bool_decide_eq_false_2 by done.
  destruct (activeNotes s !! noteId) as [c |] eqn:Hact; cbn [activeNotes].
  - by rewrite dom_delete_L.
  - apply not_elem_of_dom in Hact. symmetry. by apply difference_disjoint_L, disjoint_singleton_r.
Qed.

Lemma dom_initRange s :
  activeNotes (initializePitchBendRange true s).1.2 = activeNotes s.
Proof. unfold initializePitchBendRange. cbn [negb]. by destruct (pitchBendRangeInitialized s). Qed.

Lemma active_notes_are_held calls : dom (activeNotes (after calls)) ⊆ heldAfter calls.
Proof.
  induction calls as [| c calls IH] using rev_ind; [done |].
  rewrite after_snoc, heldAfter_snoc.
  pose proof (falsy_id_never_held calls) as Hfalsy.
  destruct c as [id | id | |]; cbn [perform hold].
  - case_bool_decide as Hid.
    + subst id. unfold allocateChannel. by rewrite bool_decide_eq_true_2.
    + etrans; [apply dom_allocate |]. by apply union_mono_l.
  - destruct (decide (id = ""%string)) as [-> | Hid].
    + unfold releaseChannel. rewrite bool_decide_eq_true_2 by done.
      rewrite difference_disjoint_L by (by apply disjoint_singleton_r). done.
    + rewrite dom_release by done. by apply difference_mono_r.
  - done.
  - by rewrite dom_initRange.
Qed.

Lemma peakWithin_snoc limit calls c held :
  peakWithin limit held (calls ++ [c])
  = peakWithin limit held calls
    && bool_decide (size (hold (fold_left hold calls held) c) <= limit)%nat.
Proof.
  revert held. induction calls as [| c0 calls IH]; intros held; cbn [app peakWithin fold_left].
  - by rewrite andb_true_r.
  - rewrite IH. by rewrite andb_assoc.
Qed.

Lemma held_notes_have_channels calls :
  atMost15Held calls = true -> dom (activeNotes (after calls)) = heldAfter calls.
Proof.
  unfold atMost15Held.
  induction calls as [| c calls IH] using rev_ind; [done |].
  rewrite peakWithin_snoc. intros [Hpeak Hsize%bool_decide_eq_true]%andb_true_iff.
  specialize (IH Hpeak). fold (heldAfter calls) in Hsize.
  rewrite after_snoc, heldAfter_snoc.
  pose proof (falsy_id_never_held calls) as Hfalsy.
  pose proof (Inv_after calls) as HI.
  destruct c as [id | id | |]; cbn [perform hold] in *.
  - case_bool_decide as Hid.
    { subst id. unfold allocateChannel. by rewrite bool_decide_eq_true_2. }
    unfold allocateChannel. rewrite bool_decide_eq_false_2 by done.
    destruct (activeNotes (after calls) !! id) as [ch |] eqn:Hact; cbn [fst snd activeNotes].
    { rewrite IH. apply elem_of_dom_2 in Hact. rewrite IH in Hact.
      symmetry. by apply subseteq_union_1_L, singleton_subseteq_l. }
    destruct (channelPool (after calls)) as [| channel pool'] eqn:Hpool; cbn [fst snd activeNotes].
    + exfalso. apply (pool_empty_iff _ HI) in Hpool.
      apply not_elem_of_dom in Hact. rewrite IH in Hact.
      rewrite size_union in Hsize by (by apply disjoint_singleton_l).
      rewrite size_singleton in Hsize.
      rewrite <- IH, size_dom in Hsize. lia.
    + by rewrite dom_insert_L, IH.
  - destruct (decide (id = ""%string)) as [-> | Hid].
    + unfold releaseChannel. rewrite bool_decide_eq_true_2 by done.
      rewrite difference_disjoint_L by (by apply disjoint_singleton_r). done.
    + rewrite dom_release by done. by rewrite IH.
  - done.
  - by rewrite dom_initRange.
Qed.


(** C2.  A note is held from its allocation (the note-on) to its release
    (the note-off).  Only held notes have a channel, and as long as
    never more than 15 notes were held at once, every held note has
    one: a member channel 1..15 of its own.  A new note that arrives
    while fewer than 15 notes are held gets a free member channel that
    no other note holds; nothing is stolen and every other note keeps
    its channel.  A new note that arrives while 15 notes have a channel
    steals: the note at the head of [channelUsageOrder] loses its
    channel, the new note gets it, and exactly one warning is logged;
    that head is the least recently used note: its last allocation is
    older than that of every other note with a channel.  So a 16th
    note that arrives while 15 are held takes the channel of one held
    note, and the other 14 keep theirs.  Either way no two notes of the
    map hold the same channel, and at most 15 notes hold one. *)
Theorem allocation_distinct_then_steal (calls : list call) (noteId : string) :
  let s := after calls in
  let held := heldAfter calls in
  let result := fst (fst (allocateChannel noteId s)) in
  let s' := snd (fst (allocateChannel noteId s)) in
  let trace := snd (allocateChannel noteId s) in
  noteId ≠ "" -> activeNotes s !! noteId = None ->
  (size (activeNotes s) <= 15)%nat
  /\ dom (activeNotes s) ⊆ held
  /\ (atMost15Held calls = true ->
      dom (activeNotes s) = held
      /\ forall id, id ∈ held ->
           exists n, activeNotes s !! id = Some (Chan n) /\ 1 <= n <= 15)
  /\ (forall id1 id2 c,
        activeNotes s !! id1 = Some c -> activeNotes s !! id2 = Some c -> id1 = id2)
  /\ ((size held < 15)%nat ->
      exists n,
        result = AllocChannel (Chan n) /\ 1 <= n <= 15
        /\ (forall other, activeNotes s !! other ≠ Some (Chan n))
        /\ (forall other c, activeNotes s !! other = Some c -> activeNotes s' !! other = Some c)
        /\ trace = [])
  /\ ((size (activeNotes s) < 15)%nat ->
      exists n,
        result = AllocChannel (Chan n) /\ 1 <= n <= 15
        /\ (forall other, activeNotes s !! other ≠ Some (Chan n))
        /\ activeNotes s' = <[noteId := Chan n]> (activeNotes s)
        /\ channelUsageOrder s' = channelUsageOrder s ++ [noteId]
        /\ trace = [])
  /\ (size (activeNotes s) = 15%nat ->
      exists n reused rest,
        channelUsageOrder s = reused :: rest
        /\ reused ∈ held
        /\ activeNotes s !! reused = Some (Chan n) /\ 1 <= n <= 15
        /\ result = AllocReused (Chan n) reused
        /\ activeNotes s' = <[noteId := Chan n]> (delete reused (activeNotes s))
        /\ activeNotes s' !! reused = None
        /\ channelUsageOrder s' = rest ++ [noteId]
        /\ (forall other, other ∈ rest -> allocatedBefore calls reused other)
        /\ length (filter (fun e => is_warning e = true) trace) = 1%nat)
  /\ (atMost15Held calls = true -> size held = 15%nat ->
      exists n reused,
        reused ∈ held /\ result = AllocReused (Chan n) reused
        /\ activeNotes s' !! reused = None
        /\ activeNotes s' !! noteId = Some (Chan n)
        /\ (forall other, other ∈ held -> other ≠ reused ->
              activeNotes s' !! other = activeNotes s !! other)
        /\ length (filter (fun e => is_warning e = true) trace) = 1%nat)
  /\ (exists n, activeNotes s' !! noteId = Some (Chan n) /\ 1 <= n <= 15)
  /\ (forall id1 id2 c,
        activeNotes s' !! id1 = Some c -> activeNotes s' !! id2 = Some c -> id1 = id2)
  /\ (size (activeNotes s') <= 15)%nat.
Proof.
  intros s held result s' trace Hid Hfresh.
  pose proof (Inv_after calls) as HI. fold s in HI.
  pose proof (allocate_preserves noteId s HI) as HI'. fold s' in HI'.
  pose proof (active_notes_are_held calls) as Hsub. fold s held in Hsub.
  assert (Hnonempty : bool_decide (noteId = "") = false) by by apply bool_decide_eq_false_2.
  assert (Hfree : (size (activeNotes s) < 15)%nat ->
            exists n,
              result = AllocChannel (Chan n) /\ 1 <= n <= 15
              /\ (forall other, activeNotes s !! other ≠ Some (Chan n))
              /\ activeNotes s' = <[noteId := Chan n]> (activeNotes s)
              /\ channelUsageOrder s' = channelUsageOrder s ++ [noteId]
              /\ trace = []).
  { intros Hlt.
    destruct (channelPool s) as [|c pool'] eqn:Hpool.
    { apply (pool_empty_iff s HI) in Hpool. lia. }
    assert (member c) as (n & -> & Hn) by (apply (inv_pool_member s HI); rewrite Hpool; by left).
    exists n. subst result s' trace. unfold allocateChannel.
    rewrite Hnonempty, Hfresh, Hpool. simpl.
    repeat split; try done; try lia.
    intros other. by eapply pool_head_fresh. }
  split; [by apply held_at_most_15|].
  split; [exact Hsub |].
  split.
  { intros Hpeak. pose proof (held_notes_have_channels calls Hpeak) as Heq. fold s held in Heq.
    split; [exact Heq |]. intros id Hin. rewrite <- Heq in Hin.
    apply elem_of_dom in Hin as [c Hc].
    destruct (inv_active_member s HI _ _ Hc) as (n & -> & Hn). by exists n. }
  split; [apply (inv_distinct s HI) |].
  split.
  { intros Hlt.
    assert (Hsize : (size (activeNotes s) < 15)%nat).
    { rewrite <- size_dom. eapply Nat.le_lt_trans; [| exact Hlt].
      by apply subseteq_size. }
    destruct (Hfree Hsize) as (n & Hr & Hn & Hother & Hact & _ & Htr).
    exists n. repeat split; try done; try lia.
    intros other c Hc. rewrite Hact. rewrite lookup_insert_ne; [done |].
    intros <-. by rewrite Hfresh in Hc. }
  split; [exact Hfree |].
  assert (Hsteal : size (activeNotes s) = 15%nat ->
            exists n reused rest,
              channelUsageOrder s = reused :: rest
              /\ reused ∈ held
              /\ activeNotes s !! reused = Some (Chan n) /\ 1 <= n <= 15
              /\ result = AllocReused (Chan n) reused
              /\ activeNotes s' = <[noteId := Chan n]> (delete reused (activeNotes s))
              /\ activeNotes s' !! reused = None
              /\ channelUsageOrder s' = rest ++ [noteId]
              /\ (forall other, other ∈ rest -> allocatedBefore calls reused other)
              /\ length (filter (fun e => is_warning e = true) trace) = 1%nat).
  { intros Hfull. apply (pool_empty_iff s HI) in Hfull as Hpool.
    destruct (channelUsageOrder s) as [|reused rest] eqn:Hord.
    { pose proof (inv_order_length s HI) as Hlen. rewrite Hord in Hlen. simpl in Hlen. lia. }
    assert (Hin : reused ∈ channelUsageOrder s) by (rewrite Hord; by left).
    apply (inv_order_dom s HI) in Hin as [c Hc].
    pose proof (inv_active_member s HI _ _ Hc) as (n & -> & Hn).
    exists n, reused, rest. subst result s' trace. unfold allocateChannel.
    rewrite Hnonempty, Hfresh, Hpool, Hord. unfold mapGet. rewrite Hc. simpl.
    repeat split; try done; try lia.
    + apply Hsub. by apply elem_of_dom_2 in Hc.
    + rewrite lookup_insert_ne by congruence. apply lookup_delete_eq.
    + intros other Hother. by eapply head_is_least_recent. }
  split; [exact Hsteal |].
  split; [|split; [|split]].
  - intros Hpeak Hfull.
    pose proof (held_notes_have_channels calls Hpeak) as Heq. fold s held in Heq.
    rewrite <- Heq, size_dom in Hfull.
    destruct (Hsteal Hfull) as (n & reused & rest & _ & Hin & Hc & Hn & Hr & Hact & Hgone & _ & _ & Hw).
    exists n, reused. split; [exact Hin |]. split; [exact Hr |]. split; [exact Hgone |].
    split; [by rewrite Hact, lookup_insert_eq |]. split; [| exact Hw].
    intros other Hother Hne. rewrite Hact.
    rewrite lookup_insert_ne.
    + by rewrite lookup_delete_ne.
    + intros <-. rewrite <- Heq in Hother. apply elem_of_dom in Hother as [? Hother].
      by rewrite Hfresh in Hother.
  - assert (is_Some (activeNotes s' !! noteId)) as [c Hc].
    { apply (inv_order_dom s' HI'). subst s'. unfold allocateChannel.
      rewrite Hnonempty, Hfresh.
      destruct (channelPool s) as [|c pool'] eqn:Hpool;
        [destruct (channelUsageOrder s) as [|reused rest] eqn:Hord|]; simpl.
      - apply (pool_empty_iff s HI) in Hpool.
        pose proof (inv_order_length s HI) as Hlen. rewrite Hord in Hlen. simpl in Hlen. lia.
      - apply elem_of_app. right. by apply list_elem_of_singleton.
      - apply elem_of_app. right. by apply list_elem_of_singleton. }
    pose proof (inv_active_member s' HI' _ _ Hc) as (n & -> & Hn). by exists n.
  - apply (inv_distinct s' HI').
  - by apply held_at_most_15.
Qed.

Lemma split_14_bits (bend : Z) :
  0 <= bend < 16384 ->
  0 <= Z.land bend 0x7F < 128
  /\ 0 <= Z.land (Z.shiftr bend 7) 0x7F < 128
  /\ Z.land bend 0x7F + 128 * Z.land (Z.shiftr bend 7) 0x7F = bend.
Proof.
  intros H.
  change 0x7F with (Z.ones 7). rewrite !Z.land_ones, Z.shiftr_div_pow2 by lia.
  change (2 ^ 7) with 128.
  pose proof (Z.mod_pos_bound bend 128). pose proof (Z.div_mod bend 128).
  rewrite (Z.mod_small (bend / 128) 128) by (split; [apply Z.div_pos; lia | apply Z.div_lt_upper_bound; lia]).
  lia.
Qed.
Lemma allocation_distinct_then_steal_witness :
  (let s := after passingNotes in
   dom (activeNotes s) = heldAfter passingNotes
   /\ exists n,
        fst (fst (allocateChannel "16_86" s)) = AllocChannel (Chan n) /\ 1 <= n <= 15
        /\ (forall other, activeNotes s !! other ≠ Some (Chan n))
        /\ (forall other c, activeNotes s !! other = Some c ->
              activeNotes (snd (fst (allocateChannel "16_86" s))) !! other = Some c)
        /\ snd (allocateChannel "16_86" s) = [])
  /\ (let s := after fifteenNoteOns in
      exists n reused rest,
        channelUsageOrder s = reused :: rest
        /\ reused ∈ heldAfter fifteenNoteOns
        /\ activeNotes s !! reused = Some (Chan n) /\ 1 <= n <= 15
        /\ fst (fst (allocateChannel "16_86" s)) = AllocReused (Chan n) reused
        /\ activeNotes (snd (fst (allocateChannel "16_86" s)))
           = <[ "16_86"%string := Chan n ]> (delete reused (activeNotes s))
        /\ activeNotes (snd (fst (allocateChannel "16_86" s))) !! reused = None
        /\ channelUsageOrder (snd (fst (allocateChannel "16_86" s))) = rest ++ ["16_86"%string]
        /\ (forall other, other ∈ rest -> allocatedBefore fifteenNoteOns reused other)
        /\ length (filter (fun e => is_warning e = true) (snd (allocateChannel "16_86" s)))
           = 1%nat)
  /\ (let s := after fifteenNoteOns in
      let s' := snd (fst (allocateChannel "16_86" s)) in
      exists n reused,
        reused ∈ heldAfter fifteenNoteOns
        /\ fst (fst (allocateChannel "16_86" s)) = AllocReused (Chan n) reused
        /\ activeNotes s' !! reused = None
        /\ activeNotes s' !! "16_86"%string = Some (Chan n)
        /\ (forall other, other ∈ heldAfter fifteenNoteOns -> other ≠ reused ->
              activeNotes s' !! other = activeNotes s !! other)
        /\ length (filter (fun e => is_warning e = true) (snd (allocateChannel "16_86" s)))
           = 1%nat).
Proof.
  assert (H1 : "16_86"%string ≠ ""%string) by discriminate.
  split; [| split].
  - assert (H2 : activeNotes (after passingNotes) !! "16_86"%string = None)
      by (vm_compute; reflexivity).
    assert (H3 : atMost15Held passingNotes = true) by (vm_compute; reflexivity).
    assert (H4 : (size (heldAfter passingNotes) < 15)%nat) by (vm_compute; lia).
    destruct (allocation_distinct_then_steal passingNotes "16_86" H1 H2)
      as (_ & _ & Heq & _ & Hfree & _).
    split; [exact (proj1 (Heq H3)) | exact (Hfree H4)].
  - assert (H2 : activeNotes (after fifteenNoteOns) !! "16_86"%string = None)
      by (vm_compute; reflexivity).
    assert (H3 : size (activeNotes (after fifteenNoteOns)) = 15%nat)
      by (vm_compute; reflexivity).
    destruct (allocation_distinct_then_steal fifteenNoteOns "16_86" H1 H2)
      as (_ & _ & _ & _ & _ & _ & Hfull & _).
    exact (Hfull H3).
  - assert (H2 : activeNotes (after fifteenNoteOns) !! "16_86"%string = None)
      by (vm_compute; reflexivity).
    assert (H3 : atMost15Held fifteenNoteOns = true) by (vm_compute; reflexivity).
    assert (H4 : size (heldAfter fifteenNoteOns) = 15%nat) by (vm_compute; reflexivity).
    destruct (allocation_distinct_then_steal fifteenNoteOns "16_86" H1 H2)
      as (_ & _ & _ & _ & _ & _ & _ & Hsixteenth & _).
    exact (Hsixteenth H3 H4).
Defined.

Lemma clamp_range (x : Z) : -8192 <= Z.max (-8192) (Z.min 8191 x) <= 8191.
Proof. lia. Qed.

(** C7 (as the code has it).  [sendPitchBend] sends every bend value:
    a value outside -8192..8191 is clamped to the nearest bound, packed
    into two 7-bit bytes and sent; nothing is logged and nothing wraps.
    [centsToPitchBend] clamps in the same silent way, so every
    deviation of 200 cents or more becomes 8191. *)
Theorem pitch_bend_is_clamped_not_reported (ch bendValue : Z) (cents : R) :
  let clamped := Z.max (-8192) (Z.min 8191 bendValue) in
  (exists lsb msb,
      sendPitchBend true (Some (Chan ch)) bendValue
      = (3, [MidiSend [Z.lor 0xE0 ch; lsb; msb]])
      /\ 0 <= lsb < 128 /\ 0 <= msb < 128
      /\ lsb + 128 * msb = clamped + 8192)
  /\ (-8192 <= bendValue <= 8191 -> clamped = bendValue)
  /\ (8191 < bendValue -> clamped = 8191)
  /\ (bendValue < -8192 -> clamped = -8192)
  /\ -8192 <= TuningCore.centsToPitchBend cents <= 8191
  /\ ((200 <= cents)%R -> TuningCore.centsToPitchBend cents = 8191)
  /\ ((cents <= -200)%R -> TuningCore.centsToPitchBend cents = -8192).
Proof.
  intros clamped.
  split.
  { unfold sendPitchBend. simpl negb. cbv iota. fold clamped.
    assert (0 <= clamped + 8192 < 16384) as Hr. { subst clamped. lia. }
    destruct (split_14_bits _ Hr) as (Hl & Hm & Hs).
    eexists _, _. split; [reflexivity|]. done. }
  unfold TuningCore.centsToPitchBend.
  repeat split; try (subst clamped; lia).
  - intros Hc.
    assert (8192 <= TuningCore.Math_round (cents / 200 * 8192)) as Hm.
    { apply Zfloor_lub. lra. }
    lia.
  - intros Hc.
    assert (TuningCore.Math_round (cents / 200 * 8192) <= -8192); [|lia].
    unfold TuningCore.Math_round.
    pose proof (Zfloor_bound (cents / 200 * 8192 + 1 / 2)) as [Hf _].
    assert (IZR (Zfloor (cents / 200 * 8192 + 1 / 2)) < IZR (-8191))%R as Hlt by lra.
    apply lt_IZR in Hlt. lia.
Qed.

Lemma pitch_bend_is_clamped_not_reported_witness :
  Z.max (-8192) (Z.min 8191 481) = 481
  /\ Z.max (-8192) (Z.min 8191 9000) = 8191
  /\ Z.max (-8192) (Z.min 8191 (-9000)) = -8192
  /\ TuningCore.centsToPitchBend 300 = 8191
  /\ TuningCore.centsToPitchBend (-300) = -8192.
Proof.
  split; [|split; [|split; [|split]]].
  - apply (proj1 (proj2 (pitch_bend_is_clamped_not_reported 1 481 0%R))). lia.
  - apply (proj1 (proj2 (proj2 (pitch_bend_is_clamped_not_reported 1 9000 0%R)))). lia.
  - apply (proj1 (proj2 (proj2 (proj2 (pitch_bend_is_clamped_not_reported 1 (-9000) 0%R))))).
    lia.
  - apply (proj1 (proj2 (proj2 (proj2 (proj2 (proj2
             (pitch_bend_is_clamped_not_reported 1 0 300%R))))))). lra.
  - apply (proj2 (proj2 (proj2 (proj2 (proj2 (proj2
             (pitch_bend_is_clamped_not_reported 1 0 (-300)%R))))))). lra.
Defined.

(** Against C7 as stated: a bend of 9000 is sent (as 8191) and no log
    line is written. *)
Lemma out_of_range_bend_is_sent_unlogged :
  sendPitchBend true (Some (Chan 1)) 9000 = (3, [MidiSend [0xE1; 0x7F; 0x7F]])
  /\ sent_messages (snd (sendPitchBend true (Some (Chan 1)) 9000)) = [[0xE1; 0x7F; 0x7F]]
  /\ filter (fun e => is_log_line e = true) (snd (sendPitchBend true (Some (Chan 1)) 9000)) = []
  /\ sendPitchBend true (Some (Chan 1)) 9000 = sendPitchBend true (Some (Chan 1)) 8191.
Proof. repeat split. Qed.

End TuningMPEProofs.

(** ** Forwarding a note to the MPE backend (js/main.js) *)

Module ForwardProofs.
Import TuningMPE TuningMPEProofs Main.
Local Open Scope Z_scope.

(** What [allocateChannel] gives a note with a proper id in a state
    that satisfies the invariant. *)
Lemma allocate_gives_member noteId s :
  Inv s -> noteId ≠ "" ->
  exists n, 1 <= n <= 15
    /\ activeNotes (snd (fst (allocateChannel noteId s))) !! noteId = Some (Chan n)
    /\ ((fst (fst (allocateChannel noteId s)) = AllocChannel (Chan n)
         /\ snd (allocateChannel noteId s) = [])
        \/ (exists reused rest,
              fst (fst (allocateChannel noteId s)) = AllocReused (Chan n) reused
              /\ snd (allocateChannel noteId s) = [stealWarning (Chan n)]
              /\ activeNotes s !! noteId = None
              /\ channelPool s = []
              /\ channelUsageOrder s = reused :: rest
              /\ activeNotes s !! reused = Some (Chan n)
              /\ activeNotes (snd (fst (allocateChannel noteId s))) !! reused = None)).
Proof.
  intros HI Hid. unfold allocateChannel.
  rewrite bool_decide_eq_false_2 by done.
  destruct (activeNotes s !! noteId) as [c|] eqn:Hact.
  { pose proof (inv_active_member s HI _ _ Hact) as (n & -> & Hn).
    exists n. simpl. auto. }
  destruct (channelPool s) as [|c pool'] eqn:Hpool.
  - destruct (channelUsageOrder s) as [|reused rest] eqn:Hord.
    { apply (pool_empty_iff s HI) in Hpool.
      pose proof (inv_order_length s HI) as Hlen. rewrite Hord in Hlen. simpl in Hlen. lia. }
    assert (Hin : reused ∈ channelUsageOrder s) by (rewrite Hord; by left).
    apply (inv_order_dom s HI) in Hin as [c Hc].
    pose proof (inv_active_member s HI _ _ Hc) as (n & -> & Hn).
    exists n. unfold mapGet. rewrite Hc. simpl.
    split; [done|]. split; [by rewrite lookup_insert_eq|].
    right. exists reused, rest. repeat split; try done.
    rewrite lookup_insert_ne by congruence. apply lookup_delete_eq.
  - assert (member c) as (n & -> & Hn) by (apply (inv_pool_member s HI); rewrite Hpool; by left).
    exists n. simpl. split; [done|]. split; [by rewrite lookup_insert_eq|]. by left.
Qed.

Lemma rangeSetup_fields s :
  channelPool (fst (rangeSetup s)) = channelPool s
  /\ activeNotes (fst (rangeSetup s)) = activeNotes s
  /\ channelUsageOrder (fst (rangeSetup s)) = channelUsageOrder s.
Proof.
  unfold rangeSetup, isPitchBendRangeInitialized, initializePitchBendRange.
  destruct (pitchBendRangeInitialized s); simpl; done.
Qed.

Lemma rangeSetup_Inv s : Inv s -> Inv (fst (rangeSetup s)).
Proof.
  intros HI. unfold rangeSetup, isPitchBendRangeInitialized.
  destruct (pitchBendRangeInitialized s) eqn:Hi; simpl; [done|].
  apply (perform_preserves s InitRange HI).
Qed.

Lemma rangeSetup_quiet s e : e ∈ snd (rangeSetup s) -> is_warning e = false.
Proof.
  unfold rangeSetup, isPitchBendRangeInitialized, initializePitchBendRange.
  destruct (pitchBendRangeInitialized s); simpl; [intros H%elem_of_nil; done|].
  intros H. repeat (apply elem_of_cons in H as [-> | H]; [reflexivity|]).
  apply elem_of_nil in H. done.
Qed.

Lemma bend_reset n :
  sendPitchBend true (Some (Chan n)) 0 = (3, [MidiSend [Z.lor 0xE0 n; 0; 64]]).
Proof. reflexivity. Qed.

Lemma steal_is_not_drop c n : stealWarning c ≠ dropWarning n.
Proof. unfold stealWarning, dropWarning. simpl. intros [=]. Qed.

Lemma sendPitchBend_quiet o c v e :
  e ∈ snd (sendPitchBend o c v) -> is_warning e = false.
Proof.
  unfold sendPitchBend. destruct c as [[|ch]|]; [| destruct o |]; cbn [snd negb].
  - intros H%elem_of_nil; done.
  - intros ->%list_elem_of_singleton. reflexivity.
  - intros H%elem_of_nil; done.
  - intros H%elem_of_nil; done.
Qed.

Lemma allocation_cases noteId s :
  allocateChannel noteId s
  = (fst (fst (allocateChannel noteId s)), snd (fst (allocateChannel noteId s)),
     snd (allocateChannel noteId s)).
Proof. by destruct (allocateChannel noteId s) as [[? ?] ?]. Qed.

(** C6 (as the code has it).  A note-on with a proper note id is never
    dropped in the MPE backend: the note-on message goes out on a
    member channel 1..15 that the allocator then maps to this note and
    to no other.  When the pool was exhausted, that channel is the one
    the note at the head of [channelUsageOrder] held: [allocateChannel]
    returns it together with the evicted id (not [null]), logs the
    stealing warning, and a bend reset is sent on it first. *)
Theorem exhausted_pool_steals_a_channel
    (calls : list call) (noteData : tunedNote) (channel now : Z) (out : port)
    (m : TuningMTS.state) :
  let s := after calls in
  let b' := fst (forwardNoteExternal noteData channel true out now (mkBackends s m)) in
  let tr := snd (forwardNoteExternal noteData channel true out now (mkBackends s m)) in
  TuningMTS.mtsSupported m = false ->
  noteId noteData ≠ "" ->
  exists n,
    1 <= n <= 15
    /\ activeNotes (mpe b') !! noteId noteData = Some (Chan n)
    /\ (forall other, activeNotes (mpe b') !! other = Some (Chan n) -> other = noteId noteData)
    /\ last (sent_messages tr) = Some [Z.lor 0x90 n; note noteData; velocity noteData]
    /\ (dropWarning (note noteData) ∉ tr)
    /\ (channelPool s = [] -> activeNotes s !! noteId noteData = None ->
        exists reused rest,
          channelUsageOrder s = reused :: rest
          /\ activeNotes s !! reused = Some (Chan n)
          /\ fst (fst (allocateChannel (noteId noteData) s)) = AllocReused (Chan n) reused
          /\ activeNotes (mpe b') !! reused = None
          /\ stealWarning (Chan n) ∈ tr
          /\ MidiSend [Z.lor 0xE0 n; 0; 64] ∈ tr).
Proof.
  intros s b' tr Hmts Hid.
  pose proof (Inv_after calls) as HI. fold s in HI.
  pose proof (rangeSetup_Inv s HI) as HI0.
  pose proof (rangeSetup_fields s) as (Hp0 & Ha0 & Ho0).
  pose proof (rangeSetup_quiet s) as Hquiet.
  destruct (allocate_gives_member (noteId noteData) _ HI0 Hid) as (n & Hn & Hnew & Hres).
  pose proof (allocate_preserves (noteId noteData) _ HI0) as HI1.
  assert (Hstep : forwardNoteExternal noteData channel true out now (mkBackends s m)
    = (mkBackends (snd (fst (allocateChannel (noteId noteData) (fst (rangeSetup s))))) m,
       snd (rangeSetup s)
         ++ snd (allocateChannel (noteId noteData) (fst (rangeSetup s)))
         ++ (match fst (fst (allocateChannel (noteId noteData) (fst (rangeSetup s)))) with
             | AllocReused _ _ => [MidiSend [Z.lor 0xE0 n; 0; 64]]
             | _ => []
             end)
         ++ snd (sendPitchBend true (Some (Chan n)) (pitchBend noteData))
         ++ [MidiSend [Z.lor 0x90 n; note noteData; velocity noteData]])).
  { unfold forwardNoteExternal, TuningMTS.isMTSSupported. simpl mts. simpl mpe.
    rewrite Hmts. cbv iota. rewrite andb_true_r.
    unfold rangeSetup.
    destruct (negb (isPitchBendRangeInitialized s)) eqn:Hinit.
    - unfold rangeSetup in Hres. rewrite Hinit in Hres. simpl fst in Hres. simpl snd in Hres.
      destruct (initializePitchBendRange true s) as [[ok s0] tr0] eqn:Hir.
      simpl fst in *. simpl snd in *.
      rewrite (allocation_cases (noteId noteData) s0).
      destruct Hres as [[-> ->] | (reused & rest & -> & -> & _)]; simpl;
        rewrite ?andb_false_r; simpl; rewrite ?app_nil_r, <- ?app_assoc; reflexivity.
    - unfold rangeSetup in Hres. rewrite Hinit in Hres. simpl fst in Hres. simpl snd in Hres.
      simpl fst. simpl snd.
      rewrite (allocation_cases (noteId noteData) s).
      destruct Hres as [[-> ->] | (reused & rest & -> & -> & _)]; simpl;
        rewrite ?andb_false_r; simpl; reflexivity. }
  subst b' tr. rewrite Hstep. simpl fst. simpl snd. simpl mpe.
  exists n. split; [done|]. split; [done|].
  split. { intros other Hother. by eapply (inv_distinct _ HI1). }
  split.
  { unfold sent_messages. rewrite !omap_app, !app_assoc, last_app. reflexivity. }
  split.
  { intros Hd.
    apply elem_of_app in Hd as [Hd | Hd]; [| apply elem_of_app in Hd as [Hd | Hd];
      [| apply elem_of_app in Hd as [Hd | Hd]]].
    - by apply Hquiet in Hd.
    - destruct Hres as [[_ Hr] | (reused & rest & _ & Hr & _)]; rewrite Hr in Hd.
      + by apply elem_of_nil in Hd.
      + apply list_elem_of_singleton in Hd. symmetry in Hd. by apply steal_is_not_drop in Hd.
    - destruct (fst (fst (allocateChannel (noteId noteData) (fst (rangeSetup s)))));
        [by apply elem_of_nil in Hd | by apply elem_of_nil in Hd |].
      apply list_elem_of_singleton in Hd. discriminate Hd.
    - repeat (apply elem_of_cons in Hd as [Hd | Hd]; [discriminate Hd|]).
      by apply elem_of_nil in Hd. }
  intros Hpool Hfresh.
  destruct Hres as [[Hr _] | (reused & rest & Hr & Htr & _ & _ & Hord & Hre & Hgone)].
  - exfalso. revert Hr. unfold allocateChannel.
    rewrite bool_decide_eq_false_2, Ha0, Hfresh, Hp0, Hpool by done.
    destruct (channelUsageOrder _); done.
  - exists reused, rest. rewrite Ho0 in Hord. rewrite Ha0 in Hre.
    split; [done|]. split; [done|].
    split.
    { unfold allocateChannel.
      rewrite bool_decide_eq_false_2, Hfresh, Hpool, Hord by done.
      unfold mapGet. by rewrite Hre. }
    split; [done|].
    rewrite Htr, Hr. split.
    + rewrite !elem_of_app. right. left. by apply list_elem_of_singleton.
    + rewrite !elem_of_app. right. right. left. by apply list_elem_of_singleton.
Qed.

(** Against C6 as stated: with fifteen notes held, the sixteenth note-on
    is not dropped and gets no exhausted signal; it goes out on
    channel 1, which note "1_60" was holding. *)
Lemma sixteenth_note_is_sent_on_a_stolen_channel :
  let s := after (InitRange :: fifteenNoteOns) in
  let b := mkBackends s TuningMTS.initialState in
  channelPool s = []
  /\ activeNotes s !! "1_60"%string = Some (Chan 1)
  /\ fst (fst (allocateChannel "16_86" s)) = AllocReused (Chan 1) "1_60"
  /\ fst (fst (allocateChannel "16_86" s)) ≠ AllocNull
  /\ snd (forwardNoteExternal sixteenthNote 0 true (mkPort false) 0 b)
     = [stealWarning (Chan 1); MidiSend [0xE1; 0; 64]; MidiSend [0xE1; 0; 64];
        MidiSend [0x91; 86; 100]]
  /\ (dropWarning 86 ∉ snd (forwardNoteExternal sixteenthNote 0 true (mkPort false) 0 b)).
Proof.
  assert (H : snd (forwardNoteExternal sixteenthNote 0 true (mkPort false) 0
                     (mkBackends (after (InitRange :: fifteenNoteOns)) TuningMTS.initialState))
              = [stealWarning (Chan 1); MidiSend [0xE1; 0; 64]; MidiSend [0xE1; 0; 64];
                 MidiSend [0x91; 86; 100]]) by (vm_compute; reflexivity).
  cbv zeta. rewrite H.
  repeat split; try (vm_compute; reflexivity).
  - vm_compute. discriminate.
  - intros Hd. repeat (apply elem_of_cons in Hd as [Hd | Hd]; [discriminate Hd|]).
    by apply elem_of_nil in Hd.
Qed.

Lemma exhausted_pool_steals_a_channel_witness :
  exists n reused,
    1 <= n <= 15
    /\ activeNotes (mpe (fst (forwardNoteExternal sixteenthNote 0 true (mkPort false) 0
                                (mkBackends (after fifteenNoteOns) TuningMTS.initialState))))
         !! "16_86"%string = Some (Chan n)
    /\ activeNotes (after fifteenNoteOns) !! reused = Some (Chan n)
    /\ activeNotes (mpe (fst (forwardNoteExternal sixteenthNote 0 true (mkPort false) 0
                                (mkBackends (after fifteenNoteOns) TuningMTS.initialState))))
         !! reused = None.
Proof.
  destruct (exhausted_pool_steals_a_channel fifteenNoteOns sixteenthNote 0 0 (mkPort false)
              TuningMTS.initialState eq_refl) as (n & Hn & Hnew & _ & _ & _ & Hsteal).
  - discriminate.
  - destruct Hsteal as (reused & rest & _ & Hheld & _ & Hgone & _).
    + vm_compute. reflexivity.
    + vm_compute. reflexivity.
    + exists n, reused. split; [exact Hn|]. split; [exact Hnew|].
      split; [exact Hheld | exact Hgone].
Defined.

End ForwardProofs.

(** ** The ensemble key detector (js/key-detection.js) *)

Module KeyDetectionProofs.
Import KeyDetection.
Local Open Scope Q_scope.

Lemma detect_unfold noteBuffer sensitivity currentKey :
  totalOf (countNotes noteBuffer) ≠ 0%Z ->
  detectKeyEnsemble noteBuffer sensitivity currentKey
  = let finalKey := fst (fst (winnerOf noteBuffer)) in
    let finalScore := snd (fst (winnerOf noteBuffer)) in
    let agreement := snd (winnerOf noteBuffer) in
    if xge finalScore (Fin (thresholdOf sensitivity))
       && negb (bool_decide (finalKey = currentKey))
    then
      (Some (mkEstimate finalKey
               (Math_round (xtimes (xtimes finalScore 400) (agreementBonusOf agreement)))
               agreement
               (if (agreement =? 3)%Z then "unanimous"%string
                else (pretty agreement +:+ "/3 agree")%string)
               (snd (tally (normalize (countNotes noteBuffer)
                                      (totalOf (countNotes noteBuffer)))))
               "ensemble"),
       finalKey, [ConsoleLog "Ensemble results:"])
    else (None, currentKey, []).
Proof.
  intros Ht. unfold detectKeyEnsemble, winnerOf.
  destruct (Z.eqb_spec (totalOf (countNotes noteBuffer)) 0); [done|].
  destruct (tally _) as [keyVotes results]. simpl fst. simpl snd.
  destruct (finalOf keyVotes) as [[finalKey finalScore] agreement]. reflexivity.
Qed.

Lemma detect_silent noteBuffer sensitivity currentKey :
  totalOf (countNotes noteBuffer) = 0%Z ->
  detectKeyEnsemble noteBuffer sensitivity currentKey = (None, currentKey, []).
Proof.
  intros Ht. unfold detectKeyEnsemble. rewrite Ht. reflexivity.
Qed.

Lemma detect_stable noteBuffer sensitivity currentKey :
  let currentKey' := snd (fst (detectKeyEnsemble noteBuffer sensitivity currentKey)) in
  detectKeyEnsemble noteBuffer sensitivity currentKey' = (None, currentKey', []).
Proof.
  intros currentKey'. subst currentKey'.
  destruct (decide (totalOf (countNotes noteBuffer) = 0%Z)) as [Ht | Ht].
  { rewrite !detect_silent by done. reflexivity. }
  rewrite !(detect_unfold noteBuffer) by done. cbv zeta.
  generalize (snd (tally (normalize (countNotes noteBuffer)
                                    (totalOf (countNotes noteBuffer))))).
  generalize (winnerOf noteBuffer). intros [[finalKey finalScore] agreement] results.
  cbn [fst snd].
  destruct (xge finalScore _ && negb (bool_decide (finalKey = currentKey))) eqn:Hc;
    cbn [fst snd].
  - rewrite (bool_decide_eq_true_2 _ eq_refl), andb_false_r. reflexivity.
  - rewrite Hc. reflexivity.
Qed.

Lemma feed_cons sensitivity currentKey buf buffers :
  feed sensitivity currentKey (buf :: buffers)
  = feed sensitivity (snd (fst (detectKeyEnsemble buf sensitivity currentKey))) buffers.
Proof. reflexivity. Qed.

Lemma feed_repeat noteBuffer sensitivity currentKey n :
  feed sensitivity currentKey (replicate (S n) noteBuffer)
  = snd (fst (detectKeyEnsemble noteBuffer sensitivity currentKey)).
Proof.
  simpl replicate. rewrite feed_cons.
  pose proof (detect_stable noteBuffer sensitivity currentKey) as Hs. cbv zeta in Hs.
  set (k := snd (fst (detectKeyEnsemble noteBuffer sensitivity currentKey))) in *.
  induction n as [|n IH]; [reflexivity|].
  simpl replicate. rewrite feed_cons, Hs. exact IH.
Qed.

(** C3.  The thresholds are 0.05, 0.04 and 0.03 for low, medium and
    high sensitivity.  The detector returns no estimate, and keeps its
    current key, when the winning weighted score is below the threshold
    or when the winning key is the current key; an estimate is returned
    only for a changed key at or above the threshold.  Feeding the same
    buffer again leaves the current key where the first call put it and
    returns nothing, however often it is repeated. *)
Theorem no_estimate_below_threshold_or_unchanged
    (noteBuffer : list noteEvent) (sensitivity : string) (currentKey : option string) :
  let finalKey := fst (fst (winnerOf noteBuffer)) in
  let finalScore := snd (fst (winnerOf noteBuffer)) in
  let result := detectKeyEnsemble noteBuffer sensitivity currentKey in
  let currentKey' := snd (fst result) in
  (thresholdOf "low" = 0.05 /\ thresholdOf "medium" = 0.04 /\ thresholdOf "high" = 0.03)
  /\ (xge finalScore (Fin (thresholdOf sensitivity)) = false ->
      result = (None, currentKey, []))
  /\ (finalKey = currentKey -> result = (None, currentKey, []))
  /\ (forall e, fst (fst result) = Some e ->
      key e = finalKey /\ currentKey' = finalKey /\ finalKey ≠ currentKey
      /\ xge finalScore (Fin (thresholdOf sensitivity)) = true)
  /\ detectKeyEnsemble noteBuffer sensitivity currentKey' = (None, currentKey', [])
  /\ (forall n, feed sensitivity currentKey (replicate (S n) noteBuffer) = currentKey').
Proof.
  intros finalKey finalScore result currentKey'.
  split; [repeat split|].
  assert (Hcases : totalOf (countNotes noteBuffer) = 0%Z
                   \/ totalOf (countNotes noteBuffer) ≠ 0%Z) by (destruct (decide (totalOf (countNotes noteBuffer) = 0%Z)); auto).
  split; [|split; [|split; [|split]]].
  - intros Hlow. subst result. destruct Hcases as [Ht | Ht]; [by apply detect_silent|].
    rewrite detect_unfold by done. cbv zeta. fold finalScore. by rewrite Hlow.
  - intros Hsame. subst result. destruct Hcases as [Ht | Ht]; [by apply detect_silent|].
    rewrite detect_unfold by done. cbv zeta. fold finalKey.
    rewrite (bool_decide_eq_true_2 _ Hsame), andb_false_r. reflexivity.
  - intros e. subst currentKey' result. destruct Hcases as [Ht | Ht].
    { rewrite detect_silent by done. discriminate. }
    rewrite detect_unfold by done. cbv zeta. subst finalKey finalScore.
    generalize (snd (tally (normalize (countNotes noteBuffer)
                                      (totalOf (countNotes noteBuffer))))).
    generalize (winnerOf noteBuffer). intros [[finalKey finalScore] agreement] results.
    cbn [fst snd].
    destruct (xge finalScore _) eqn:Hge; [|discriminate].
    case_bool_decide as Hk; [discriminate|]. cbn [andb negb fst snd].
    intros He. apply (f_equal (fun o => key <$> o)) in He. cbn in He.
    injection He as <-. done.
  - apply detect_stable.
  - intros n. apply feed_repeat.
Qed.

Lemma countNotes_shape noteBuffer :
  length (countNotes noteBuffer) = 12%nat
  /\ Forall (fun c => (0 <= c)%Z) (countNotes noteBuffer).
Proof.
  unfold countNotes.
  assert (Hgen : forall l : list Z,
             length l = 12%nat -> Forall (fun c => (0 <= c)%Z) l ->
             length (fold_left (fun counts ev => alter Z.succ (note ev mod 12)%nat counts)
                               noteBuffer l) = 12%nat
             /\ Forall (fun c => (0 <= c)%Z)
                  (fold_left (fun counts ev => alter Z.succ (note ev mod 12)%nat counts)
                             noteBuffer l)).
  { induction noteBuffer as [|ev buf IH]; intros l Hl Hnn; simpl; [done|].
    apply IH.
    - by rewrite length_alter.
    - apply Forall_alter; [done|]. intros x _ Hx. lia. }
  apply Hgen; [reflexivity|]. apply Forall_replicate. lia.
Qed.

Lemma product_bounds (n r M : Q) :
  0 <= n -> 0 <= r -> r <= M -> 0 <= n * r /\ n * r <= n * M.
Proof. intros Hn Hr HM. split; nra. Qed.

Lemma sum_of_shares (t c0 c1 c2 c3 c4 c5 c6 c7 c8 c9 c10 c11 : Q) :
  0 < t -> t == c0 + c1 + c2 + c3 + c4 + c5 + c6 + c7 + c8 + c9 + c10 + c11 ->
  c0 / t + c1 / t + c2 / t + c3 / t + c4 / t + c5 / t + c6 / t + c7 / t
  + c8 / t + c9 / t + c10 / t + c11 / t == 1.
Proof. intros Hpos Ht. field_simplify_eq; [rewrite Ht; ring | lra]. Qed.

Lemma weighted_mean_bounds (M n0 n1 n2 n3 n4 n5 n6 n7 n8 n9 n10 n11
                              r0 r1 r2 r3 r4 r5 r6 r7 r8 r9 r10 r11 : Q) :
  0 <= n0 -> 0 <= n1 -> 0 <= n2 -> 0 <= n3 -> 0 <= n4 -> 0 <= n5 ->
  0 <= n6 -> 0 <= n7 -> 0 <= n8 -> 0 <= n9 -> 0 <= n10 -> 0 <= n11 ->
  n0 + n1 + n2 + n3 + n4 + n5 + n6 + n7 + n8 + n9 + n10 + n11 == 1 ->
  Forall (fun x => 0 <= x /\ x <= M) [r0; r1; r2; r3; r4; r5; r6; r7; r8; r9; r10; r11] ->
  0 <= 0 + n0 * r0 + n1 * r1 + n2 * r2 + n3 * r3 + n4 * r4 + n5 * r5 + n6 * r6
       + n7 * r7 + n8 * r8 + n9 * r9 + n10 * r10 + n11 * r11
  /\ 0 + n0 * r0 + n1 * r1 + n2 * r2 + n3 * r3 + n4 * r4 + n5 * r5 + n6 * r6
       + n7 * r7 + n8 * r8 + n9 * r9 + n10 * r10 + n11 * r11 <= M.
Proof.
  intros H0 H1 H2 H3 H4 H5 H6 H7 H8 H9 H10 H11 Hsum Hr.
  repeat (apply Forall_cons in Hr as [[? ?] Hr]).
  pose proof (product_bounds n0 r0 M) as [? ?]; [done..|].
  pose proof (product_bounds n1 r1 M) as [? ?]; [done..|].
  pose proof (product_bounds n2 r2 M) as [? ?]; [done..|].
  pose proof (product_bounds n3 r3 M) as [? ?]; [done..|].
  pose proof (product_bounds n4 r4 M) as [? ?]; [done..|].
  pose proof (product_bounds n5 r5 M) as [? ?]; [done..|].
  pose proof (product_bounds n6 r6 M) as [? ?]; [done..|].
  pose proof (product_bounds n7 r7 M) as [? ?]; [done..|].
  pose proof (product_bounds n8 r8 M) as [? ?]; [done..|].
  pose proof (product_bounds n9 r9 M) as [? ?]; [done..|].
  pose proof (product_bounds n10 r10 M) as [? ?]; [done..|].
  pose proof (product_bounds n11 r11 M) as [? ?]; [done..|].
  assert (HM : (n0 + n1 + n2 + n3 + n4 + n5 + n6 + n7 + n8 + n9 + n10 + n11) * M == M)
    by (rewrite Hsum; ring).
  split; lra.
Qed.

Lemma scoreOf_bounds (noteCounts : list Z) (rotated : list Q) (M : Q) :
  length noteCounts = 12%nat ->
  Forall (fun c => (0 <= c)%Z) noteCounts ->
  totalOf noteCounts ≠ 0%Z ->
  length rotated = 12%nat ->
  Forall (fun x => 0 <= x /\ x <= M) rotated ->
  0 <= scoreOf (normalize noteCounts (totalOf noteCounts)) rotated
  /\ scoreOf (normalize noteCounts (totalOf noteCounts)) rotated <= M.
Proof.
  intros Hlc Hnn Ht Hlr Hr.
  destruct noteCounts as [|c0 [|c1 [|c2 [|c3 [|c4 [|c5 [|c6 [|c7 [|c8 [|c9 [|c10 [|c11 [|]]]]]]]]]]]]];
    try discriminate Hlc.
  destruct rotated as [|r0 [|r1 [|r2 [|r3 [|r4 [|r5 [|r6 [|r7 [|r8 [|r9 [|r10 [|r11 [|]]]]]]]]]]]]];
    try discriminate Hlr.
  repeat (apply Forall_cons in Hnn as [? Hnn]).
  unfold totalOf in *. simpl in Ht. simpl fold_left.
  set (T := (0 + c0 + c1 + c2 + c3 + c4 + c5 + c6 + c7 + c8 + c9 + c10 + c11)%Z) in *.
  assert (HT : 0 < inject_Z T).
  { change 0 with (inject_Z 0). rewrite <- Zlt_Qlt. subst T. lia. }
  assert (Hdiv : forall c, (0 <= c)%Z -> 0 <= inject_Z c / inject_Z T).
  { intros c Hc. apply Qle_shift_div_l; [done|]. rewrite Qmult_0_l.
    change 0 with (inject_Z 0). by rewrite <- Zle_Qle. }
  assert (Ht' : inject_Z T == inject_Z c0 + inject_Z c1 + inject_Z c2 + inject_Z c3
                               + inject_Z c4 + inject_Z c5 + inject_Z c6 + inject_Z c7
                               + inject_Z c8 + inject_Z c9 + inject_Z c10 + inject_Z c11).
  { subst T. rewrite !inject_Z_plus. ring. }
  unfold scoreOf, normalize. simpl.
  apply weighted_mean_bounds; auto.
  by apply sum_of_shares.
Qed.

Lemma rotate_shape (P : Q -> Prop) (profileData : list Q) (root : nat) :
  length profileData = 12%nat -> (root <= 12)%nat -> Forall P profileData ->
  length (rotate profileData root) = 12%nat /\ Forall P (rotate profileData root).
Proof.
  intros Hl Hroot HP. unfold rotate. split.
  - rewrite length_app, length_drop, length_take. lia.
  - apply Forall_app. split; [by apply Forall_drop | by apply Forall_take].
Qed.

Lemma candidates_in_range : Forall (fun cand => (fst cand <= 12)%nat) candidates.
Proof. unfold candidates. simpl. repeat constructor; simpl; lia. Qed.

Section BestKey.
Variable profile : profilePair.
Variable M : Q.
Variable noteCounts : list Z.
Hypothesis major_length : length (major profile) = 12%nat.
Hypothesis minor_length : length (minor profile) = 12%nat.
Hypothesis major_bounds : Forall (fun x => 0 <= x /\ x <= M) (major profile).
Hypothesis minor_bounds : Forall (fun x => 0 <= x /\ x <= M) (minor profile).
Hypothesis counts_length : length noteCounts = 12%nat.
Hypothesis counts_nonneg : Forall (fun c => (0 <= c)%Z) noteCounts.
Hypothesis counts_total : totalOf noteCounts ≠ 0%Z.

Lemma bestStep_settled acc cand :
  (fst cand <= 12)%nat ->
  (acc = (None, NegInfinity)
   \/ exists k b, acc = (Some k, Fin b) /\ 0 <= b /\ b <= M) ->
  exists k b, bestStep profile (normalize noteCounts (totalOf noteCounts)) acc cand = (Some k, Fin b) /\ 0 <= b /\ b <= M.
Proof using All.
  intros Hroot Hacc. destruct cand as [root isMinor]. simpl in Hroot.
  assert (Hscore : 0 <= scoreOf (normalize noteCounts (totalOf noteCounts))
                          (rotate (if isMinor then minor profile else major profile) root)
                   /\ scoreOf (normalize noteCounts (totalOf noteCounts))
                        (rotate (if isMinor then minor profile else major profile) root) <= M).
  { destruct (rotate_shape (fun x => 0 <= x /\ x <= M)
                (if isMinor then minor profile else major profile) root) as [Hl HP];
      [by destruct isMinor | done | by destruct isMinor |].
    by apply scoreOf_bounds. }
  destruct Hacc as [-> | (k & b & -> & Hb)]; unfold bestStep.
  - simpl. eauto.
  - destruct (xgt _ _); eauto.
Qed.

Lemma bestFold_settled cands acc :
  Forall (fun cand => (fst cand <= 12)%nat) cands ->
  (exists k b, acc = (Some k, Fin b) /\ 0 <= b /\ b <= M) ->
  exists k b, fold_left (bestStep profile (normalize noteCounts (totalOf noteCounts))) cands acc = (Some k, Fin b)
              /\ 0 <= b /\ b <= M.
Proof using All.
  intros Hc. revert acc. induction Hc as [|cand cands Hcand Hc IH]; intros acc Hacc.
  - exact Hacc.
  - cbn [fold_left]. apply IH. apply bestStep_settled; auto.
Qed.

Lemma bestKeyOf_settled :
  exists k b, bestKeyOf profile (normalize noteCounts (totalOf noteCounts)) = (Some k, Fin b) /\ 0 <= b /\ b <= M.
Proof using All.
  unfold bestKeyOf. pose proof candidates_in_range as Hc.
  destruct candidates as [|cand cands] eqn:E; [discriminate E|].
  apply Forall_cons in Hc as [Hcand Hc]. cbn [fold_left].
  apply bestFold_settled; [done|]. apply bestStep_settled; auto.
Qed.
End BestKey.

(** The entries of [keyVotes] after some profiles have voted: every
    weighted score is a number in [0, B] and every vote count is in
    [1, K]. *)
Lemma castVote_bounds (profileName k : string) (w b M B : Q) (K : Z)
    (keyVotes : list (string * vote)) :
  0 <= w -> 0 <= b -> b <= M -> 0 <= B -> (0 <= K)%Z ->
  Forall (fun kv => exists q, weightedScore (snd kv) = Fin q /\ 0 <= q /\ q <= B
                              /\ (1 <= voteCount (snd kv) <= K)%Z) keyVotes ->
  castVote profileName w (Some k) (Fin b) keyVotes ≠ []
  /\ Forall (fun kv => exists q, weightedScore (snd kv) = Fin q /\ 0 <= q /\ q <= B + w * M
                                 /\ (1 <= voteCount (snd kv) <= K + 1)%Z)
       (castVote profileName w (Some k) (Fin b) keyVotes).
Proof.
  intros Hw Hb HbM HB HK Hvotes.
  assert (Hwb : 0 <= w * b /\ w * b <= w * M) by (split; nra).
  unfold castVote, updateVote. change (propertyName (Some k)) with k.
  set (f := fun v => mkVote (xadd (weightedScore v) (xscale w (Fin b)))
                            (voteCount v + 1) (profiles v ++ [profileName])).
  set (g := fun kv : string * vote =>
              if String.eqb (fst kv) k then (fst kv, f (snd kv)) else kv).
  assert (Hold : Forall (fun kv => exists q, weightedScore (snd kv) = Fin q /\ 0 <= q
                                    /\ q <= B + w * M
                                    /\ (1 <= voteCount (snd kv) <= K + 1)%Z)
                   (map g keyVotes)).
  { apply Forall_fmap. eapply Forall_impl; [exact Hvotes|].
    intros [k' v] (q & Hq & Hq0 & HqB & Hc). unfold g, compose. cbn [fst snd] in *.
    destruct (String.eqb k' k); cbn [fst snd f weightedScore voteCount].
    - rewrite Hq. cbn [xscale xadd]. exists (q + w * b). repeat split; try lra; lia.
    - exists q. repeat split; try done; try lra; lia. }
  destruct (lookupVote k keyVotes) as [v|] eqn:Hl.
  - split; [|exact Hold].
    destruct keyVotes; [discriminate Hl | discriminate].
  - rewrite map_app. split; [intros Hnil%app_eq_nil; destruct Hnil; discriminate|].
    apply Forall_app. split; [exact Hold|].
    constructor; [|constructor]. unfold g. cbn [fst snd]. rewrite String.eqb_refl.
    cbn [fst snd f weightedScore voteCount xscale xadd].
    exists (0 + w * b). repeat split; try lra; lia.
Qed.

Lemma finalOf_bounds (B : Q) (K : Z) (keyVotes : list (string * vote)) :
  keyVotes ≠ [] ->
  Forall (fun kv => exists q, weightedScore (snd kv) = Fin q /\ 0 <= q /\ q <= B
                              /\ (1 <= voteCount (snd kv) <= K)%Z) keyVotes ->
  exists k q a, finalOf keyVotes = (Some k, Fin q, a) /\ 0 <= q /\ q <= B /\ (1 <= a <= K)%Z.
Proof.
  intros Hne Hvotes. unfold finalOf.
  assert (Hfold : forall votes,
             Forall (fun kv => exists q, weightedScore (snd kv) = Fin q /\ 0 <= q /\ q <= B
                                         /\ (1 <= voteCount (snd kv) <= K)%Z) votes ->
             forall acc,
             (exists k q a, acc = (Some k, Fin q, a) /\ 0 <= q /\ q <= B /\ (1 <= a <= K)%Z) ->
             exists k q a, fold_left finalStep votes acc = (Some k, Fin q, a)
                           /\ 0 <= q /\ q <= B /\ (1 <= a <= K)%Z).
  { induction 1 as [|[k v] votes (q & Hq & Hb) _ IH]; intros acc (k0 & q0 & a0 & -> & Hacc).
    - eauto.
    - cbn [fold_left]. apply IH. unfold finalStep. cbn [snd] in *.
      destruct (xgt _ _); [rewrite Hq|]; eauto 10. }
  destruct Hvotes as [|[k v] votes (q & Hq & Hb) Hrest]; [done|].
  cbn [fold_left]. apply Hfold; [done|].
  unfold finalStep. cbn [snd] in *. rewrite Hq. cbn [xgt]. eauto 10.
Qed.

Lemma profile_shapes :
  (length (major ALBRECHT_SHANAHAN_PROFILES) = 12%nat
   /\ length (minor ALBRECHT_SHANAHAN_PROFILES) = 12%nat
   /\ Forall (fun x => 0 <= x /\ x <= 0.238) (major ALBRECHT_SHANAHAN_PROFILES)
   /\ Forall (fun x => 0 <= x /\ x <= 0.238) (minor ALBRECHT_SHANAHAN_PROFILES))
  /\ (length (major TEMPERLEY_PROFILES) = 12%nat
      /\ length (minor TEMPERLEY_PROFILES) = 12%nat
      /\ Forall (fun x => 0 <= x /\ x <= 0.179) (major TEMPERLEY_PROFILES)
      /\ Forall (fun x => 0 <= x /\ x <= 0.179) (minor TEMPERLEY_PROFILES))
  /\ (length (major KRUMHANSL_KESSLER_PROFILES) = 12%nat
      /\ length (minor KRUMHANSL_KESSLER_PROFILES) = 12%nat
      /\ Forall (fun x => 0 <= x /\ x <= 0.152) (major KRUMHANSL_KESSLER_PROFILES)
      /\ Forall (fun x => 0 <= x /\ x <= 0.152) (minor KRUMHANSL_KESSLER_PROFILES)).
Proof.
  repeat split; try reflexivity;
    cbn [major minor ALBRECHT_SHANAHAN_PROFILES TEMPERLEY_PROFILES KRUMHANSL_KESSLER_PROFILES];
    repeat constructor; lra.
Qed.

(** The greatest weighted score a key can collect: all three sources
    vote for it with their greatest possible score. *)
Lemma tally_bounds (noteCounts : list Z) :
  length noteCounts = 12%nat ->
  Forall (fun c => (0 <= c)%Z) noteCounts ->
  totalOf noteCounts ≠ 0%Z ->
  fst (tally (normalize noteCounts (totalOf noteCounts))) ≠ []
  /\ Forall (fun kv => exists q, weightedScore (snd kv) = Fin q /\ 0 <= q /\ q <= 0.20015
                                 /\ (1 <= voteCount (snd kv) <= 3)%Z)
       (fst (tally (normalize noteCounts (totalOf noteCounts)))).
Proof.
  intros Hl Hnn Ht.
  destruct profile_shapes as ((A1 & A2 & A3 & A4) & (T1 & T2 & T3 & T4) & (K1 & K2 & K3 & K4)).
  destruct (bestKeyOf_settled ALBRECHT_SHANAHAN_PROFILES 0.238 noteCounts)
    as (k1 & b1 & E1 & Hb1 & Hb1'); try done.
  destruct (bestKeyOf_settled TEMPERLEY_PROFILES 0.179 noteCounts)
    as (k2 & b2 & E2 & Hb2 & Hb2'); try done.
  destruct (bestKeyOf_settled KRUMHANSL_KESSLER_PROFILES 0.152 noteCounts)
    as (k3 & b3 & E3 & Hb3 & Hb3'); try done.
  unfold tally, ENSEMBLE_CONFIG_profiles. cbn [fold_left]. unfold profileStep.
  cbn [data weight]. rewrite E1, E2, E3. cbn [fst].
  set (v1 := castVote "albrecht_shanahan" 0.45 (Some k1) (Fin b1) []).
  set (v2 := castVote "temperley" 0.35 (Some k2) (Fin b2) v1).
  destruct (castVote_bounds "albrecht_shanahan" k1 0.45 b1 0.238 0 0 [])
    as [_ H1]; try done; try lra. fold v1 in H1.
  destruct (castVote_bounds "temperley" k2 0.35 b2 0.179 (0 + 0.45 * 0.238) (0 + 1) v1)
    as [_ H2]; try done; try lra. fold v2 in H2.
  destruct (castVote_bounds "krumhansl_kessler" k3 0.20 b3 0.152
              (0 + 0.45 * 0.238 + 0.35 * 0.179) (0 + 1 + 1) v2)
    as [Hne H3]; try done; try lra.
  split; [exact Hne|].
  eapply Forall_impl; [exact H3|].
  intros kv (q & Hq & Hq0 & HqB & Hc). exists q. repeat split; try done; try lra; lia.
Qed.

Lemma winnerOf_bounds noteBuffer :
  totalOf (countNotes noteBuffer) ≠ 0%Z ->
  exists k q a, winnerOf noteBuffer = (Some k, Fin q, a)
                /\ 0 <= q /\ q <= 0.20015 /\ (1 <= a <= 3)%Z.
Proof.
  intros Ht. destruct (countNotes_shape noteBuffer) as [Hl Hnn].
  destruct (tally_bounds _ Hl Hnn Ht) as [Hne Hvotes].
  unfold winnerOf. cbv zeta. by apply finalOf_bounds.
Qed.

Lemma round_bounds (x : Q) (lo hi : Z) :
  inject_Z lo <= x -> x <= inject_Z hi ->
  (lo <= Qfloor (x + (1 # 2)) <= hi)%Z.
Proof.
  intros Hlo Hhi. split.
  - rewrite <- (Qfloor_Z lo). apply Qfloor_resp_le. lra.
  - assert (Qfloor (x + (1 # 2)) < hi + 1)%Z; [|lia].
    rewrite Zlt_Qlt. eapply Qle_lt_trans; [apply Qfloor_le|].
    rewrite inject_Z_plus. change (inject_Z 1) with 1. lra.
Qed.

Lemma round_is_nearest (x : Q) :
  x - (1 # 2) < inject_Z (Qfloor (x + (1 # 2))) /\ inject_Z (Qfloor (x + (1 # 2))) <= x + (1 # 2).
Proof.
  split; [|apply Qfloor_le].
  pose proof (Qlt_floor (x + (1 # 2))) as H. rewrite inject_Z_plus in H.
  change (inject_Z 1) with 1 in H. lra.
Qed.

(** C4 (as the code has it).  The confidence of a returned estimate is
    [Math.round (score * 400 * bonus)], the integer nearest to the
    product, with bonus 1.2, 1.0 or 0.8 for an agreement of 3, 2 or 1;
    the agreement count is 1, 2 or 3.  No clamp is applied: the value
    is within [0,100] for every buffer, so clamping it would change
    nothing. *)
Theorem confidence_is_rounded_and_bounded
    (noteBuffer : list noteEvent) (sensitivity : string) (currentKey : option string)
    (e : estimate) :
  fst (fst (detectKeyEnsemble noteBuffer sensitivity currentKey)) = Some e ->
  exists (score bonus : Q) (c : Z),
    snd (fst (winnerOf noteBuffer)) = Fin score
    /\ agreement e = snd (winnerOf noteBuffer)
    /\ ((agreement e = 3%Z /\ bonus = 1.2) \/ (agreement e = 2%Z /\ bonus = 1.0)
        \/ (agreement e = 1%Z /\ bonus = 0.8))
    /\ confidence e = Fin (inject_Z c)
    /\ c = Qfloor (score * 400 * bonus + (1 # 2))
    /\ inject_Z c - (1 # 2) <= score * 400 * bonus
    /\ score * 400 * bonus < inject_Z c + (1 # 2)
    /\ (0 <= c <= 100)%Z
    /\ Z.max 0 (Z.min 100 c) = c.
Proof.
  intros He.
  destruct (decide (totalOf (countNotes noteBuffer) = 0%Z)) as [Ht | Ht].
  { rewrite detect_silent in He by done. discriminate He. }
  rewrite detect_unfold in He by done. cbv zeta in He.
  destruct (winnerOf_bounds noteBuffer Ht) as (k & q & a & Hw & Hq0 & HqB & Ha).
  revert He.
  generalize (snd (tally (normalize (countNotes noteBuffer)
                                    (totalOf (countNotes noteBuffer))))).
  rewrite Hw. cbn [fst snd]. intros results He.
  destruct (xge (Fin q) _ && negb (bool_decide (Some k = currentKey))); [|discriminate He].
  cbn [fst] in He. injection He as <-. cbn [agreement confidence].
  exists q, (agreementBonusOf a), (Qfloor (q * 400 * agreementBonusOf a + (1 # 2))).
  assert (Hbonus : (a = 3%Z /\ agreementBonusOf a = 1.2)
                   \/ (a = 2%Z /\ agreementBonusOf a = 1.0)
                   \/ (a = 1%Z /\ agreementBonusOf a = 0.8)).
  { assert (a = 1 \/ a = 2 \/ a = 3)%Z as [-> | [-> | ->]] by lia; auto. }
  assert (Hprod : 0 <= q * 400 * agreementBonusOf a
                  /\ q * 400 * agreementBonusOf a <= 100).
  { destruct Hbonus as [[_ ->] | [[_ ->] | [_ ->]]]; split; lra. }
  destruct Hprod as [Hp0 Hp100].
  pose proof (round_is_nearest (q * 400 * agreementBonusOf a)) as [Hn1 Hn2].
  pose proof (round_bounds (q * 400 * agreementBonusOf a) 0 100 Hp0 Hp100) as Hc.
  repeat split; try done; try lra; try lia.
Qed.

Lemma confidence_is_rounded_and_bounded_witness :
  exists e, fst (fst (detectKeyEnsemble cMajorScale "medium" None)) = Some e
            /\ exists c, confidence e = Fin (inject_Z c) /\ (0 <= c <= 100)%Z.
Proof.
  eexists. split; [vm_compute; reflexivity|].
  edestruct (confidence_is_rounded_and_bounded cMajorScale "medium" None)
    as (score & bonus & c & _ & _ & _ & Hc & _ & _ & _ & Hr & _).
  - vm_compute. reflexivity.
  - exists c. split; [exact Hc | exact Hr].
Defined.

(** Against C4 as stated: for the C major scale the product
    score * 400 * bonus is 65.364, which is inside [0,100], and the
    confidence returned is 65. *)
Lemma confidence_differs_from_clamped_product :
  exists e score,
    fst (fst (detectKeyEnsemble cMajorScale "medium" None)) = Some e
    /\ snd (fst (winnerOf cMajorScale)) = Fin score
    /\ agreement e = 3%Z
    /\ score * 400 * 1.2 == 65.364
    /\ Qmax 0 (Qmin 100 (score * 400 * 1.2)) == 65.364
    /\ confidence e = Fin 65
    /\ ~ 65 == Qmax 0 (Qmin 100 (score * 400 * 1.2)).
Proof.
  eexists. eexists.
  split; [vm_compute; reflexivity|].
  split; [vm_compute; reflexivity|].
  split; [reflexivity|].
  split; [vm_compute; reflexivity|].
  split; [vm_compute; reflexivity|].
  split; [reflexivity|].
  vm_compute. discriminate.
Qed.

Lemma no_estimate_below_threshold_or_unchanged_witness :
  detectKeyEnsemble chromaticCluster "low" None = (None, None, [])
  /\ detectKeyEnsemble cMajorScale "medium" (Some "C"%string) = (None, Some "C"%string, [])
  /\ (exists e, fst (fst (detectKeyEnsemble cMajorScale "medium" None)) = Some e
                /\ key e = Some "C"%string).
Proof.
  split; [|split].
  - apply (proj1 (proj2 (no_estimate_below_threshold_or_unchanged
                           chromaticCluster "low" None))).
    vm_compute. reflexivity.
  - apply (proj1 (proj2 (proj2 (no_estimate_below_threshold_or_unchanged
                                  cMajorScale "medium" (Some "C"%string))))).
    vm_compute. reflexivity.
  - eexists. split; [vm_compute; reflexivity|].
    eapply eq_trans;
      [apply (proj1 (proj2 (proj2 (proj2 (no_estimate_below_threshold_or_unchanged
                                            cMajorScale "medium" None))))) |].
    + vm_compute. reflexivity.
    + vm_compute. reflexivity.
Defined.

End KeyDetectionProofs.

(** ** Predictive tuning (js/main.js) *)

Module ApplyTuningProofs.
Import TuningCore Main.
Local Open Scope R_scope.






End ApplyTuningProofs.

(** ** Capability negotiation (js/tuning-mts.js, script5.js) *)

Module NegotiationProofs.
Import TuningMTS.
Local Open Scope Z_scope.

Lemma sendScaleOctaveTuning_mode out cents now s :
  let r := sendScaleOctaveTuning out cents now s in
  currentTuningMode (snd (fst r)) = currentTuningMode s
  /\ mtsSupported (snd (fst r)) = mtsSupported s
  /\ mtsFallbackRequested (snd (fst r)) = mtsFallbackRequested s
  /\ mtsDetectionAttempted (snd (fst r)) = mtsDetectionAttempted s.
Proof.
  unfold sendScaleOctaveTuning. destruct out as [p|]; [|done].
  destruct (buildScaleOctaveTuning2Byte cents None) as [[msg|] tr]; [|done].
  destruct (sendThrows p msg); done.
Qed.

Lemma equalTemperament_message :
  buildScaleOctaveTuning2Byte equalTemperament None
  = (Some ([0xF0; 0x7F; 0x7F; 0x08; 0x09; 0x03; 0x7F; 0x7F]
             ++ concat (replicate 12 [0x40; 0x00]) ++ [0xF7]), []).
Proof.
  unfold buildScaleOctaveTuning2Byte, equalTemperament.
  cbn [length replicate Nat.eqb negb map concat].
  assert (H : scaleOctaveBytes 0 = [0x40; 0x00]).
  { unfold scaleOctaveBytes.
    assert (Rmax (-100) (Rmin 100 0) = 0%R) as ->.
    { unfold Rmin, Rmax. destruct (Rle_dec 100 0); [lra|]. destruct (Rle_dec (-100) 0); lra. }
    rewrite (TuningCoreProofs.Math_round_eq _ 8192) by lra. reflexivity. }
  rewrite H. reflexivity.
Qed.


Lemma detect_granted_mode (out : port) (localStorage : gmap string string) (now : Z) (s : state) :
  mtsDetectionAttempted s = false ->
  localStorage !! preferenceKey ≠ Some "MPE"%string ->
  rejectsSysEx out = false ->
  currentTuningMode (fst (detectMTSSupport (Some out) true localStorage now s)) = "MTS"%string
  /\ mtsSupported (fst (detectMTSSupport (Some out) true localStorage now s)) = true
  /\ exists msg, sent_messages (snd (detectMTSSupport (Some out) true localStorage now s)) = [msg]
                 /\ isSysEx msg = true.
Proof.
  intros Hfirst Hpref Haccepts. unfold detectMTSSupport. rewrite Hfirst.
  rewrite (bool_decide_eq_true_2 (is_Some (Some out))) by eauto.
  cbn [negb orb]. rewrite (bool_decide_eq_false_2 _ Hpref).
  unfold sendScaleOctaveTuning. rewrite equalTemperament_message.
  unfold sendThrows. rewrite Haccepts. cbn.
  split; [done|]. split; [done|]. eexists. split; reflexivity.
Qed.

Lemma probe_keeps_mode (idWindow dumpWindow : list (list Z)) (p : Prototype.state) :
  Prototype.usesSysEx (fst (Prototype.afterOutputSelected true true idWindow dumpWindow p))
  = Prototype.usesSysEx p.
Proof.
  unfold Prototype.afterOutputSelected, Prototype.probeIdentity.
  cbn [negb orb].
  destruct (Prototype.waitForSysex _ _ idWindow); reflexivity.
Qed.

(** C9 (as the code has it).  Without SysEx permission the mode goes
    directly to MPE and no message is sent.  With it, a persisted "MPE"
    preference gives MPE, again without sending anything, and a later
    session started after [switchToMPEMode] ends like one without
    permission.  Otherwise, on a port that accepts the message, the
    mode is MTS at once, without a probe and without waiting for a
    reply: one scale/octave SysEx message is sent, the equal-tempered
    table.  In the probing code of the prototype an
    identity reply records the device id of the reply, which then is
    byte 2 of every single-note tuning message; without a reply the
    device id stays as it was; and in both cases the choice between
    SysEx and pitch bend is what it was before the probe. *)
Theorem negotiation_outcomes
    (out : port) (localStorage : gmap string string) (now : Z) (s : state)
    (idWindow dumpWindow : list (list Z)) (p : Prototype.state) :
  mtsDetectionAttempted s = false ->
  let denied := fst (detectMTSSupport (Some out) false localStorage now s) in
  let granted := detectMTSSupport (Some out) true localStorage now s in
  let probed := fst (Prototype.afterOutputSelected true true idWindow dumpWindow p) in
  (currentTuningMode denied = "MPE"%string /\ mtsSupported denied = false
   /\ sent_messages (snd (detectMTSSupport (Some out) false localStorage now s)) = [])
  /\ (localStorage !! preferenceKey = Some "MPE"%string ->
      currentTuningMode (fst granted) = "MPE"%string /\ mtsSupported (fst granted) = false
      /\ sent_messages (snd granted) = [])
  /\ (localStorage !! preferenceKey ≠ Some "MPE"%string -> rejectsSysEx out = false ->
      currentTuningMode (fst granted) = "MTS"%string /\ mtsSupported (fst granted) = true
      /\ exists msg, sent_messages (snd granted) = [msg] /\ isSysEx msg = true)
  /\ (forall s0, 
        fst (detectMTSSupport (Some out) true
               (snd (fst (switchToMPEMode (Some out) localStorage s0))) now s)
        = fst (detectMTSSupport (Some out) false localStorage now s))
  /\ (forall reply,
        Prototype.waitForSysex true Prototype.identityReplyMatches idWindow = Some reply ->
        Prototype.lastDeviceId probed = Z.land (default 0 (reply !! 2%nat)) 0x7F
        /\ forall n cents,
            Prototype.createMtsSysex probed n cents !! 2%nat
            = Some (Z.land (default 0 (reply !! 2%nat)) 0x7F))
  /\ (Prototype.waitForSysex true Prototype.identityReplyMatches idWindow = None ->
      Prototype.lastDeviceId probed = Prototype.lastDeviceId p)
  /\ Prototype.usesSysEx probed = Prototype.usesSysEx p.
Proof.
  intros Hfirst denied granted probed.
  split.
  { subst denied. unfold detectMTSSupport. rewrite Hfirst. cbn. done. }
  split.
  { intros Hpref. subst granted. unfold detectMTSSupport. rewrite Hfirst. cbn.
    rewrite (bool_decide_eq_true_2 _ Hpref). cbn. done. }
  split.
  { intros Hpref Haccepts. subst granted. by apply detect_granted_mode. }
  split.
  { intros s0. unfold switchToMPEMode. cbn [fst snd].
    unfold detectMTSSupport. rewrite Hfirst.
    rewrite (bool_decide_eq_true_2 (is_Some (Some out))) by eauto.
    cbn [negb orb]. rewrite lookup_insert_eq.
    rewrite (bool_decide_eq_true_2 _ eq_refl). reflexivity. }
  split.
  { intros reply Hreply. subst probed.
    unfold Prototype.afterOutputSelected, Prototype.probeIdentity.
    cbn [negb orb]. rewrite Hreply.
    unfold Prototype.probeMtsDump. cbn [negb orb fst Prototype.lastDeviceId].
    split; [reflexivity|]. intros n cents.
    unfold Prototype.createMtsSysex. cbn [Prototype.lastDeviceId].
    destruct (_ =? 16384); cbn [lookup list_lookup];
      rewrite <- Z.land_assoc; reflexivity. }
  split.
  { intros Hnone. subst probed.
    unfold Prototype.afterOutputSelected, Prototype.probeIdentity.
    cbn [negb orb]. rewrite Hnone. reflexivity. }
  subst probed. apply probe_keeps_mode.
Qed.

Lemma negotiation_outcomes_witness :
  currentTuningMode (fst (detectMTSSupport (Some (mkPort false)) true
                            {[ preferenceKey := "MPE"%string ]} 0 initialState)) = "MPE"%string
  /\ currentTuningMode (fst (detectMTSSupport (Some (mkPort false)) true ∅ 0 initialState))
     = "MTS"%string
  /\ Prototype.lastDeviceId
       (fst (Prototype.afterOutputSelected true true [Prototype.identityReply] [] Prototype.initialState))
     = 0x10
  /\ Prototype.lastDeviceId
       (fst (Prototype.afterOutputSelected true true [] [] Prototype.initialState))
     = 0x7F.
Proof.
  split; [|split; [|split]].
  - apply (proj1 (proj2 (negotiation_outcomes (mkPort false) {[ preferenceKey := "MPE"%string ]}
                           0 initialState [] [] Prototype.initialState eq_refl))).
    reflexivity.
  - apply (proj1 (proj2 (proj2 (negotiation_outcomes (mkPort false) ∅
                                  0 initialState [] [] Prototype.initialState eq_refl))));
      [discriminate | reflexivity].
  - apply (proj1 (proj2 (proj2 (proj2 (proj2
             (negotiation_outcomes (mkPort false) ∅ 0 initialState [Prototype.identityReply] []
                Prototype.initialState eq_refl))))) Prototype.identityReply).
    reflexivity.
  - apply (proj1 (proj2 (proj2 (proj2 (proj2 (proj2
             (negotiation_outcomes (mkPort false) ∅ 0 initialState [] []
                Prototype.initialState eq_refl))))))).
    reflexivity.
Defined.

(** Against C9 as stated: when no reply arrives within the timeouts the
    prototype keeps sending SysEx tuning (the status reads "unknown"),
    and [detectMTSSupport], which sends its one message to an accepting
    port and waits for no reply, ends in MTS, not in MPE. *)
Lemma silent_device_is_not_demoted :
  Prototype.usesSysEx (fst (Prototype.afterOutputSelected true true [] [] Prototype.initialState))
  = true
  /\ Prototype.statusText
       (fst (Prototype.afterOutputSelected true true [] [] Prototype.initialState))
     = "MTS support is unknown. You can run an audible test."%string
  /\ currentTuningMode (fst (detectMTSSupport (Some (mkPort false)) true ∅ 0 initialState))
     = "MTS"%string
  /\ currentTuningMode (fst (detectMTSSupport (Some (mkPort false)) true ∅ 0 initialState))
     ≠ "MPE"%string.
Proof.
  split; [reflexivity|]. split; [reflexivity|].
  destruct (detect_granted_mode (mkPort false) ∅ 0 initialState eq_refl) as (Hmode & _).
  { discriminate. }
  { reflexivity. }
  rewrite Hmode. split; [reflexivity | discriminate].
Qed.

End NegotiationProofs.

(** ** Ranges and round trips of the tuning arithmetic (js/tuning-core.js) *)

Module TuningRangeProofs.
Import TuningCore TuningCoreProofs.
Local Open Scope R_scope.

Lemma Math_round_IZR (z : Z) : Math_round (IZR z) = z.
Proof. apply Math_round_eq. lra. Qed.

Lemma Math_round_bounds (x : R) : x - 1 / 2 < IZR (Math_round x) <= x + 1 / 2.
Proof.
  unfold Math_round. pose proof (Zfloor_bound (x + 1 / 2)). lra.
Qed.

Lemma Math_round_mono (x y : R) : x <= y -> (Math_round x <= Math_round y)%Z.
Proof.
  intros H. unfold Math_round. apply Zfloor_le. lra.
Qed.

Lemma cents_of_bend_of_cents (cents : R) :
  -200 <= cents <= 199.98 ->
  Rabs (pitchBendToCents (centsToPitchBend cents) - cents) <= 200 / 16384.
Proof.
  intros Hc. unfold centsToPitchBend, pitchBendToCents.
  pose proof (Math_round_bounds (cents / 200 * 8192)) as Hb.
  assert (Hlo : (-8192 <= Math_round (cents / 200 * 8192))%Z).
  { rewrite <- (Math_round_IZR (-8192)). apply Math_round_mono. lra. }
  assert (Hhi : (Math_round (cents / 200 * 8192) <= 8191)%Z).
  { apply Z.lt_succ_r. change (Z.succ 8191) with 8192%Z. apply lt_IZR. lra. }
  rewrite Z.min_r, Z.max_r by lia.
  apply Rabs_le. lra.
Qed.

(** X1.  [centsToPitchBend] and [pitchBendToCents] are inverse to each other
    up to the resolution of the pitch bend: every bend value in
    -8192..8191 is recovered exactly from its cents, and every
    deviation from -200 to 199.98 cents is recovered from its bend
    value within 200/16384 cents. *)
Theorem pitch_bend_cents_round_trip :
  (forall pitchBend : Z,
      (-8192 <= pitchBend <= 8191)%Z ->
      centsToPitchBend (pitchBendToCents pitchBend) = pitchBend)
  /\ (forall cents : R,
        -200 <= cents <= 199.98 ->
        Rabs (pitchBendToCents (centsToPitchBend cents) - cents) <= 200 / 16384).
Proof.
  split.
  - intros pitchBend Hx. unfold centsToPitchBend, pitchBendToCents.
    replace (IZR pitchBend / 8192 * 200 / 200 * 8192) with (IZR pitchBend) by field.
    rewrite Math_round_IZR. lia.
  - apply cents_of_bend_of_cents.
Qed.

Lemma cents_bracket (a b i : Z) :
  (0 < a)%Z -> (0 < b)%Z -> (1 <= i)%Z ->
  (2 ^ (50 * i - 8) * b ^ 600 < a ^ 600)%Z ->
  (a ^ 600 < 2 ^ (50 * i + 9) * b ^ 600)%Z ->
  -16 < ratioToCentsDeviation (IZR a / IZR b) i < 18.
Proof.
  intros Ha Hb Hi Hlo Hhi.
  pose proof (log2_ratio_gt a b (Z.to_nat (50 * i - 8)) 600) as Hg.
  pose proof (log2_ratio_lt a b (Z.to_nat (50 * i + 9)) 600) as Hl.
  rewrite !INR_IZR_INZ, !Z2Nat.id in Hg, Hl by lia.
  change (Z.of_nat 600) with 600%Z in Hg, Hl.
  specialize (Hg Ha Hb ltac:(lia) Hlo). specialize (Hl Ha Hb ltac:(lia) Hhi).
  rewrite minus_IZR, mult_IZR in Hg. rewrite plus_IZR, mult_IZR in Hl.
  unfold ratioToCentsDeviation. lra.
Qed.

Ltac bracket a b i :=
  apply (cents_bracket a b i); [lia | lia | lia | |];
  apply Z.ltb_lt; vm_compute; reflexivity.

Lemma interval_cents_bounds (isMinor : bool) (interval : Z) :
  (0 <= interval < 12)%Z ->
  -16 < ratioToCentsDeviation (ratio_or_one (JI_RATIOS isMinor) interval) interval < 18.
Proof.
  intros H.
  assert (interval = 0 \/ interval = 1 \/ interval = 2 \/ interval = 3
          \/ interval = 4 \/ interval = 5 \/ interval = 6 \/ interval = 7
          \/ interval = 8 \/ interval = 9 \/ interval = 10 \/ interval = 11)%Z
    as [-> | [-> | [-> | [-> | [-> | [-> | [-> | [-> | [-> | [-> | [-> | ->]]]]]]]]]]]
    by lia.
  - rewrite ratio_unison. unfold ratioToCentsDeviation. rewrite log2_1. lra.
  - rewrite ratio_minor_second. bracket 16%Z 15%Z 1%Z.
  - destruct isMinor; bracket 9%Z 8%Z 2%Z.
  - destruct isMinor; bracket 6%Z 5%Z 3%Z.
  - destruct isMinor; bracket 5%Z 4%Z 4%Z.
  - destruct isMinor; bracket 4%Z 3%Z 5%Z.
  - destruct isMinor; bracket 45%Z 32%Z 6%Z.
  - destruct isMinor; bracket 3%Z 2%Z 7%Z.
  - destruct isMinor; bracket 8%Z 5%Z 8%Z.
  - destruct isMinor; bracket 5%Z 3%Z 9%Z.
  - destruct isMinor; [bracket 16%Z 9%Z 10%Z | bracket 9%Z 5%Z 10%Z].
  - destruct isMinor; bracket 15%Z 8%Z 11%Z.
Qed.

Lemma note_interval (midiNote keyRoot : Z) :
  (0 <= midiNote)%Z -> (60 <= keyRoot <= 71)%Z ->
  Z.rem (midiNote - keyRoot + 144) 12 = ((midiNote - keyRoot) mod 12)%Z.
Proof.
  intros Hn Hk. rewrite Z.rem_mod_nonneg by lia.
  replace (midiNote - keyRoot + 144)%Z with (midiNote - keyRoot + 12 * 12)%Z by lia.
  by rewrite Z.mod_add.
Qed.

(** X2.  For every MIDI note 0..127 and every key name that is not one of
    the property names inherited from [Object.prototype] (known to
    [KEY_ROOTS] or not), the just-intonation deviation
    [calculateJICentsForNote] is a number strictly between -16 and 18
    cents, so the clamp of [centsToPitchBend] is never hit:
    [calculateJIPitchBend] is the plain rounding of
    [cents / 200 * 8192], lies in -656..738, and stands for the
    deviation within 200/16384 cents.  For an inherited name
    ([constructor], [toString], ...) both are [NaN]. *)
Theorem ji_deviation_never_clamps (midiNote : Z) (keyName : string) :
  (0 <= midiNote <= 127)%Z ->
  (keyName ∉ OBJECT_PROTOTYPE_KEYS ->
   exists (cents : R) (bend : Z),
     calculateJICentsForNote midiNote keyName = Num cents
     /\ calculateJIPitchBend midiNote keyName = Num bend
     /\ -16 < cents < 18
     /\ bend = Math_round (cents / 200 * 8192)
     /\ (-656 <= bend <= 738)%Z
     /\ Rabs (pitchBendToCents bend - cents) <= 200 / 16384)
  /\ (keyName ∈ OBJECT_PROTOTYPE_KEYS ->
      calculateJICentsForNote midiNote keyName = NaN
      /\ calculateJIPitchBend midiNote keyName = NaN).
Proof.
  intros Hn. split.
  - intros Hown. destruct (getKeyRoot_number keyName Hown) as (keyRoot & Hroot & Hk).
    unfold calculateJIPitchBend, calculateJICentsForNote. rewrite Hroot.
    eexists _, _. split; [reflexivity |]. split; [reflexivity |].
    set (cents := ratioToCentsDeviation _ _).
    assert (Hc : -16 < cents < 18).
    { subst cents. apply interval_cents_bounds.
      rewrite note_interval by lia. apply Z.mod_pos_bound. lia. }
    split; [exact Hc |].
    assert (Hacc : Rabs (pitchBendToCents (centsToPitchBend cents) - cents) <= 200 / 16384).
    { apply cents_of_bend_of_cents. lra. }
    unfold centsToPitchBend in *.
    pose proof (Math_round_bounds (cents / 200 * 8192)) as Hb.
    set (r := Math_round _) in *.
    assert (-657 < r < 739)%Z.
    { split; apply lt_IZR; lra. }
    rewrite Z.min_r, Z.max_r in * by lia.
    split; [done |]. split; [lia | exact Hacc].
  - intros Hin. unfold calculateJIPitchBend, calculateJICentsForNote.
    by rewrite (getKeyRoot_inherited keyName Hin).
Qed.

Lemma ji_deviation_never_clamps_witness :
  (exists (cents : R) (bend : Z),
     calculateJICentsForNote 70 "Ebm" = Num cents
     /\ calculateJIPitchBend 70 "Ebm" = Num bend
     /\ -16 < cents < 18
     /\ bend = Math_round (cents / 200 * 8192)
     /\ (-656 <= bend <= 738)%Z
     /\ Rabs (pitchBendToCents bend - cents) <= 200 / 16384)
  /\ calculateJIPitchBend 70 "constructor" = NaN.
Proof.
  split.
  - apply (ji_deviation_never_clamps 70 "Ebm"); [lia | compute_done].
  - apply (ji_deviation_never_clamps 70 "constructor"); [lia | compute_done].
Defined.

Lemma pitch_bend_cents_round_trip_witness :
  centsToPitchBend (pitchBendToCents 481) = 481%Z
  /\ Rabs (pitchBendToCents (centsToPitchBend 11.73) - 11.73) <= 200 / 16384.
Proof.
  split.
  - apply (proj1 pitch_bend_cents_round_trip 481%Z). lia.
  - apply (proj2 pitch_bend_cents_round_trip 11.73). lra.
Defined.

(** X3.  The two tuning paths agree: for a key name that is not inherited
    from [Object.prototype], the entry of the scale/octave table
    ([calculateScaleOctaveTuning] at the key's root and mode, sent by
    the MTS backend) at the pitch class of a note is the per-note
    deviation ([calculateJICentsForNote], used by the MPE backend)
    rounded to a hundredth of a cent. *)
Theorem table_entry_is_rounded_note_cents (midiNote : Z) (keyName : string) :
  (0 <= midiNote <= 127)%Z -> keyName ∉ OBJECT_PROTOTYPE_KEYS ->
  exists (keyRoot : Z) (cents : R),
    getKeyRoot keyName = RootNumber keyRoot
    /\ calculateJICentsForNote midiNote keyName = Num cents
    /\ deviation (midiNote mod 12) keyRoot (isMinorKey keyName)
       = Some (IZR (Math_round (cents * 100)) / 100).
Proof.
  intros Hn Hown.
  destruct (getKeyRoot_number keyName Hown) as (keyRoot & Hroot & Hk).
  unfold calculateJICentsForNote. rewrite Hroot.
  eexists _, _. split; [reflexivity |]. split; [reflexivity |].
  rewrite table_lookup by (apply Z.mod_pos_bound; lia).
  f_equal. unfold scaleOctaveEntry, ratioToCentsDeviation.
  rewrite interval_of_class by (apply Z.mod_pos_bound; lia).
  rewrite note_interval by lia.
  rewrite Zminus_mod_idemp_l. reflexivity.
Qed.

Lemma table_entry_is_rounded_note_cents_witness :
  exists (keyRoot : Z) (cents : R),
    getKeyRoot "C" = RootNumber keyRoot
    /\ calculateJICentsForNote 61 "C" = Num cents
    /\ deviation (61 mod 12) keyRoot (isMinorKey "C")
       = Some (IZR (Math_round (cents * 100)) / 100).
Proof. apply (table_entry_is_rounded_note_cents 61 "C"); [lia | compute_done]. Defined.

Lemma table_entry_bounds (keyRoot : Z) (isMinor : bool) (pc : Z) :
  (0 <= pc < 12)%Z -> -16 <= scaleOctaveEntry keyRoot isMinor pc <= 18.
Proof.
  intros Hpc. unfold scaleOctaveEntry.
  rewrite interval_of_class by done.
  pose proof (interval_cents_bounds isMinor ((pc - keyRoot) mod 12)
                ltac:(apply Z.mod_pos_bound; lia)) as Hb.
  unfold ratioToCentsDeviation in Hb.
  set (d := 1200 * log2 _ - _) in *.
  pose proof (Math_round_bounds (d * 100)) as Hr.
  set (r := Math_round _) in *.
  assert (-1601 < r < 1801)%Z by (split; apply lt_IZR; lra).
  assert (IZR (-1600) <= IZR r <= IZR 1800) by (split; apply IZR_le; lia).
  lra.
Qed.

End TuningRangeProofs.

(** ** The table shown to the user (js/tuning-core.js) *)

Module TuningTableProofs.
Import TuningCore TuningTable TuningCoreProofs TuningRangeProofs.
Local Open Scope R_scope.

Lemma interval_above_root (keyRoot : Z) (i : Z) :
  (0 <= i < 12)%Z -> (((keyRoot + i) mod 12 - keyRoot) mod 12 = i)%Z.
Proof.
  intros Hi. rewrite Zminus_mod_idemp_l.
  replace (keyRoot + i - keyRoot)%Z with i by lia. by apply Z.mod_small.
Qed.

(** X4.  [generateTuningTable] has twelve rows; row [i] carries interval [i]
    and the name of that interval.  For a key name that is not
    inherited from [Object.prototype] it carries the name of the note
    [i] semitones above the key's root, and as its cents the entry that
    [calculateScaleOctaveTuning] has for that note's pitch class, which
    is the per-note deviation rounded to a hundredth: the table that is
    displayed is the table that is sent.  For an inherited name the
    note name is [undefined]. *)
Theorem displayed_table_matches_sent_table (keyName : string) (i : nat) :
  (i < 12)%nat ->
  length (generateTuningTable keyName) = 12%nat
  /\ exists row : tableRow,
       generateTuningTable keyName !! i = Some row
       /\ interval row = Z.of_nat i
       /\ name (info row) = INTERVAL_NAMES !! i
       /\ (keyName ∉ OBJECT_PROTOTYPE_KEYS ->
           exists (keyRoot : Z) (noteCents : R),
             getKeyRoot keyName = RootNumber keyRoot
             /\ noteName row
                = KeyDetection.NOTE_NAMES !! Z.to_nat ((keyRoot + Z.of_nat i) mod 12)
             /\ is_Some (noteName row)
             /\ deviation ((keyRoot + Z.of_nat i) mod 12) keyRoot (isMinorKey keyName)
                = Some (cents (info row))
             /\ calculateJICentsForNote (keyRoot + Z.of_nat i) keyName = Num noteCents
             /\ cents (info row) = IZR (Math_round (noteCents * 100)) / 100)
       /\ (keyName ∈ OBJECT_PROTOTYPE_KEYS -> noteName row = None).
Proof.
  intros Hi.
  split; [done |].
  unfold generateTuningTable.
  rewrite !list_lookup_fmap, lookup_seq_lt by done. cbn [fmap option_fmap option_map Nat.add].
  eexists. split; [reflexivity |]. cbn [interval noteName info].
  unfold getIntervalInfo. cbn [name cents].
  destruct (Z.ltb_spec (Z.of_nat i) 0) as [? | _]; [lia |].
  rewrite Nat2Z.id.
  split; [done |]. split; [done |]. split.
  - intros Hown. destruct (getKeyRoot_number keyName Hown) as (keyRoot & Hroot & Hk).
    unfold calculateJICentsForNote. rewrite Hroot.
    set (pc := ((keyRoot + Z.of_nat i) mod 12)%Z).
    assert (Hpc : (0 <= pc < 12)%Z) by (apply Z.mod_pos_bound; lia).
    exists keyRoot. eexists. split; [reflexivity |].
    rewrite Z.rem_mod_nonneg by lia. fold pc.
    destruct (Z.ltb_spec pc 0) as [? | _]; [lia |].
    split; [done |]. split.
    { apply lookup_lt_is_Some. cbn [length KeyDetection.NOTE_NAMES]. lia. }
    split; [| split; [reflexivity |]].
    + rewrite table_lookup by done. unfold scaleOctaveEntry.
      rewrite interval_of_class by done.
      unfold pc. rewrite interval_above_root by lia. done.
    + rewrite note_interval by lia.
      replace (keyRoot + Z.of_nat i - keyRoot)%Z with (Z.of_nat i) by lia.
      rewrite Z.mod_small by lia. done.
  - intros Hin. by rewrite (getKeyRoot_inherited keyName Hin).
Qed.

Lemma displayed_table_matches_sent_table_witness :
  length (generateTuningTable "Am") = 12%nat
  /\ exists row : tableRow,
       generateTuningTable "Am" !! 3%nat = Some row
       /\ interval row = 3%Z
       /\ name (info row) = Some "Minor 3rd"%string
       /\ (exists (keyRoot : Z) (noteCents : R),
             getKeyRoot "Am" = RootNumber keyRoot
             /\ noteName row
                = KeyDetection.NOTE_NAMES !! Z.to_nat ((keyRoot + Z.of_nat 3) mod 12)
             /\ is_Some (noteName row)
             /\ deviation ((keyRoot + Z.of_nat 3) mod 12) keyRoot (isMinorKey "Am")
                = Some (cents (info row))
             /\ calculateJICentsForNote (keyRoot + Z.of_nat 3) "Am" = Num noteCents
             /\ cents (info row) = IZR (Math_round (noteCents * 100)) / 100).
Proof.
  destruct (displayed_table_matches_sent_table "Am" 3 ltac:(lia))
    as (Hlen & row & Hrow & Hint & Hname & Hown & _).
  split; [exact Hlen |]. exists row.
  split; [exact Hrow |]. split; [exact Hint |]. split; [exact Hname |].
  apply Hown. compute_done.
Defined.

End TuningTableProofs.

(** ** What the detector reports (js/key-detection.js) *)

Module DetectedKeyProofs.
Import KeyDetection KeyDetectionProofs.
Local Open Scope Q_scope.

Lemma candidates_below_12 : Forall (fun cand => (fst cand < 12)%nat) candidates.
Proof. unfold candidates. simpl. repeat constructor; simpl; lia. Qed.

Lemma bestFold_name profile normalized cands acc :
  Forall (fun cand => (fst cand < 12)%nat) cands ->
  (exists k, fst acc = Some k /\ knownName k) ->
  exists k, fst (fold_left (bestStep profile normalized) cands acc) = Some k /\ knownName k.
Proof.
  intros Hc. revert acc. induction Hc as [| [root isMinor] cands Hcand Hc IH]; intros acc Hacc.
  - exact Hacc.
  - cbn [fold_left]. apply IH. destruct acc as [bestKey bestScore]. unfold bestStep.
    destruct (xgt _ _); cbn [fst]; [| exact Hacc].
    eexists. split; [reflexivity |]. by exists root, isMinor.
Qed.

Lemma bestKeyOf_name profile normalized :
  exists k, fst (bestKeyOf profile normalized) = Some k /\ knownName k.
Proof.
  unfold bestKeyOf. pose proof candidates_below_12 as Hc.
  destruct candidates as [| [root isMinor] cands] eqn:E; [discriminate E |].
  apply Forall_cons in Hc as [Hcand Hc]. cbn [fold_left].
  apply bestFold_name; [done |].
  unfold bestStep. cbn [xgt fst]. eexists. split; [reflexivity |]. by exists root, isMinor.
Qed.

Lemma castVote_keys (P : string -> Prop) profileName w bestKey bestScore keyVotes :
  P (propertyName bestKey) ->
  Forall (fun kv => P (fst kv)) keyVotes ->
  Forall (fun kv => P (fst kv)) (castVote profileName w bestKey bestScore keyVotes).
Proof.
  intros Hk Hvotes. unfold castVote, updateVote.
  apply Forall_fmap.
  assert (Hboth : Forall (fun kv : string * vote => P (fst kv))
                    (match lookupVote (propertyName bestKey) keyVotes with
                     | Some _ => keyVotes
                     | None => keyVotes ++ [(propertyName bestKey, mkVote (Fin 0) 0 [])]
                     end)).
  { destruct (lookupVote _ _); [done |]. apply Forall_app. split; [done |].
    by constructor. }
  eapply Forall_impl; [exact Hboth |].
  intros [k v] Hkv. unfold compose. cbn [fst snd] in *. by destruct (String.eqb k _).
Qed.

Lemma tally_keys normalized :
  Forall (fun kv => knownName (fst kv)) (fst (tally normalized)).
Proof.
  unfold tally, ENSEMBLE_CONFIG_profiles. cbn [fold_left]. unfold profileStep.
  cbn [data weight].
  destruct (bestKeyOf_name ALBRECHT_SHANAHAN_PROFILES normalized) as (k1 & E1 & H1).
  destruct (bestKeyOf_name TEMPERLEY_PROFILES normalized) as (k2 & E2 & H2).
  destruct (bestKeyOf_name KRUMHANSL_KESSLER_PROFILES normalized) as (k3 & E3 & H3).
  destruct (bestKeyOf ALBRECHT_SHANAHAN_PROFILES normalized) as [b1 s1].
  destruct (bestKeyOf TEMPERLEY_PROFILES normalized) as [b2 s2].
  destruct (bestKeyOf KRUMHANSL_KESSLER_PROFILES normalized) as [b3 s3].
  cbn [fst] in *. subst b1 b2 b3.
  repeat apply castVote_keys; done.
Qed.

Lemma finalOf_key (P : string -> Prop) (keyVotes : list (string * vote)) :
  Forall (fun kv => P (fst kv)) keyVotes ->
  forall k, fst (fst (finalOf keyVotes)) = Some k -> P k.
Proof.
  intros Hvotes. unfold finalOf.
  assert (Hfold : forall acc : option string * xnum * Z,
             (forall k, fst (fst acc) = Some k -> P k) ->
             forall k, fst (fst (fold_left finalStep keyVotes acc)) = Some k -> P k).
  { induction Hvotes as [| [k0 v] votes Hk _ IH]; intros acc Hacc; [exact Hacc |].
    cbn [fold_left]. apply IH. destruct acc as [[finalKey finalScore] a].
    unfold finalStep. destruct (xgt _ _); cbn [fst] in *; [| exact Hacc].
    by intros k [= <-]. }
  apply Hfold. intros k. discriminate.
Qed.

Lemma known_names_of_the_tuner (root : nat) (isMinor : bool) :
  (root < 12)%nat ->
  TuningCore.getKeyRoot (keyName root isMinor)
       = TuningCore.RootNumber (60 + Z.of_nat root)
  /\ TuningCore.isMinorKey (keyName root isMinor) = isMinor.
Proof.
  intros H.
  do 12 (destruct root as [| root]; [by destruct isMinor |]). lia.
Qed.

Lemma winnerOf_key (noteBuffer : list noteEvent) (k : string) :
  fst (fst (winnerOf noteBuffer)) = Some k -> knownName k.
Proof. unfold winnerOf. apply finalOf_key, tally_keys. Qed.

(** X5.  Every key the detector reports is one of the 24 names built from
    [NOTE_NAMES] and the suffix [m], and the tuner reads it back
    correctly: [getKeyRoot] gives 60 plus the root (never the default
    taken for an unknown name) and [isMinorKey] gives the mode. *)
Theorem detected_key_is_known_to_the_tuner
    (noteBuffer : list noteEvent) (sensitivity : string) (currentKey : option string)
    (e : estimate) :
  fst (fst (detectKeyEnsemble noteBuffer sensitivity currentKey)) = Some e ->
  exists (root : nat) (isMinor : bool),
    (root < 12)%nat
    /\ key e = Some (keyName root isMinor)
    /\ TuningCore.getKeyRoot (keyName root isMinor)
       = TuningCore.RootNumber (60 + Z.of_nat root)
    /\ TuningCore.isMinorKey (keyName root isMinor) = isMinor.
Proof.
  intros He.
  destruct (decide (totalOf (countNotes noteBuffer) = 0%Z)) as [Ht | Ht].
  { rewrite detect_silent in He by done. discriminate He. }
  rewrite detect_unfold in He by done. cbv zeta in He.
  destruct (winnerOf_bounds noteBuffer Ht) as (k & q & a & Hw & _).
  assert (Hk : knownName k).
  { apply (winnerOf_key noteBuffer). by rewrite Hw. }
  revert He.
  generalize (snd (tally (normalize (countNotes noteBuffer)
                                    (totalOf (countNotes noteBuffer))))).
  rewrite Hw. cbn [fst snd]. intros results He.
  destruct (xge (Fin q) _ && negb (bool_decide (Some k = currentKey))); [| discriminate He].
  cbn [fst] in He. injection He as <-. cbn [key].
  destruct Hk as (root & isMinor & Hroot & ->).
  exists root, isMinor. split; [done |]. split; [done |].
  by apply known_names_of_the_tuner.
Qed.

Lemma detected_key_is_known_to_the_tuner_witness :
  exists e, fst (fst (detectKeyEnsemble cMajorScale "medium" None)) = Some e
            /\ exists (root : nat) (isMinor : bool),
                 (root < 12)%nat /\ key e = Some (keyName root isMinor)
                 /\ TuningCore.getKeyRoot (keyName root isMinor)
       = TuningCore.RootNumber (60 + Z.of_nat root)
                 /\ TuningCore.isMinorKey (keyName root isMinor) = isMinor.
Proof.
  eexists. split; [vm_compute; reflexivity |].
  apply (detected_key_is_known_to_the_tuner cMajorScale "medium" None).
  vm_compute. reflexivity.
Defined.

Lemma countNotes_classes (noteBuffer : list noteEvent) :
  countNotes noteBuffer
  = fold_left (fun counts i => alter Z.succ i counts)
              (map pitchClass noteBuffer) (replicate 12 0%Z).
Proof.
  unfold countNotes. generalize (replicate 12 0%Z).
  induction noteBuffer as [| ev b IH]; intros counts; [done |].
  cbn [fold_left map]. apply IH.
Qed.

Lemma histogram_permutation (l1 l2 : list nat) :
  l1 ≡ₚ l2 ->
  forall counts : list Z,
    fold_left (fun counts i => alter Z.succ i counts) l1 counts
    = fold_left (fun counts i => alter Z.succ i counts) l2 counts.
Proof.
  induction 1 as [| x l1 l2 _ IH | x y l | l1 l2 l3 _ IH1 _ IH2]; intros counts.
  - done.
  - cbn [fold_left]. apply IH.
  - cbn [fold_left]. f_equal.
    destruct (decide (x = y)) as [-> | Hne]; [done |].
    by apply list_alter_alter_ne.
  - by rewrite IH1.
Qed.

(** X6.  The detector reads only the pitch classes of the buffered notes and
    how often each occurs: two buffers whose pitch classes are a
    rearrangement of each other (whatever the octaves, times,
    velocities and order of the notes) give the same result. *)
Theorem detection_depends_on_pitch_classes_only
    (buffer1 buffer2 : list noteEvent) (sensitivity : string) (currentKey : option string) :
  map pitchClass buffer1 ≡ₚ map pitchClass buffer2 ->
  detectKeyEnsemble buffer1 sensitivity currentKey
  = detectKeyEnsemble buffer2 sensitivity currentKey.
Proof.
  intros Hp.
  assert (Hc : countNotes buffer1 = countNotes buffer2).
  { rewrite !countNotes_classes. by apply histogram_permutation. }
  unfold detectKeyEnsemble. by rewrite Hc.
Qed.

Lemma detection_depends_on_pitch_classes_only_witness :
  detectKeyEnsemble cMajorScale "medium" None
  = detectKeyEnsemble
      [mkNote 74 5 64; mkNote 48 9 30; mkNote 76 11 127; mkNote 77 20 1;
       mkNote 79 21 90; mkNote 81 22 90; mkNote 83 25 90; mkNote 84 31 90]
      "medium" None.
Proof.
  apply (detection_depends_on_pitch_classes_only cMajorScale).
  simpl. apply perm_swap.
Defined.

(** X7.  The sensitivity only gates the report: when the detector returns
    an estimate under one sensitivity, it returns the same estimate,
    new key and log under every sensitivity whose threshold is no
    higher. *)
Theorem lower_threshold_reports_the_same
    (noteBuffer : list noteEvent) (coarse fine : string)
    (currentKey : option string) (e : estimate) :
  thresholdOf fine <= thresholdOf coarse ->
  fst (fst (detectKeyEnsemble noteBuffer coarse currentKey)) = Some e ->
  detectKeyEnsemble noteBuffer fine currentKey
  = detectKeyEnsemble noteBuffer coarse currentKey.
Proof.
  intros Hle.
  destruct (decide (totalOf (countNotes noteBuffer) = 0%Z)) as [Ht | Ht].
  { by rewrite !detect_silent. }
  rewrite !(detect_unfold noteBuffer) by done. cbv zeta.
  generalize (snd (tally (normalize (countNotes noteBuffer)
                                    (totalOf (countNotes noteBuffer))))).
  generalize (winnerOf noteBuffer). intros [[finalKey finalScore] agreement] results.
  cbn [fst snd].
  destruct (xge finalScore (Fin (thresholdOf coarse))) eqn:Hge; [| done].
  assert (Hfine : xge finalScore (Fin (thresholdOf fine)) = true).
  { destruct finalScore as [| x]; [done |]. cbn [xge] in *.
    apply Qle_bool_iff. apply Qle_bool_iff in Hge.
    exact (Qle_trans _ _ _ Hle Hge). }
  by rewrite Hfine.
Qed.

Lemma lower_threshold_reports_the_same_witness :
  exists e : estimate,
    fst (fst (detectKeyEnsemble cMajorScale "low" None)) = Some e
    /\ detectKeyEnsemble cMajorScale "high" None
       = detectKeyEnsemble cMajorScale "low" None.
Proof.
  eexists. split; [vm_compute; reflexivity |].
  eapply (lower_threshold_reports_the_same cMajorScale "low" "high" None).
  - vm_compute. discriminate.
  - vm_compute. reflexivity.
Defined.

End DetectedKeyProofs.

(** ** The order of the channel pool (js/tuning-mpe.js) *)

Module PoolOrderProofs.
Import TuningMPE TuningMPEProofs.
Local Open Scope Z_scope.

Global Instance chan_le_transitive : Transitive chan_le.
Proof. intros [| x] [| y] [| z]; simpl; try done. lia. Qed.

Global Instance chan_le_total : Total chan_le.
Proof. intros [| x] [| y]; simpl; auto. lia. Qed.

Global Instance chan_le_antisymm : AntiSymm (=) chan_le.
Proof. intros [| x] [| y]; simpl; try done. intros. f_equal. lia. Qed.

Lemma initial_pool_sorted : Sorted chan_le (map Chan MPE_MEMBER_CHANNELS).
Proof. unfold MPE_MEMBER_CHANNELS. simpl. repeat constructor; simpl; lia. Qed.

Lemma Sorted_tail (c : chan) (pool : list chan) :
  Sorted chan_le (c :: pool) -> Sorted chan_le pool.
Proof. by inversion 1. Qed.

Lemma perform_sorted (s : state) (c : call) :
  Sorted chan_le (channelPool s) -> Sorted chan_le (channelPool (perform s c)).
Proof.
  intros Hs. destruct c as [noteId | noteId | |]; cbn [perform].
  - unfold allocateChannel. case_bool_decide; [done |].
    destruct (activeNotes s !! noteId); [done |].
    destruct (channelPool s) as [| channel pool'] eqn:Hp; cbn [fst snd channelPool].
    + destruct (channelUsageOrder s); cbn [fst snd channelPool]; [by rewrite Hp | constructor].
    + by apply Sorted_tail in Hs.
  - unfold releaseChannel. case_bool_decide; [done |].
    destruct (activeNotes s !! noteId); [| done]. cbn [channelPool].
    destruct (_ && _); [| done]. apply Sorted_merge_sort, _.
  - apply initial_pool_sorted.
  - unfold initializePitchBendRange. cbn [negb].
    by destruct (pitchBendRangeInitialized s).
Qed.

Lemma sorted_after (calls : list call) : Sorted chan_le (channelPool (after calls)).
Proof.
  induction calls as [| c calls IH] using rev_ind.
  - apply initial_pool_sorted.
  - rewrite after_snoc. by apply perform_sorted.
Qed.

(** Every member channel is in the pool or held by a note. *)
Lemma member_is_free_or_held (s : state) (m : Z) :
  Inv s -> 1 <= m <= 15 ->
  Chan m ∈ channelPool s \/ exists noteId, activeNotes s !! noteId = Some (Chan m).
Proof.
  intros HI Hm.
  set (held := (map_to_list (activeNotes s)).*2).
  assert (Hheld : forall c, c ∈ held <-> exists noteId, activeNotes s !! noteId = Some c).
  { intros c. unfold held. rewrite list_elem_of_fmap. split.
    - intros ([noteId c'] & -> & H%elem_of_map_to_list). by exists noteId.
    - intros (noteId & H). exists (noteId, c). split; [done |]. by apply elem_of_map_to_list. }
  assert (Hnd : NoDup (channelPool s ++ held)).
  { apply NoDup_app. split; [apply (inv_pool_nodup s HI) |]. split.
    - intros c Hc (noteId & Hn)%Hheld. by apply (inv_disjoint s HI noteId c).
    - unfold held. apply NoDup_fmap_2_strong; [| apply NoDup_map_to_list].
      intros [id1 c1] [id2 c2] H1%elem_of_map_to_list H2%elem_of_map_to_list Hc.
      cbn [snd] in Hc. subst c2. f_equal. by apply (inv_distinct s HI id1 id2 c1). }
  assert (Hlen : length (channelPool s ++ held) = 15%nat).
  { rewrite length_app. unfold held. rewrite length_fmap, length_map_to_list.
    apply (inv_count s HI). }
  assert (Hincl : incl (channelPool s ++ held) (map Chan MPE_MEMBER_CHANNELS)).
  { intros c Hc%list_elem_of_In. apply list_elem_of_In.
    assert (Hmem : member c).
    { apply elem_of_app in Hc as [Hc | (noteId & Hn)%Hheld].
      - by apply (inv_pool_member s HI).
      - by apply (inv_active_member s HI noteId). }
    destruct Hmem as (n & -> & Hn). apply list_elem_of_fmap. exists n. split; [done |].
    unfold MPE_MEMBER_CHANNELS. apply list_elem_of_fmap. exists (Z.to_nat (n - 1)).
    split; [lia |]. apply elem_of_seq. lia. }
  assert (Hall : Chan m ∈ channelPool s ++ held).
  { apply list_elem_of_In.
    apply NoDup_ListNoDup in Hnd.
    apply (NoDup_length_incl (l':=map Chan MPE_MEMBER_CHANNELS) Hnd); [| done |].
    - rewrite Hlen. reflexivity.
    - apply list_elem_of_In, list_elem_of_fmap. exists m. split; [done |].
      unfold MPE_MEMBER_CHANNELS. apply list_elem_of_fmap. exists (Z.to_nat (m - 1)).
      split; [lia |]. apply elem_of_seq. lia. }
  apply elem_of_app in Hall as [H | H]; [by left | right]. by apply Hheld.
Qed.

(** X8.  In every state the allocator can reach, a note that holds no
    channel and finds the pool non-empty is given the head of the pool,
    and that is the lowest-numbered member channel (1..15) no note
    holds: the pool stays sorted. *)
Theorem fresh_note_gets_lowest_free_channel
    (calls : list call) (noteId : string) (channel : chan) (rest : list chan) :
  let s := after calls in
  noteId ≠ "" -> activeNotes s !! noteId = None ->
  channelPool s = channel :: rest ->
  fst (fst (allocateChannel noteId s)) = AllocChannel channel
  /\ exists n, channel = Chan n /\ 1 <= n <= 15
       /\ forall m, 1 <= m <= 15 ->
            (forall other, activeNotes s !! other ≠ Some (Chan m)) -> n <= m.
Proof.
  intros s Hid Hfree Hpool.
  pose proof (Inv_after calls) as HI. fold s in HI.
  pose proof (sorted_after calls) as Hs. fold s in Hs.
  split.
  - unfold allocateChannel. rewrite bool_decide_eq_false_2 by done.
    by rewrite Hfree, Hpool.
  - destruct (inv_pool_member s HI channel) as (n & -> & Hn).
    { rewrite Hpool. apply elem_of_cons. by left. }
    exists n. split; [done |]. split; [done |].
    intros m Hm Hunused.
    destruct (member_is_free_or_held s m HI Hm) as [Hin | (other & Hheld)].
    + rewrite Hpool in Hin, Hs. apply Sorted_StronglySorted in Hs; [| apply _].
      apply elem_of_cons in Hin as [[= ->] | Hin]; [lia |].
      apply StronglySorted_inv in Hs as [_ Hall].
      rewrite Forall_forall in Hall. apply (Hall _ Hin).
    + by destruct (Hunused other).
Qed.

Lemma fresh_note_gets_lowest_free_channel_witness :
  fst (fst (allocateChannel "4_72" (after [Allocate "1_60"; Allocate "2_64"; Release "1_60"; Allocate "3_67"])))
  = AllocChannel (Chan 3)
  /\ exists n, Chan 3 = Chan n /\ 1 <= n <= 15
       /\ forall m, 1 <= m <= 15 ->
            (forall other,
                activeNotes (after [Allocate "1_60"; Allocate "2_64"; Release "1_60"; Allocate "3_67"])
                  !! other ≠ Some (Chan m)) -> n <= m.
Proof.
  apply (fresh_note_gets_lowest_free_channel
           [Allocate "1_60"; Allocate "2_64"; Release "1_60"; Allocate "3_67"]
           "4_72" (Chan 3) (map Chan [4; 5; 6; 7; 8; 9; 10; 11; 12; 13; 14; 15])).
  - done.
  - vm_compute. reflexivity.
  - vm_compute. reflexivity.
Defined.

Lemma spliceOut_snoc (x : string) (l : list string) :
  x ∉ l -> spliceOut x (l ++ [x]) = l.
Proof.
  induction l as [| y l IH]; intros Hx.
  - rewrite app_nil_l, spliceOut_cons. by rewrite decide_True.
  - apply not_elem_of_cons in Hx as [Hne Hx].
    rewrite <- app_comm_cons, spliceOut_cons, decide_False by done.
    by rewrite IH.
Qed.

Lemma release_after_allocate (s : state) (noteId : string) :
  Inv s -> Sorted chan_le (channelPool s) ->
  noteId ≠ "" -> activeNotes s !! noteId = None -> channelPool s ≠ [] ->
  releaseChannel noteId (snd (fst (allocateChannel noteId s))) = s.
Proof.
  intros HI Hs Hid Hfree Hpool.
  destruct (channelPool s) as [| channel rest] eqn:Hp; [done |].
  assert (Hmem : member channel).
  { apply (inv_pool_member s HI). rewrite Hp. apply elem_of_cons. by left. }
  pose proof (inv_pool_nodup s HI) as Hnd. rewrite Hp in Hnd.
  apply NoDup_cons in Hnd as [Hnotin _].
  assert (Horder : noteId ∉ channelUsageOrder s).
  { intros Hin%(inv_order_dom s HI). rewrite Hfree in Hin. by destruct Hin. }
  unfold allocateChannel. rewrite bool_decide_eq_false_2 by done.
  rewrite Hfree, Hp. cbn [fst snd].
  unfold releaseChannel. rewrite bool_decide_eq_false_2 by done.
  cbn [activeNotes channelPool channelUsageOrder pitchBendRangeInitialized].
  rewrite lookup_insert_eq.
  rewrite (bool_decide_eq_false_2 (channel ∈ rest)) by done.
  rewrite (bool_decide_eq_false_2 (channel = Chan MPE_MASTER_CHANNEL)).
  2:{ destruct Hmem as (n & -> & Hn). unfold MPE_MASTER_CHANNEL. intros [= ->]. lia. }
  cbn [negb andb].
  rewrite delete_insert_id by done. rewrite spliceOut_snoc by done.
  assert (Hsort : merge_sort chan_le (rest ++ [channel]) = channel :: rest).
  { apply (Sorted_unique chan_le); [apply Sorted_merge_sort, _ | done |].
    rewrite merge_sort_Permutation. by rewrite Permutation_app_comm. }
  rewrite Hsort, <- Hp. by destruct s.
Qed.

(** X9.  In every state the allocator can reach with a free channel,
    allocating a channel to a new note and releasing it at once gives
    back the state before: the same maps, the same usage order and the
    same (sorted) pool. *)
Theorem release_undoes_allocate (calls : list call) (noteId : string) :
  let s := after calls in
  noteId ≠ "" -> activeNotes s !! noteId = None -> channelPool s ≠ [] ->
  releaseChannel noteId (snd (fst (allocateChannel noteId s))) = s.
Proof.
  intros s. apply release_after_allocate; [apply Inv_after | apply sorted_after].
Qed.

Lemma release_undoes_allocate_witness :
  releaseChannel "3_67"
    (snd (fst (allocateChannel "3_67" (after [Allocate "1_60"; Allocate "2_64"; Release "1_60"]))))
  = after [Allocate "1_60"; Allocate "2_64"; Release "1_60"].
Proof.
  apply (release_undoes_allocate [Allocate "1_60"; Allocate "2_64"; Release "1_60"] "3_67").
  - done.
  - vm_compute. reflexivity.
  - vm_compute. discriminate.
Defined.

(** X10.  [getChannelForNote] follows the allocator: after [allocateChannel]
    the note is found on the channel returned (fresh or stolen), the
    note a channel was stolen from is found on none, and after
    [releaseChannel] the note is found on none while every other note
    keeps its channel. *)
Theorem channel_lookup_follows_allocation (noteId : string) (s : state) :
  noteId ≠ "" ->
  (forall channel,
      fst (fst (allocateChannel noteId s)) = AllocChannel channel ->
      getChannelForNote noteId (snd (fst (allocateChannel noteId s))) = Some channel)
  /\ (forall channel reusedNoteId,
        fst (fst (allocateChannel noteId s)) = AllocReused channel reusedNoteId ->
        getChannelForNote noteId (snd (fst (allocateChannel noteId s))) = Some channel
        /\ (reusedNoteId ≠ noteId ->
            getChannelForNote reusedNoteId (snd (fst (allocateChannel noteId s))) = None))
  /\ getChannelForNote noteId (releaseChannel noteId s) = None
  /\ (forall other, other ≠ noteId ->
        getChannelForNote other (releaseChannel noteId s) = getChannelForNote other s).
Proof.
  intros Hid. unfold getChannelForNote.
  split; [| split; [| split]].
  - intros channel. unfold allocateChannel. rewrite bool_decide_eq_false_2 by done.
    destruct (activeNotes s !! noteId) as [c |] eqn:Hl; cbn [fst snd activeNotes].
    { intros [= ->]. by rewrite Hl. }
    destruct (channelPool s) as [| c pool']; cbn [fst snd activeNotes].
    + destruct (channelUsageOrder s); cbn [fst]; discriminate.
    + intros [= ->]. by rewrite lookup_insert_eq.
  - intros channel reusedNoteId. unfold allocateChannel.
    rewrite bool_decide_eq_false_2 by done.
    destruct (activeNotes s !! noteId) as [c |] eqn:Hl; cbn [fst snd activeNotes]; [discriminate |].
    destruct (channelPool s) as [| c pool']; cbn [fst snd activeNotes]; [| discriminate].
    destruct (channelUsageOrder s) as [| r order']; cbn [fst snd activeNotes]; [discriminate |].
    intros [= <- <-]. split; [by rewrite lookup_insert_eq |].
    intros Hne. by rewrite lookup_insert_ne, lookup_delete_eq.
  - unfold releaseChannel. rewrite bool_decide_eq_false_2 by done.
    destruct (activeNotes s !! noteId) as [c |] eqn:Hl; cbn [activeNotes].
    + by rewrite lookup_delete_eq.
    + by rewrite Hl.
  - intros other Hne. unfold releaseChannel. rewrite bool_decide_eq_false_2 by done.
    destruct (activeNotes s !! noteId) as [c |] eqn:Hl; cbn [activeNotes]; [| done].
    by rewrite lookup_delete_ne.
Qed.

Lemma channel_lookup_follows_allocation_witness :
  getChannelForNote "1_60" (snd (fst (allocateChannel "1_60" initialState))) = Some (Chan 1)
  /\ getChannelForNote "1_60"
       (releaseChannel "1_60" (snd (fst (allocateChannel "1_60" initialState)))) = None.
Proof.
  split.
  - apply (proj1 (channel_lookup_follows_allocation "1_60" initialState ltac:(done))).
    vm_compute. reflexivity.
  - apply (proj1 (proj2 (proj2 (channel_lookup_follows_allocation "1_60"
                                  (snd (fst (allocateChannel "1_60" initialState)))
                                  ltac:(done))))).
Defined.

End PoolOrderProofs.

(** ** The tuning messages (js/tuning-mts.js) *)

Module MTSMessageProofs.
Import TuningCore TuningMTS TuningCoreProofs.
Local Open Scope R_scope.

Lemma round_above (x : R) (z : Z) : IZR z <= x -> (z <= Math_round x)%Z.
Proof.
  intros H. unfold Math_round. apply Zfloor_lub. lra.
Qed.

Lemma round_below (x : R) (z : Z) : x < IZR z + 1 / 2 -> (Math_round x <= z)%Z.
Proof.
  intros H. unfold Math_round. pose proof (Zfloor_bound (x + 1 / 2)) as Hb.
  apply Z.lt_succ_r, lt_IZR. rewrite succ_IZR. lra.
Qed.

Lemma round_near (x : R) : x - 1 / 2 < IZR (Math_round x) <= x + 1 / 2.
Proof.
  unfold Math_round. pose proof (Zfloor_bound (x + 1 / 2)) as Hb. lra.
Qed.

Lemma seven_bits (v : Z) :
  (0 <= v < 16384)%Z ->
  (0 <= Z.land (Z.shiftr v 7) 0x7F <= 127)%Z
  /\ (0 <= Z.land v 0x7F <= 127)%Z
  /\ (128 * Z.land (Z.shiftr v 7) 0x7F + Z.land v 0x7F = v)%Z.
Proof.
  intros H. pose proof (TuningMPEProofs.split_14_bits v H). lia.
Qed.

Lemma low_seven_bits (n : Z) : (0 <= Z.land n 0x7F <= 127)%Z.
Proof.
  change (Z.land n 0x7F) with (Z.land n (Z.ones 7)). rewrite Z.land_ones by lia.
  pose proof (Z.mod_pos_bound n (2 ^ 7)). lia.
Qed.

(** The two bytes of one pitch class. *)
Lemma scaleOctaveBytes_spec (cents : R) :
  exists msb lsb,
    scaleOctaveBytes cents = [msb; lsb]
    /\ (0 <= msb <= 127)%Z /\ (0 <= lsb <= 127)%Z
    /\ (-100 <= cents <= 100 ->
        Rabs (IZR (128 * msb + lsb) / 16383 * 200 - 100 - cents) <= 100 / 16383).
Proof.
  unfold scaleOctaveBytes.
  set (clamped := Rmax (-100) (Rmin 100 cents)).
  set (v := Math_round ((clamped + 100) / 200 * 16383)).
  assert (Hc : -100 <= clamped <= 100).
  { unfold clamped, Rmax, Rmin. repeat destruct (Rle_dec _ _); lra. }
  assert (Hv : (0 <= v <= 16383)%Z).
  { split; [apply round_above | apply round_below]; simpl; lra. }
  rewrite Z.min_r, Z.max_r by lia.
  destruct (seven_bits v) as (Hm & Hl & Hsum); [lia |].
  eexists _, _. split; [reflexivity |]. split; [done |]. split; [done |].
  intros Hin. rewrite Hsum.
  assert (clamped = cents) as Hcl.
  { unfold clamped, Rmax, Rmin. repeat destruct (Rle_dec _ _); lra. }
  pose proof (round_near ((clamped + 100) / 200 * 16383)) as Hn. fold v in Hn.
  rewrite Hcl in Hn. apply Rabs_le. lra.
Qed.

Lemma lookup_concat_pairs {A B} (f : A -> list B) (l : list A) (i : nat) (x : A) :
  (forall y, length (f y) = 2%nat) ->
  l !! i = Some x ->
  concat (map f l) !! (2 * i)%nat = f x !! 0%nat
  /\ concat (map f l) !! (2 * i + 1)%nat = f x !! 1%nat.
Proof.
  intros Hlen. revert i. induction l as [| y l IH]; intros i Hi; [done |].
  cbn [map concat]. destruct i as [| i].
  - injection Hi as ->. pose proof (Hlen x).
    destruct (f x) as [| a [| b [| c r]]]; simpl in *; try lia. done.
  - cbn [lookup list_lookup] in Hi. specialize (IH i Hi).
    pose proof (Hlen y).
    destruct (f y) as [| a [| b [| c r]]]; simpl in *; try lia.
    replace (i + S (i + 0))%nat with (S (2 * i))%nat by lia.
    replace (i + S (i + 0) + 1)%nat with (S (2 * i + 1))%nat by lia.
    exact IH.
Qed.

Lemma length_concat_chunks {A B} (f : A -> list B) (k : nat) (l : list A) :
  (forall y, length (f y) = k) -> length (concat (map f l)) = (k * length l)%nat.
Proof.
  intros Hk. induction l as [| y l IH]; cbn [map concat length]; [lia |].
  rewrite length_app, Hk, IH. lia.
Qed.

Lemma Forall_concat_map {A B} (P : B -> Prop) (f : A -> list B) (l : list A) :
  (forall y, Forall P (f y)) -> Forall P (concat (map f l)).
Proof.
  intros HP. induction l as [| y l IH]; cbn [map concat]; [constructor |].
  apply Forall_app. by split.
Qed.

(** The message for twelve cent values. *)
Lemma scale_octave_message_spec (centsArray : list R) :
  length centsArray = 12%nat ->
  exists data,
    buildScaleOctaveTuning2Byte centsArray None
    = (Some ([0xF0; 0x7F; 0x7F; 0x08; 0x09; 0x03; 0x7F; 0x7F]%Z ++ data ++ [0xF7]%Z), [])
    /\ length data = 24%nat
    /\ Forall (fun b => (0 <= b <= 127)%Z) data
    /\ forall (i : nat) (cents : R),
         centsArray !! i = Some cents -> -100 <= cents <= 100 ->
         exists msb lsb,
           data !! (2 * i)%nat = Some msb /\ data !! (2 * i + 1)%nat = Some lsb
           /\ Rabs (IZR (128 * msb + lsb) / 16383 * 200 - 100 - cents) <= 100 / 16383.
Proof.
  unfold buildScaleOctaveTuning2Byte.
  intros H. rewrite H. cbn [Nat.eqb negb].
  exists (concat (map scaleOctaveBytes centsArray)).
  split; [reflexivity |]. split; [| split].
  - rewrite (length_concat_chunks _ 2%nat), H; [reflexivity |].
    intros c. by destruct (scaleOctaveBytes_spec c) as (msb & lsb & -> & _).
  - apply Forall_concat_map. intros c.
    destruct (scaleOctaveBytes_spec c) as (msb & lsb & -> & Hm & Hl & _).
    repeat (constructor; [done |]). constructor.
  - intros i cents Hi Hc.
    destruct (scaleOctaveBytes_spec cents) as (msb & lsb & E & _ & _ & Hacc).
    destruct (lookup_concat_pairs scaleOctaveBytes centsArray i cents) as [H0 H1].
    { intros c. by destruct (scaleOctaveBytes_spec c) as (m & l & -> & _). }
    { done. }
    rewrite E in H0, H1. exists msb, lsb. split; [done |]. split; [done |]. by apply Hacc.
Qed.

(** X11.  [buildScaleOctaveTuning2Byte] with the default mask returns null and
    logs an error unless it is given exactly 12 values; given 12 it
    returns the 33-byte message F0 7F 7F 08 09 03 7F 7F, 24 data
    bytes, F7, every data byte is at most 127, and for a value within
    -100..100 cents the two bytes of its pitch class decode (14 bits
    over -100..100) to it within 100/16383 cents. *)
Theorem scale_octave_message_is_well_formed (centsArray : list R) :
  (length centsArray ≠ 12%nat ->
   buildScaleOctaveTuning2Byte centsArray None
   = (None, [ConsoleError "Scale/Octave tuning requires exactly 12 cent values"]))
  /\ (length centsArray = 12%nat ->
      exists data,
        buildScaleOctaveTuning2Byte centsArray None
        = (Some ([0xF0; 0x7F; 0x7F; 0x08; 0x09; 0x03; 0x7F; 0x7F]%Z ++ data ++ [0xF7]%Z), [])
        /\ length data = 24%nat
        /\ Forall (fun b => (0 <= b <= 127)%Z) data
        /\ forall (i : nat) (cents : R),
             centsArray !! i = Some cents -> -100 <= cents <= 100 ->
             exists msb lsb,
               data !! (2 * i)%nat = Some msb /\ data !! (2 * i + 1)%nat = Some lsb
               /\ Rabs (IZR (128 * msb + lsb) / 16383 * 200 - 100 - cents) <= 100 / 16383).
Proof.
  split.
  - intros H. apply Nat.eqb_neq in H. unfold buildScaleOctaveTuning2Byte. by rewrite H.
  - apply scale_octave_message_spec.
Qed.

Lemma scale_octave_message_is_well_formed_witness :
  buildScaleOctaveTuning2Byte [0; 11.73] None
  = (None, [ConsoleError "Scale/Octave tuning requires exactly 12 cent values"])
  /\ exists data,
       buildScaleOctaveTuning2Byte equalTemperament None
       = (Some ([0xF0; 0x7F; 0x7F; 0x08; 0x09; 0x03; 0x7F; 0x7F]%Z ++ data ++ [0xF7]%Z), [])
       /\ length data = 24%nat.
Proof.
  split.
  - apply (proj1 (scale_octave_message_is_well_formed [0; 11.73])). simpl. lia.
  - destruct (proj2 (scale_octave_message_is_well_formed equalTemperament))
      as (data & E & Hl & _); [reflexivity |].
    exists data. by split.
Defined.

(** X12.  For every key root and mode the table of
    [calculateScaleOctaveTuning] is accepted by
    [buildScaleOctaveTuning2Byte], and for each of the 12 pitch classes
    the two data bytes sent are 7-bit values that decode to the table
    entry within 100/16383 cents: no entry is clamped. *)
Theorem key_tuning_message_is_accurate (keyRoot : Z) (isMinor : bool) :
  exists data,
    buildScaleOctaveTuning2Byte (calculateScaleOctaveTuning keyRoot isMinor) None
    = (Some ([0xF0; 0x7F; 0x7F; 0x08; 0x09; 0x03; 0x7F; 0x7F]%Z ++ data ++ [0xF7]%Z), [])
    /\ forall pc : nat,
         (pc < 12)%nat ->
         exists msb lsb,
           data !! (2 * pc)%nat = Some msb /\ data !! (2 * pc + 1)%nat = Some lsb
           /\ (0 <= msb <= 127)%Z /\ (0 <= lsb <= 127)%Z
           /\ Rabs (IZR (128 * msb + lsb) / 16383 * 200 - 100
                    - scaleOctaveEntry keyRoot isMinor (Z.of_nat pc)) <= 100 / 16383.
Proof.
  destruct (scale_octave_message_spec (calculateScaleOctaveTuning keyRoot isMinor))
    as (data & E & Hlen & Hbytes & Hacc).
  { unfold calculateScaleOctaveTuning. by rewrite !length_map, length_seq. }
  exists data. split; [exact E |].
  intros pc Hpc.
  assert (Hentry : calculateScaleOctaveTuning keyRoot isMinor !! pc
                   = Some (scaleOctaveEntry keyRoot isMinor (Z.of_nat pc))).
  { unfold calculateScaleOctaveTuning.
    by rewrite !list_lookup_fmap, lookup_seq_lt by lia. }
  pose proof (TuningRangeProofs.table_entry_bounds keyRoot isMinor (Z.of_nat pc)
                ltac:(lia)) as Hb.
  destruct (Hacc pc _ Hentry) as (msb & lsb & H0 & H1 & Hd); [lra |].
  exists msb, lsb. rewrite Forall_forall in Hbytes.
  split; [done |]. split; [done |].
  split; [apply Hbytes; by eapply list_elem_of_lookup_2 |].
  split; [apply Hbytes; by eapply list_elem_of_lookup_2 |]. done.
Qed.

(** The three bytes of a frequency. *)
Lemma centsToMTSFrequencyData_spec (baseMidiNote : Z) (centsOffset : R) :
  exists xx yy zz,
    centsToMTSFrequencyData baseMidiNote centsOffset = [xx; yy; zz]
    /\ (0 <= xx <= 127)%Z /\ (0 <= yy <= 127)%Z /\ (0 <= zz <= 127)%Z
    /\ (128 * yy + zz <= 16382)%Z
    /\ (0 <= IZR baseMidiNote * 100 + centsOffset < 12800 ->
        xx = Zfloor ((IZR baseMidiNote * 100 + centsOffset) / 100)
        /\ Rabs (IZR xx * 100 + IZR (128 * yy + zz) / 16383 * 100
                 - (IZR baseMidiNote * 100 + centsOffset)) <= 100 / 16383).
Proof.
  unfold centsToMTSFrequencyData.
  set (total := IZR baseMidiNote * 100 + centsOffset).
  set (semitone := Zfloor (total / 100)).
  pose proof (Zfloor_bound (total / 100)) as Hfl. fold semitone in Hfl.
  destruct (Z.ltb_spec semitone 0) as [Hneg | Hnn].
  { exists 0%Z, 0%Z, 0%Z. split; [reflexivity |]. do 4 (split; [lia |]).
    intros Ht. exfalso.
    assert (IZR semitone <= IZR (-1)) by (apply IZR_le; lia). lra. }
  destruct (Z.ltb_spec 127 semitone) as [Hbig | Hsmall].
  { exists 0x7F%Z, 0x7F%Z, 0x7E%Z. split; [reflexivity |]. do 4 (split; [lia |]).
    intros Ht. exfalso.
    assert (IZR 128 <= IZR semitone) by (apply IZR_le; lia). lra. }
  set (fc := total - IZR semitone * 100).
  set (fc' := Rmax 0 (Rmin 99.9939 fc)).
  set (v := Math_round (fc' / 100 * 16383)).
  assert (Hfc : 0 <= fc < 100) by (unfold fc; lra).
  assert (Hfc' : 0 <= fc' <= 99.9939).
  { unfold fc', Rmax, Rmin. repeat destruct (Rle_dec _ _); lra. }
  assert (Hv : (0 <= v <= 16382)%Z).
  { split; [apply round_above | apply round_below]; simpl; lra. }
  rewrite Z.min_r, Z.max_r by lia.
  destruct (seven_bits v) as (Hm & Hl & Hsum); [lia |].
  assert (Hx : Z.land semitone 0x7F = semitone).
  { change 0x7F%Z with (Z.ones 7). rewrite Z.land_ones by lia.
    apply Z.mod_small. change (2 ^ 7)%Z with 128%Z. lia. }
  eexists _, _, _. split; [reflexivity |]. rewrite Hx, Hsum.
  split; [lia |]. split; [done |]. split; [done |]. split; [lia |].
  intros Ht. split; [done |].
  pose proof (round_near (fc' / 100 * 16383)) as Hn. fold v in Hn.
  apply Rabs_le.
  destruct (Rle_dec fc 99.9939) as [Hle | Hgt].
  - assert (fc' = fc) as Hcl.
    { unfold fc', Rmax, Rmin. repeat destruct (Rle_dec _ _); lra. }
    rewrite Hcl in Hn. unfold fc in *. lra.
  - assert (fc' = 99.9939) as Hcl.
    { unfold fc', Rmax, Rmin. repeat destruct (Rle_dec _ _); lra. }
    assert (v = 16382%Z) as Hv2.
    { apply Z.le_antisymm; [lia |]. apply round_above. rewrite Hcl. simpl. lra. }
    rewrite Hv2. unfold fc in *. lra.
Qed.


Lemma centsToMTSFrequencyData_length (n : Z) (c : R) :
  length (centsToMTSFrequencyData n c) = 3%nat.
Proof. by destruct (centsToMTSFrequencyData_spec n c) as (xx & yy & zz & -> & _). Qed.

(** X14.  [buildMultiNoteTuning] returns null for an empty list; otherwise the
    message carries the count [min(n, 127)] and four 7-bit bytes for
    each of the first [min(n, 127)] changes, changes beyond the 127th
    are ignored, and for a single change the message is that of
    [buildSingleNoteTuning]. *)
Theorem multi_note_message_is_well_formed (noteChanges : list (Z * R)) :
  (noteChanges = [] -> buildMultiNoteTuning noteChanges = None)
  /\ (noteChanges ≠ [] ->
      exists data,
        buildMultiNoteTuning noteChanges
        = Some ([0xF0; 0x7F; 0x7F; 0x08; 0x02; 0x00;
                 Z.of_nat (Nat.min (length noteChanges) 127)]%Z ++ data ++ [0xF7]%Z)
        /\ length data = (4 * Nat.min (length noteChanges) 127)%nat
        /\ Forall (fun b => (0 <= b <= 127)%Z) data
        /\ buildMultiNoteTuning noteChanges = buildMultiNoteTuning (take 127 noteChanges))
  /\ (forall note cents,
        buildMultiNoteTuning [(note, cents)] = Some (buildSingleNoteTuning note cents)).
Proof.
  split; [| split].
  - by intros ->.
  - intros Hne. unfold buildMultiNoteTuning.
    assert (Hlen : (length noteChanges =? 0)%nat = false).
    { apply Nat.eqb_neq. by destruct noteChanges. }
    rewrite Hlen. eexists. split; [reflexivity |]. split; [| split].
    + rewrite (length_concat_chunks _ 4%nat).
      * rewrite length_take. lia.
      * intros [n c]. cbn [length fst snd]. by rewrite centsToMTSFrequencyData_length.
    + apply Forall_concat_map. intros [n c]. cbn [fst snd].
      destruct (centsToMTSFrequencyData_spec n c) as (xx & yy & zz & -> & Hx & Hy & Hz & _).
      constructor; [apply low_seven_bits |].
      repeat (constructor; [done |]). constructor.
    + assert (Hlen' : (length (take 127 noteChanges) =? 0)%nat = false).
      { apply Nat.eqb_neq. destruct noteChanges; [done |]. simpl. lia. }
      rewrite Hlen'. rewrite length_take.
      replace (Nat.min (Nat.min 127 (length noteChanges)) 127)
        with (Nat.min (length noteChanges) 127) by lia.
      rewrite take_take.
      replace (Nat.min (Nat.min (length noteChanges) 127) 127)
        with (Nat.min (length noteChanges) 127) by lia.
      reflexivity.
  - intros note cents. unfold buildMultiNoteTuning, buildSingleNoteTuning.
    cbn [length Nat.eqb Nat.min take map concat fst snd].
    rewrite app_nil_r. reflexivity.
Qed.

Lemma multi_note_message_is_well_formed_witness :
  buildMultiNoteTuning [] = None
  /\ exists data,
       buildMultiNoteTuning [(60%Z, 0); (64%Z, -13.69)]
       = Some ([0xF0; 0x7F; 0x7F; 0x08; 0x02; 0x00; 2]%Z ++ data ++ [0xF7]%Z)
       /\ length data = 8%nat.
Proof.
  split.
  - by apply (proj1 (multi_note_message_is_well_formed [])).
  - destruct (proj1 (proj2 (multi_note_message_is_well_formed [(60%Z, 0); (64%Z, -13.69)])))
      as (data & E & Hl & _); [done |].
    exists data. by split.
Defined.


End MTSMessageProofs.

(** ** Runs of the MTS module (js/tuning-mts.js) *)

Module MTSRunProofs.
Import TuningCore TuningMTS.
Local Open Scope Z_scope.

Lemma sent_messages_app (tr1 tr2 : list effect) :
  sent_messages (tr1 ++ tr2) = sent_messages tr1 ++ sent_messages tr2.
Proof. unfold sent_messages. apply omap_app. Qed.

Lemma sendsAndCounts_refl (s : state) : sendsAndCounts s s [].
Proof. unfold sendsAndCounts. cbn. repeat split; try done. lia. Qed.

Lemma sendsAndCounts_log (s s' : state) (tr : list effect) (e : effect) :
  is_log_line e = true -> sendsAndCounts s s' tr -> sendsAndCounts s s' (tr ++ [e]).
Proof.
  intros He (Hc & Hs & Hrest). unfold sendsAndCounts.
  rewrite sent_messages_app.
  assert (sent_messages [e] = []) as -> by (by destruct e).
  rewrite app_nil_r. done.
Qed.

Lemma sendsAndCounts_trans (s1 s2 s3 : state) (tr1 tr2 : list effect) :
  sendsAndCounts s1 s2 tr1 -> sendsAndCounts s2 s3 tr2 ->
  sendsAndCounts s1 s3 (tr1 ++ tr2).
Proof.
  intros (Hc1 & Hs1 & A1 & B1 & C1 & D1) (Hc2 & Hs2 & A2 & B2 & C2 & D2).
  unfold sendsAndCounts. rewrite sent_messages_app, length_app.
  split; [lia |]. split; [by apply Forall_app |].
  repeat split; congruence.
Qed.

Lemma sendScaleOctaveTuning_counts midiOutput centsArray now s :
  sendsAndCounts s (sendScaleOctaveTuning midiOutput centsArray now s).1.2
                 (sendScaleOctaveTuning midiOutput centsArray now s).2.
Proof.
  unfold sendScaleOctaveTuning.
  destruct midiOutput as [out |]; [| apply sendsAndCounts_refl].
  unfold buildScaleOctaveTuning2Byte.
  destruct (negb (length centsArray =? 12)%nat); cbn [fst snd].
  { apply (sendsAndCounts_log s s []); [done | apply sendsAndCounts_refl]. }
  destruct (sendThrows out _); cbn [fst snd app].
  { apply (sendsAndCounts_log s s []); [done | apply sendsAndCounts_refl]. }
  unfold sendsAndCounts. cbn. repeat split; try done.
  by repeat constructor.
Qed.

Lemma applySingleNoteTuning_counts midiOutput note cents now s :
  sendsAndCounts s (applySingleNoteTuning midiOutput note cents now s).1.2
                 (applySingleNoteTuning midiOutput note cents now s).2.
Proof.
  unfold applySingleNoteTuning.
  destruct midiOutput as [out |]; [| apply sendsAndCounts_refl].
  destruct (negb (mtsSupported s)); [apply sendsAndCounts_refl |].
  destruct (sendThrows out _); cbn [fst snd].
  { apply (sendsAndCounts_log s s []); [done | apply sendsAndCounts_refl]. }
  unfold sendsAndCounts. cbn. repeat split; try done.
  by repeat constructor.
Qed.

Lemma applyJITuningForKey_counts midiOutput keyRoot isMinor now s :
  sendsAndCounts s (applyJITuningForKey midiOutput keyRoot isMinor now s).1.2
                 (applyJITuningForKey midiOutput keyRoot isMinor now s).2.
Proof.
  unfold applyJITuningForKey.
  destruct midiOutput as [out |]; [| apply sendsAndCounts_refl].
  destruct (mtsSupported s && negb (mtsFallbackRequested s)); [| apply sendsAndCounts_refl].
  pose proof (sendScaleOctaveTuning_counts (Some out)
                (calculateScaleOctaveTuning keyRoot isMinor) now s) as H.
  destruct (sendScaleOctaveTuning _ _ _ _) as [[r s'] tr]. cbn [fst snd] in *.
  destruct (success r); cbn [fst snd]; [| done].
  by apply sendsAndCounts_log.
Qed.

Lemma applyJITuningForInheritedRoot_counts midiOutput isMinor now s :
  sendsAndCounts s (applyJITuningForInheritedRoot midiOutput isMinor now s).1.2
                 (applyJITuningForInheritedRoot midiOutput isMinor now s).2.
Proof.
  unfold applyJITuningForInheritedRoot.
  destruct midiOutput as [out |]; [| apply sendsAndCounts_refl].
  destruct (mtsSupported s && negb (mtsFallbackRequested s)); [| apply sendsAndCounts_refl].
  destruct (sendThrows out _); cbn [fst snd].
  { apply (sendsAndCounts_log s s []); [done | apply sendsAndCounts_refl]. }
  unfold sendsAndCounts. cbn. repeat split; try done.
  by repeat constructor.
Qed.

Lemma resetToEqualTemperament_counts midiOutput now s :
  sendsAndCounts s (resetToEqualTemperament midiOutput now s).1
                 (resetToEqualTemperament midiOutput now s).2.
Proof.
  unfold resetToEqualTemperament.
  destruct (bool_decide (is_Some midiOutput) && mtsSupported s); [| apply sendsAndCounts_refl].
  pose proof (sendScaleOctaveTuning_counts midiOutput equalTemperament now s) as H.
  destruct (sendScaleOctaveTuning _ _ _ _) as [[r s'] tr]. cbn [fst snd] in *.
  by apply sendsAndCounts_log.
Qed.

(** A step that may also choose the mode: the counter still counts
    what was sent, and the module supports MTS exactly when its mode is
    "MTS". *)
Lemma mtsInv_step (w : mtsWorld) (s' : state) (ls : gmap string string) (tr : list effect) :
  mtsInv w ->
  mtsMessagesSent s' = mtsMessagesSent (vars w) + Z.of_nat (length (sent_messages tr)) ->
  Forall (fun m => isSysEx m = true) (sent_messages tr) ->
  (mtsSupported s' = true <-> currentTuningMode s' = "MTS"%string) ->
  currentTuningMode s' ∈ ["detecting"; "MPE"; "MTS"]%string ->
  mtsInv (mkWorld s' ls (effects w ++ tr)).
Proof.
  intros [Hc Hs Hsup Hmode] Hc' Hs' Hsup' Hmode'. constructor; cbn [vars effects]; try done.
  - rewrite sent_messages_app, length_app. lia.
  - rewrite sent_messages_app. by apply Forall_app.
Qed.

Lemma mtsInv_sends (w : mtsWorld) (s' : state) (tr : list effect) :
  mtsInv w -> sendsAndCounts (vars w) s' tr ->
  mtsInv (mkWorld s' (storage w) (effects w ++ tr)).
Proof.
  intros HI (Hc & Hs & A & B & C & D).
  apply mtsInv_step; try done.
  - rewrite A, D. apply (inv_supported w HI).
  - rewrite D. apply (inv_mode w HI).
Qed.

Lemma mode_MPE : "MPE"%string ∈ ["detecting"; "MPE"; "MTS"]%string.
Proof. apply elem_of_cons. right. apply elem_of_cons. by left. Qed.

Lemma mode_MTS : "MTS"%string ∈ ["detecting"; "MPE"; "MTS"]%string.
Proof. do 2 (apply elem_of_cons; right). apply elem_of_cons. by left. Qed.

Lemma mtsPerform_preserves (w : mtsWorld) (c : mtsCall) : mtsInv w -> mtsInv (mtsPerform w c).
Proof.
  intros HI.
  destruct c as [out cents now | out now | out note cents now | out root minor now
                 | out sysex now | out | out sysex key now |]; cbn [mtsPerform].
  - pose proof (sendScaleOctaveTuning_counts out cents now (vars w)) as H.
    destruct (sendScaleOctaveTuning _ _ _ _) as [[r s'] tr]. by apply mtsInv_sends.
  - pose proof (resetToEqualTemperament_counts out now (vars w)) as H.
    destruct (resetToEqualTemperament _ _ _) as [s' tr]. by apply mtsInv_sends.
  - pose proof (applySingleNoteTuning_counts out note cents now (vars w)) as H.
    destruct (applySingleNoteTuning _ _ _ _ _) as [[r s'] tr]. by apply mtsInv_sends.
  - pose proof (applyJITuningForKey_counts out root minor now (vars w)) as H.
    destruct (applyJITuningForKey _ _ _ _ _) as [[r s'] tr]. by apply mtsInv_sends.
  - unfold detectMTSSupport.
    destruct (negb (bool_decide (is_Some out)) || mtsDetectionAttempted (vars w)).
    { apply (mtsInv_sends w (vars w) []); [done | apply sendsAndCounts_refl]. }
    destruct (negb sysex).
    { apply mtsInv_step; cbn; try done; [lia | apply mode_MPE]. }
    destruct (bool_decide (storage w !! preferenceKey = Some "MPE"%string)).
    { apply mtsInv_step; cbn; try done; [lia | apply mode_MPE]. }
    match goal with
    | |- context [sendScaleOctaveTuning ?o ?c ?n ?s1] =>
        pose proof (sendScaleOctaveTuning_counts o c n s1) as H;
        destruct (sendScaleOctaveTuning o c n s1) as [[r s2] tr]
    end.
    cbn [fst snd] in H. destruct H as (Hc & Hs & A & B & C & D).
    cbn [mtsSupported currentTuningMode mtsMessagesSent] in *.
    apply mtsInv_step; cbn [mtsSupported currentTuningMode mtsMessagesSent].
    + done.
    + rewrite !sent_messages_app. cbn. rewrite app_nil_r. exact Hc.
    + rewrite !sent_messages_app. cbn. by rewrite app_nil_r.
    + by rewrite A, D.
    + rewrite D. apply mode_MTS.
  - unfold switchToMPEMode.
    apply mtsInv_step; cbn [mtsSupported currentTuningMode mtsMessagesSent]; try done.
    + rewrite sent_messages_app. by destruct (bool_decide _); cbn; lia.
    + rewrite sent_messages_app. by destruct (bool_decide _); cbn.
    + apply mode_MPE.
  - unfold switchToMTSMode. destruct (negb sysex).
    { apply (mtsInv_step w (vars w) (storage w)); cbn; try done;
        [lia | apply (inv_supported w HI) | apply (inv_mode w HI)]. }
    match goal with
    | |- context [sendScaleOctaveTuning ?o ?c ?n ?s1] =>
        pose proof (sendScaleOctaveTuning_counts o c n s1) as H1;
        destruct (sendScaleOctaveTuning o c n s1) as [[r s2] tr1]
    end.
    cbn [fst snd] in H1.
    assert (H2 : exists s3 tr2,
               (match key with
                | Some key =>
                    if bool_decide (key = ""%string) then (s2, [])
                    else
                      let '(_, s3, tr2) :=
                        match getKeyRoot key with
                        | RootNumber keyRoot =>
                            applyJITuningForKey out keyRoot (isMinorKey key) now s2
                        | RootInherited =>
                            applyJITuningForInheritedRoot out (isMinorKey key) now s2
                        end in
                      (s3, tr2)
                | None => (s2, [])
                end) = (s3, tr2) /\ sendsAndCounts s2 s3 tr2).
    { destruct key as [key |]; [| eexists _, _; split; [done | apply sendsAndCounts_refl]].
      destruct (bool_decide (key = ""%string));
        [eexists _, _; split; [done | apply sendsAndCounts_refl] |].
      destruct (getKeyRoot key) as [keyRoot |].
      - pose proof (applyJITuningForKey_counts out keyRoot (isMinorKey key) now s2) as H.
        destruct (applyJITuningForKey _ _ _ _ _) as [[r' s3] tr2]. by eexists _, _.
      - pose proof (applyJITuningForInheritedRoot_counts out (isMinorKey key) now s2) as H.
        destruct (applyJITuningForInheritedRoot _ _ _ _) as [[r' s3] tr2]. by eexists _, _. }
    destruct H2 as (s3 & tr2 & -> & H2).
    pose proof (sendsAndCounts_trans _ _ _ _ _ H1 H2) as (Hc & Hs & A & B & C & D).
    cbn [mtsSupported currentTuningMode mtsMessagesSent] in *.
    apply mtsInv_step.
    + done.
    + rewrite !sent_messages_app in *. cbn. rewrite app_nil_r.
      rewrite length_app in *. exact Hc.
    + rewrite !sent_messages_app in *. cbn. by rewrite app_nil_r.
    + by rewrite A, D.
    + rewrite D. apply mode_MTS.
  - destruct HI as [Hc Hs Hsup Hmode]. by constructor.
Qed.

(** X15.  After every sequence of calls of the MTS module from its initial
    state, [mtsMessagesSent] is the number of messages handed to
    [midiOutput.send], each of them is a system-exclusive message,
    [mtsSupported] holds exactly when the mode is MTS, and the mode is
    one of detecting, MPE and MTS. *)
Theorem counter_counts_the_messages_sent (stored : gmap string string) (calls : list mtsCall) :
  let w := mtsAfter stored calls in
  mtsMessagesSent (vars w) = Z.of_nat (length (sent_messages (effects w)))
  /\ Forall (fun m => isSysEx m = true) (sent_messages (effects w))
  /\ (mtsSupported (vars w) = true <-> currentTuningMode (vars w) = "MTS"%string)
  /\ currentTuningMode (vars w) ∈ ["detecting"; "MPE"; "MTS"]%string.
Proof.
  cbv zeta.
  assert (HI : mtsInv (mtsAfter stored calls)).
  { unfold mtsAfter. induction calls as [| c calls IH] using rev_ind.
    - constructor; cbn; try done. apply elem_of_cons. by left.
    - rewrite fold_left_app. cbn [fold_left]. by apply mtsPerform_preserves. }
  by destruct HI.
Qed.

(** X16.  [detectMTSSupport] with an output sets [mtsDetectionAttempted];
    from then on every further call returns at once, changing and
    sending nothing, until [resetMTSDetection], after which detection
    runs again. *)
Theorem detection_runs_once_until_reset
    (out : port) (sysexEnabled : bool) (localStorage : gmap string string)
    (now : Z) (s : state) :
  let s1 := fst (detectMTSSupport (Some out) sysexEnabled localStorage now s) in
  mtsDetectionAttempted s1 = true
  /\ (forall out' sysexEnabled' localStorage' now',
        detectMTSSupport out' sysexEnabled' localStorage' now' s1 = (s1, []))
  /\ (forall sysexEnabled' localStorage' now',
        ConsoleLog "Initializing MTS tuning system..."
        ∈ snd (detectMTSSupport (Some out) sysexEnabled' localStorage' now'
                 (resetMTSDetection s1))).
Proof.
  cbv zeta.
  assert (Hatt : mtsDetectionAttempted
                   (fst (detectMTSSupport (Some out) sysexEnabled localStorage now s)) = true).
  { unfold detectMTSSupport. cbn [negb orb bool_decide].
    rewrite bool_decide_eq_true_2 by (by eexists). cbn [negb orb].
    destruct (mtsDetectionAttempted s) eqn:Ha; [done |].
    destruct (negb sysexEnabled); [done |].
    destruct (bool_decide _); [done |].
    destruct (sendScaleOctaveTuning _ _ _ _) as [[r s2] tr] eqn:E. cbn [fst mtsDetectionAttempted].
    pose proof (sendScaleOctaveTuning_counts (Some out) equalTemperament now
                  (mkState true true (mtsFallbackRequested s) (mtsLastSuccessTime s)
                     (mtsMessagesSent s) (currentScaleOctaveTuning s) "MTS")) as H.
    rewrite E in H. cbn [fst snd] in H. by destruct H as (_ & _ & _ & _ & -> & _). }
  split; [exact Hatt |]. split.
  - intros out' sysex' ls' now'. unfold detectMTSSupport at 1. rewrite Hatt.
    by rewrite orb_true_r.
  - intros sysex' ls' now'. unfold detectMTSSupport at 1.
    rewrite bool_decide_eq_true_2 by (by eexists).
    cbn [negb orb resetMTSDetection mtsDetectionAttempted].
    destruct (negb sysex'); [apply elem_of_cons; by left |].
    destruct (bool_decide _); [apply elem_of_cons; by left |].
    destruct (sendScaleOctaveTuning _ _ _ _) as [[r s2] tr]. cbn [snd].
    apply elem_of_cons. by left.
Qed.

(** X17.  The stored preference decides the mode after a reload: after
    [switchToMPEMode] a detection from the initial state chooses MPE
    and sends nothing, whatever the SysEx permission; after a
    successful [switchToMTSMode] a detection with SysEx enabled chooses
    MTS; and [switchToMTSMode] without SysEx permission returns false
    and changes and sends nothing. *)
Theorem preference_survives_a_reload :
  (forall (out : option port) (localStorage : gmap string string) (s : state)
          (device : port) (sysexEnabled : bool) (now : Z),
      let stored := snd (fst (switchToMPEMode out localStorage s)) in
      let reloaded := detectMTSSupport (Some device) sysexEnabled stored now initialState in
      currentTuningMode (fst reloaded) = "MPE"%string
      /\ mtsSupported (fst reloaded) = false
      /\ sent_messages (snd reloaded) = [])
  /\ (forall (out : option port) (currentKey : option string)
             (localStorage : gmap string string) (s : state)
             (device : port) (now now' : Z),
        let stored := snd (fst (switchToMTSMode out true currentKey localStorage now s)) in
        let reloaded := detectMTSSupport (Some device) true stored now' initialState in
        fst (fst (fst (switchToMTSMode out true currentKey localStorage now s))) = true
        /\ currentTuningMode (fst reloaded) = "MTS"%string
        /\ mtsSupported (fst reloaded) = true)
  /\ (forall (out : option port) (currentKey : option string)
             (localStorage : gmap string string) (s : state) (now : Z),
        fst (switchToMTSMode out false currentKey localStorage now s)
        = (false, s, localStorage)
        /\ sent_messages (snd (switchToMTSMode out false currentKey localStorage now s)) = []).
Proof.
  split; [| split].
  - intros out ls s device sysex now. cbv zeta.
    unfold switchToMPEMode. cbn [fst snd]. unfold detectMTSSupport.
    rewrite bool_decide_eq_true_2 by (by eexists).
    cbn [negb orb initialState mtsDetectionAttempted].
    destruct (negb sysex); [done |].
    rewrite bool_decide_eq_true_2 by apply lookup_insert_eq. done.
  - intros out key ls s device now now'. cbv zeta.
    unfold switchToMTSMode. cbn [negb].
    destruct (sendScaleOctaveTuning out _ _ _) as [[r1 s2] tr1].
    destruct (match key with Some _ => _ | None => _ end) as [s3 tr2].
    cbn [fst snd]. split; [done |].
    unfold detectMTSSupport.
    rewrite bool_decide_eq_true_2 by (by eexists).
    cbn [negb orb initialState mtsDetectionAttempted].
    rewrite bool_decide_eq_false_2 by (by rewrite lookup_delete_eq).
    match goal with
    | |- context [sendScaleOctaveTuning ?o ?c ?n ?s1] =>
        pose proof (sendScaleOctaveTuning_counts o c n s1) as H;
        destruct (sendScaleOctaveTuning o c n s1) as [[r s4] tr]
    end.
    cbn [fst snd] in *. destruct H as (_ & _ & A & _ & _ & D).
    cbn [currentTuningMode mtsSupported] in *. by rewrite A, D.
  - intros out key ls s now. by unfold switchToMTSMode.
Qed.

End MTSRunProofs.

(** ** A note-on and its note-off (js/main.js) *)

Module NotePairProofs.
Import TuningMPE TuningMPEProofs Main ForwardProofs PoolOrderProofs.
Local Open Scope Z_scope.

Lemma forward_note_on_free (s : TuningMPE.state) (m : TuningMTS.state)
    (noteData : tunedNote) (channel now c : Z) (rest : list chan) (out : port) :
  TuningMTS.mtsSupported m = false ->
  noteId noteData ≠ "" -> activeNotes s !! noteId noteData = None ->
  channelPool s = Chan c :: rest ->
  forwardNoteExternal noteData channel true out now (mkBackends s m)
  = (mkBackends (snd (fst (allocateChannel (noteId noteData) (fst (rangeSetup s))))) m,
     snd (rangeSetup s)
       ++ snd (sendPitchBend true (Some (Chan c)) (pitchBend noteData))
       ++ [MidiSend [Z.lor 0x90 c; note noteData; velocity noteData]]).
Proof.
  intros Hmts Hid Hfree Hpool.
  pose proof (rangeSetup_fields s) as (Hp0 & Ha0 & Ho0).
  assert (Halloc : allocateChannel (noteId noteData) (fst (rangeSetup s))
                   = (AllocChannel (Chan c),
                      snd (fst (allocateChannel (noteId noteData) (fst (rangeSetup s)))), [])).
  { unfold allocateChannel. rewrite bool_decide_eq_false_2 by done.
    by rewrite Ha0, Hfree, Hp0, Hpool. }
  unfold forwardNoteExternal, TuningMTS.isMTSSupported. cbn [mts mpe].
  rewrite Hmts. cbv iota. rewrite andb_true_r.
  unfold rangeSetup in *.
  destruct (negb (isPitchBendRangeInitialized s)).
  - destruct (initializePitchBendRange true s) as [[ok s0] tr0]. cbn [fst snd] in *.
    rewrite Halloc. cbn [fst snd negb andb app]. rewrite ?andb_false_r. cbn [negb andb].
    by rewrite !app_nil_r, <- ?app_assoc.
  - cbn [fst snd] in *.
    rewrite Halloc. cbn [fst snd negb andb app]. rewrite ?andb_false_r. cbn [negb andb].
    by rewrite ?app_nil_r.
Qed.

Lemma forward_note_off_held (s : TuningMPE.state) (m : TuningMTS.state)
    (noteData : tunedNote) (channel now c : Z) (out : port) :
  TuningMTS.mtsSupported m = false ->
  noteId noteData ≠ "" -> activeNotes s !! noteId noteData = Some (Chan c) ->
  forwardNoteExternal noteData channel false out now (mkBackends s m)
  = (mkBackends (releaseChannel (noteId noteData) s) m,
     snd (sendPitchBend true (Some (Chan c)) (pitchBend noteData))
       ++ [MidiSend [Z.lor 0x80 c; note noteData; velocity noteData]]
       ++ [MidiSend [Z.lor 0xE0 c; 0; 64]]).
Proof.
  intros Hmts Hid Hheld.
  unfold forwardNoteExternal, TuningMTS.isMTSSupported. cbn [mts mpe].
  rewrite Hmts. cbv iota. rewrite !andb_false_r.
  rewrite (bool_decide_eq_false_2 (noteId noteData = ""%string)) by done.
  unfold getChannelForNote. rewrite Hheld.
  cbn [negb andb fst snd app chanBits]. by rewrite bend_reset.
Qed.

(** X18.  In MPE mode, a note-on on a free channel followed by its note-off
    leaves the allocator as it was (the range set-up apart): the
    note-on sends the range set-up if due, the pitch bend and the
    note-on on the head of the pool; the note-off sends a bend reset, the
    note-off and a second bend reset on that same channel and returns
    the channel to the pool. *)
Theorem note_off_undoes_note_on
    (calls : list call) (m : TuningMTS.state) (out : port)
    (n v bend channel now now' : Z) (id : string) :
  let s := after calls in
  let on := forwardNoteExternal (mkTuned n v bend id) channel true out now (mkBackends s m) in
  let off := forwardNoteExternal (mkTuned n 0 0 id) channel false out now' (fst on) in
  TuningMTS.mtsSupported m = false ->
  id ≠ "" -> activeNotes s !! id = None -> channelPool s ≠ [] ->
  exists c,
    1 <= c <= 15
    /\ head (channelPool s) = Some (Chan c)
    /\ sent_messages (snd on)
       = sent_messages (snd (rangeSetup s))
           ++ sent_messages (snd (sendPitchBend true (Some (Chan c)) bend))
           ++ [[Z.lor 0x90 c; n; v]]
    /\ sent_messages (snd off)
       = [[Z.lor 0xE0 c; 0; 64]; [Z.lor 0x80 c; n; 0]; [Z.lor 0xE0 c; 0; 64]]
    /\ mpe (fst off) = fst (rangeSetup s)
    /\ mts (fst off) = m.
Proof.
  intros s on off Hmts Hid Hfree Hpool.
  pose proof (Inv_after calls) as HI. fold s in HI.
  pose proof (sorted_after calls) as Hs. fold s in Hs.
  pose proof (rangeSetup_Inv s HI) as HI0.
  pose proof (rangeSetup_fields s) as (Hp0 & Ha0 & Ho0).
  destruct (channelPool s) as [| channel0 rest] eqn:Hp; [done |].
  destruct (inv_pool_member s HI channel0) as (c & -> & Hc).
  { rewrite Hp. apply elem_of_cons. by left. }
  assert (Hon : on = (mkBackends (snd (fst (allocateChannel id (fst (rangeSetup s))))) m,
                      snd (rangeSetup s)
                        ++ snd (sendPitchBend true (Some (Chan c)) bend)
                        ++ [MidiSend [Z.lor 0x90 c; n; v]])).
  { subst on. by rewrite (forward_note_on_free s m _ channel now c rest out). }
  assert (Hheld : activeNotes (snd (fst (allocateChannel id (fst (rangeSetup s))))) !! id
                  = Some (Chan c)).
  { unfold allocateChannel. rewrite bool_decide_eq_false_2 by done.
    rewrite Ha0, Hfree, Hp0. cbn [fst snd activeNotes]. apply lookup_insert_eq. }
  assert (Hoff : off = (mkBackends (fst (rangeSetup s)) m,
                        [MidiSend [Z.lor 0xE0 c; 0; 64]]
                          ++ [MidiSend [Z.lor 0x80 c; n; 0]]
                          ++ [MidiSend [Z.lor 0xE0 c; 0; 64]])).
  { subst off. rewrite Hon. cbn [fst].
    rewrite (forward_note_off_held _ m _ channel now' c out); try done.
    cbn [noteId pitchBend note velocity]. rewrite bend_reset. cbn [snd].
    rewrite release_after_allocate; try done.
    - by rewrite Hp0.
    - by rewrite Ha0.
    - by rewrite Hp0. }
  exists c. rewrite Hon, Hoff. cbn [fst snd mpe mts head].
  split; [done |]. split; [done |].
  split; [unfold sent_messages; by rewrite !omap_app |]. done.
Qed.

Lemma note_off_undoes_note_on_witness :
  exists c,
    1 <= c <= 15
    /\ head (channelPool (after [Allocate "1_60"])) = Some (Chan c)
    /\ mpe (fst (forwardNoteExternal (mkTuned 64 0 0 "2_64") 0 false (mkPort false) 5
                   (fst (forwardNoteExternal (mkTuned 64 100 (-561) "2_64") 0 true
                           (mkPort false) 0
                           (mkBackends (after [Allocate "1_60"]) TuningMTS.initialState)))))
       = fst (rangeSetup (after [Allocate "1_60"])).
Proof.
  destruct (note_off_undoes_note_on [Allocate "1_60"] TuningMTS.initialState (mkPort false)
              64 100 (-561) 0 0 5 "2_64") as (c & Hc & Hhead & _ & _ & Hmpe & _).
  - reflexivity.
  - done.
  - vm_compute. reflexivity.
  - vm_compute. discriminate.
  - exists c. split; [exact Hc |]. split; [exact Hhead | exact Hmpe].
Defined.

(** X19.  In MTS mode [forwardNoteExternal] never touches the channel
    allocator and sends the note on its input channel: a note-on with a
    non-zero bend is preceded by one single-note tuning message (and
    counted), or, if the output throws on it, by a pitch bend on the
    input channel; a note-off or a bend of zero sends the note message
    alone. *)
Theorem mts_mode_keeps_the_input_channel
    (b : backends) (noteData : tunedNote) (channel now : Z) (isNoteOn : bool) (out : port) :
  let r := forwardNoteExternal noteData channel isNoteOn out now b in
  let status := if isNoteOn then Z.lor 0x90 channel else Z.lor 0x80 channel in
  let noteMessage := [status; note noteData; velocity noteData] in
  TuningMTS.mtsSupported (mts b) = true ->
  mpe (fst r) = mpe b
  /\ (isNoteOn = true -> pitchBend noteData ≠ 0 -> rejectsSysEx out = false ->
      sent_messages (snd r)
      = [TuningMTS.buildSingleNoteTuning (note noteData)
           (TuningCore.pitchBendToCents (pitchBend noteData));
         noteMessage]
      /\ TuningMTS.mtsMessagesSent (mts (fst r)) = TuningMTS.mtsMessagesSent (mts b) + 1)
  /\ (isNoteOn = true -> pitchBend noteData ≠ 0 -> rejectsSysEx out = true ->
      sent_messages (snd r)
      = sent_messages (snd (sendPitchBend true (Some (Chan channel)) (pitchBend noteData)))
          ++ [noteMessage]
      /\ mts (fst r) = mts b)
  /\ (isNoteOn = false \/ pitchBend noteData = 0 ->
      sent_messages (snd r) = [noteMessage] /\ mts (fst r) = mts b).
Proof.
  intros r status noteMessage Hmts. subst r status noteMessage.
  unfold forwardNoteExternal, TuningMTS.isMTSSupported. rewrite Hmts.
  cbn [negb andb]. rewrite !andb_true_r, !andb_false_r.
  split; [| split; [| split]].
  - destruct (isNoteOn && negb (pitchBend noteData =? 0)); [| done].
    by destruct (TuningMTS.applySingleNoteTuning _ _ _ _ _) as [[res m1] tr2].
  - intros -> Hpb Hout. apply Z.eqb_neq in Hpb. rewrite Hpb. cbn [negb andb].
    unfold TuningMTS.applySingleNoteTuning. rewrite Hmts. cbn [negb].
    unfold sendThrows. rewrite Hout. cbn [andb fst snd TuningMTS.success negb mts chanBits].
    done.
  - intros -> Hpb Hout. apply Z.eqb_neq in Hpb. rewrite Hpb. cbn [negb andb].
    unfold TuningMTS.applySingleNoteTuning. rewrite Hmts. cbn [negb].
    unfold sendThrows, isSysEx, TuningMTS.buildSingleNoteTuning. rewrite Hout.
    cbn [andb app Z.eqb Pos.eqb fst snd TuningMTS.success TuningMTS.failure negb mts chanBits].
    split; [| done].
    change (sent_messages (?e :: ?l)) with (sent_messages ([e] ++ l)).
    unfold sent_messages. by rewrite !omap_app.
  - intros [-> | Hpb].
    + done.
    + rewrite Hpb. cbn [Z.eqb negb]. rewrite !andb_false_r. by destruct isNoteOn.
Qed.

Lemma mts_mode_keeps_the_input_channel_witness :
  mpe (fst (forwardNoteExternal (mkTuned 61 100 481 "1_61") 0 true (mkPort false) 7
              (mkBackends initialState
                 (TuningMTS.mkState true true false 0 1
                    (TuningCore.Num <$> TuningMTS.equalTemperament) "MTS"))))
  = initialState.
Proof.
  apply (proj1 (mts_mode_keeps_the_input_channel
                  (mkBackends initialState
                     (TuningMTS.mkState true true false 0 1
                    (TuningCore.Num <$> TuningMTS.equalTemperament) "MTS"))
                  (mkTuned 61 100 481 "1_61") 0 7 true (mkPort false) eq_refl)).
Defined.

End NotePairProofs.

(** ** The queues of predictions (js/main.js) *)

Module PredictiveQueueProofs.
Import TuningCore Main.
Local Open Scope Z_scope.

Lemma queueEntry_skip (pitch : Z) (st : predictiveState) (entry : prediction) :
  (forall id, note_id (fieldsOf entry) = Some id -> id ∈ predictiveSeenIds st) ->
  queueEntry pitch st entry = st.
Proof.
  intros H. unfold queueEntry.
  destruct (note_id (fieldsOf entry)) as [id |]; [| done].
  by rewrite bool_decide_eq_true_2 by (by apply H).
Qed.

Lemma queueEntry_seen (pitch : Z) (st : predictiveState) (entry : prediction) :
  predictiveSeenIds st ⊆ predictiveSeenIds (queueEntry pitch st entry)
  /\ forall id, note_id (fieldsOf entry) = Some id ->
                id ∈ predictiveSeenIds (queueEntry pitch st entry).
Proof.
  unfold queueEntry.
  destruct (note_id (fieldsOf entry)) as [id |]; [| by split].
  case_bool_decide as Hin; cbn [predictiveSeenIds].
  - split; [done |]. by intros ? [= <-].
  - split.
    + intros x Hx. apply elem_of_union. by right.
    + intros ? [= <-]. apply elem_of_union. left. by apply elem_of_singleton.
Qed.

Lemma queueEntries_seen (pitch : Z) (entries : list prediction) (st : predictiveState) :
  predictiveSeenIds st ⊆ predictiveSeenIds (fold_left (queueEntry pitch) entries st)
  /\ forall entry id, entry ∈ entries -> note_id (fieldsOf entry) = Some id ->
       id ∈ predictiveSeenIds (fold_left (queueEntry pitch) entries st).
Proof.
  revert st. induction entries as [| e entries IH]; intros st; cbn [fold_left].
  - split; [done |]. intros entry id H. by apply elem_of_nil in H.
  - destruct (IH (queueEntry pitch st e)) as [Hsub Hall].
    destruct (queueEntry_seen pitch st e) as [Hsub1 Hid1].
    split; [by etrans |].
    intros entry id [-> | Hin]%elem_of_cons Hid; [| by eapply Hall].
    apply Hsub. by apply Hid1.
Qed.

Lemma queueTable_seen (ratioTable : list (Z * list prediction)) (st : predictiveState) :
  let st' := fold_left (fun st pe => fold_left (queueEntry (fst pe)) (snd pe) st)
                       ratioTable st in
  predictiveSeenIds st ⊆ predictiveSeenIds st'
  /\ forall pe entry id, pe ∈ ratioTable -> entry ∈ snd pe ->
       note_id (fieldsOf entry) = Some id -> id ∈ predictiveSeenIds st'.
Proof.
  revert st. induction ratioTable as [| pe0 t IH]; intros st; cbn [fold_left].
  - split; [done |]. intros pe entry id H. by apply elem_of_nil in H.
  - destruct (IH (fold_left (queueEntry (fst pe0)) (snd pe0) st)) as [Hsub Hall].
    destruct (queueEntries_seen (fst pe0) (snd pe0) st) as [Hsub1 Hid1].
    split; [by etrans |].
    intros pe entry id [-> | Hin]%elem_of_cons He Hid; [| by eapply Hall].
    apply Hsub. by eapply Hid1.
Qed.

Lemma queueEntries_skip (pitch : Z) (entries : list prediction) (st : predictiveState) :
  (forall entry id, entry ∈ entries -> note_id (fieldsOf entry) = Some id ->
                    id ∈ predictiveSeenIds st) ->
  fold_left (queueEntry pitch) entries st = st.
Proof.
  induction entries as [| e entries IH]; intros H; cbn [fold_left]; [done |].
  rewrite queueEntry_skip.
  - apply IH. intros entry id Hin. apply H. apply elem_of_cons. by right.
  - intros id. apply H. apply elem_of_cons. by left.
Qed.

Lemma queueTable_skip (ratioTable : list (Z * list prediction)) (st : predictiveState) :
  (forall pe entry id, pe ∈ ratioTable -> entry ∈ snd pe ->
     note_id (fieldsOf entry) = Some id -> id ∈ predictiveSeenIds st) ->
  fold_left (fun st pe => fold_left (queueEntry (fst pe)) (snd pe) st) ratioTable st = st.
Proof.
  induction ratioTable as [| pe0 t IH]; intros H; cbn [fold_left]; [done |].
  rewrite queueEntries_skip.
  - apply IH. intros pe entry id Hin. apply H. apply elem_of_cons. by right.
  - intros entry id. apply H. apply elem_of_cons. by left.
Qed.

(** X20.  [window.applyJITuning] is idempotent: sending the same table of
    predictions a second time changes nothing, since every entry with
    an id is remembered in [predictiveSeenIds] and every entry without
    one is skipped. *)
Theorem a_table_sent_twice_is_queued_once
    (ratioTable : list (Z * list prediction)) (st : predictiveState) :
  applyJITuning ratioTable (applyJITuning ratioTable st) = applyJITuning ratioTable st.
Proof.
  unfold applyJITuning. case_bool_decide as Ht; [done |].
  destruct (queueTable_seen ratioTable st) as [_ Hall]. cbv zeta in Hall.
  set (st' := fold_left _ ratioTable st) in *.
  rewrite queueTable_skip; [done |].
  intros pe entry id Hpe He Hid. cbn [predictiveSeenIds]. by eapply Hall.
Qed.

Lemma queueInv_initial : queueInv (mkPredictive ∅ false ∅).
Proof.
  constructor; cbn [predictiveJITable predictiveSeenIds].
  - intros id p i (q & e & Hq & _). cbn [predictiveJITable] in Hq.
    by rewrite lookup_empty in Hq.
  - intros id p i p' i' (q & e & Hq & _). cbn [predictiveJITable] in Hq.
    by rewrite lookup_empty in Hq.
  - intros p q e Hq. by rewrite lookup_empty in Hq.
  - intros p. by rewrite lookup_empty.
Qed.

Lemma queueEntry_preserves (pitch : Z) (st : predictiveState) (entry : prediction) :
  queueInv st -> queueInv (queueEntry pitch st entry).
Proof.
  intros HI. unfold queueEntry.
  destruct (note_id (fieldsOf entry)) as [id |] eqn:Hid; [| done].
  case_bool_decide as Hseen; [done |].
  set (old := default [] (predictiveJITable st !! pitch)).
  assert (Hold : forall id' i e', old !! i = Some e' -> note_id (fieldsOf e') = Some id' ->
                                  queuedAt st id' pitch i).
  { intros id' i e' Hi He'. unfold old in Hi.
    destruct (predictiveJITable st !! pitch) as [q |] eqn:Hq; [| done].
    by exists q, e'. }
  assert (Hcases : forall id' p i,
             queuedAt (mkPredictive (<[pitch := old ++ [entry]]> (predictiveJITable st))
                                    (predictiveTuningActive st)
                                    ({[id]} ∪ predictiveSeenIds st)) id' p i ->
             queuedAt st id' p i \/ (id' = id /\ p = pitch /\ i = length old)).
  { intros id' p i (q & e' & Hq & Hi & He'). cbn [predictiveJITable] in Hq.
    destruct (decide (p = pitch)) as [-> | Hne].
    - rewrite lookup_insert_eq in Hq. injection Hq as <-.
      apply lookup_app_Some in Hi as [Hi | [Hlen Hi]]; [left; by eapply Hold |].
      right. apply list_lookup_singleton_Some in Hi as [Hi <-].
      split; [congruence |]. split; [done | lia].
    - rewrite lookup_insert_ne in Hq by done. left. by exists q, e'. }
  constructor; cbn [predictiveSeenIds].
  - intros id' p i [H | (-> & _)]%Hcases.
    + apply elem_of_union. right. by apply (queued_seen st HI id' p i).
    + apply elem_of_union. left. by apply elem_of_singleton.
  - intros id' p i p' i' [H | (-> & -> & ->)]%Hcases [H' | (E & -> & ->)]%Hcases.
    + by apply (queued_once st HI id').
    + subst id'. destruct Hseen. by apply (queued_seen st HI id p i).
    + destruct Hseen. by apply (queued_seen st HI id p' i').
    + done.
  - intros p q e' Hq He'. cbn [predictiveJITable] in Hq.
    destruct (decide (p = pitch)) as [-> | Hne].
    + rewrite lookup_insert_eq in Hq. injection Hq as <-.
      apply elem_of_app in He' as [He' | ->%list_elem_of_singleton]; [| by rewrite Hid].
      unfold old in He'.
      destruct (predictiveJITable st !! pitch) as [q |] eqn:Hq; [| by apply elem_of_nil in He'].
      by apply (queued_ids st HI pitch q).
    + rewrite lookup_insert_ne in Hq by done. by apply (queued_ids st HI p q).
  - intros p. cbn [predictiveJITable].
    destruct (decide (p = pitch)) as [-> | Hne].
    + rewrite lookup_insert_eq. intros [= H]. by destruct old.
    + rewrite lookup_insert_ne by done. apply (queued_nonempty st HI).
Qed.

Lemma queueTable_preserves (ratioTable : list (Z * list prediction)) (st : predictiveState) :
  queueInv st ->
  queueInv (fold_left (fun st pe => fold_left (queueEntry (fst pe)) (snd pe) st)
                      ratioTable st).
Proof.
  revert st. induction ratioTable as [| pe t IH]; intros st HI; cbn [fold_left]; [done |].
  apply IH. generalize (snd pe). intros entries. revert st HI.
  induction entries as [| e entries IHe]; intros st HI; cbn [fold_left]; [done |].
  by apply IHe, queueEntry_preserves.
Qed.

Lemma queueInv_flag (st : predictiveState) (flag : bool) :
  queueInv st ->
  queueInv (mkPredictive (predictiveJITable st) flag (predictiveSeenIds st)).
Proof. intros [H1 H2 H3 H4]. by constructor. Qed.

Lemma consume_lookup (entry : prediction) (n : Z) (rest : list prediction)
    (st : predictiveState) (p : Z) :
  predictiveJITable (consumeEntry entry n rest st) !! p
  = if decide (p = n) then match rest with [] => None | _ => Some rest end
    else predictiveJITable st !! p.
Proof.
  unfold consumeEntry. cbn [predictiveJITable].
  case_decide as Hp.
  - subst p. case_bool_decide as Hr.
    + subst rest. apply lookup_delete_eq.
    + rewrite lookup_insert_eq. by destruct rest.
  - case_bool_decide as Hr.
    + rewrite lookup_delete_ne by done. by rewrite lookup_insert_ne.
    + by rewrite lookup_insert_ne.
Qed.

Lemma consumeEntry_preserves (entry : prediction) (n : Z) (rest : list prediction)
    (st : predictiveState) :
  queueInv st -> predictiveJITable st !! n = Some (entry :: rest) ->
  queueInv (consumeEntry entry n rest st).
Proof.
  intros HI Hq.
  assert (Hback : forall id p i,
             queuedAt (consumeEntry entry n rest st) id p i ->
             queuedAt st id p (if decide (p = n) then S i else i)).
  { intros id p i (q & e & Hl & Hi & He). rewrite consume_lookup in Hl.
    case_decide as Hp.
    - subst p. exists (entry :: rest), e. split; [done |]. split; [| done].
      destruct rest; [done |]. by injection Hl as <-.
    - by exists q, e. }
  constructor.
  - intros id p i H. pose proof (Hback id p i H) as H'.
    pose proof (queued_seen st HI id _ _ H') as Hin.
    unfold consumeEntry. cbn [predictiveSeenIds].
    destruct (truthy (note_id (fieldsOf entry))) eqn:Ht; [| done].
    apply elem_of_difference. split; [done |].
    intros ->%elem_of_singleton.
    destruct (note_id (fieldsOf entry)) as [id0 |] eqn:Hid; [| done]. cbn [default] in *.
    assert (H0 : queuedAt st id0 n 0) by (by exists (entry :: rest), entry).
    destruct (queued_once st HI id0 _ _ _ _ H' H0) as [-> Hi].
    by rewrite decide_True in Hi.
  - intros id p i p' i' H1 H2.
    destruct (queued_once st HI id _ _ _ _ (Hback _ _ _ H1) (Hback _ _ _ H2)) as [-> Hi].
    split; [done |]. case_decide; lia.
  - intros p q e Hl He. rewrite consume_lookup in Hl. case_decide as Hp.
    + subst p. destruct rest as [| r rest]; [done |]. injection Hl as <-.
      apply (queued_ids st HI n (entry :: r :: rest)); [done |].
      apply elem_of_cons. by right.
    + by apply (queued_ids st HI p q).
  - intros p. rewrite consume_lookup. case_decide as Hp.
    + by destruct rest.
    + apply (queued_nonempty st HI).
Qed.

Lemma applyTuning_state (n v channel now : Z) (ctx : reactiveContext) (st : predictiveState) :
  snd (fst (applyTuning n v channel now ctx st))
  = match (if predictiveTuningActive st then predictiveJITable st !! n else None) with
    | Some (entry :: rest) => consumeEntry entry n rest st
    | _ => st
    end.
Proof.
  unfold applyTuning.
  destruct (if predictiveTuningActive st then predictiveJITable st !! n else None)
    as [[| entry rest] |]; [done | | done].
  unfold applyPredictiveTuning.
  destruct (timestamp (fieldsOf entry)) as [t |].
  - destruct (Req_dec_T t 0).
    + by destruct (match cents (fieldsOf entry) with Some _ => _ | None => _ end).
    + destruct (Rgt_dec _ _); [done |].
      by destruct (match cents (fieldsOf entry) with Some _ => _ | None => _ end).
  - by destruct (match cents (fieldsOf entry) with Some _ => _ | None => _ end).
Qed.

Lemma no_queue_waiting : someQueueWaiting ∅ = false.
Proof.
  unfold someQueueWaiting. apply bool_decide_eq_false_2.
  intros (p & q & Hq & _). by rewrite lookup_empty in Hq.
Qed.

Lemma predictiveStep_preserves (st : predictiveState) (c : predictiveCall) :
  queueInv st /\ predictiveTuningActive st = someQueueWaiting (predictiveJITable st) ->
  queueInv (predictiveStep st c)
  /\ predictiveTuningActive (predictiveStep st c)
     = someQueueWaiting (predictiveJITable (predictiveStep st c)).
Proof.
  intros [HI Hflag]. destruct c as [ratioTable | n v channel now ctx |]; cbn [predictiveStep].
  - unfold applyJITuning. case_bool_decide.
    + split; [apply queueInv_initial | symmetry; apply no_queue_waiting].
    + split; [| done]. by apply queueInv_flag, queueTable_preserves.
  - rewrite applyTuning_state.
    destruct (if predictiveTuningActive st then predictiveJITable st !! n else None)
      as [[| entry rest] |] eqn:Hq; [by split | | by split].
    assert (predictiveJITable st !! n = Some (entry :: rest))
      by (destruct (predictiveTuningActive st); [done | discriminate]).
    split; [by apply consumeEntry_preserves | done].
  - split; [apply queueInv_initial | symmetry; apply no_queue_waiting].
Qed.

(** X21.  After every sequence of prediction tables, played notes and resets:
    every queued prediction has an id that is in [predictiveSeenIds],
    no id is queued at two places, no empty queue is kept in the table,
    and [predictiveTuningActive] holds exactly when the table is not
    empty. *)
Theorem no_prediction_is_queued_twice (calls : list predictiveCall) :
  let st := predictiveAfter calls in
  (forall id p i, queuedAt st id p i -> id ∈ predictiveSeenIds st)
  /\ (forall id p i p' i', queuedAt st id p i -> queuedAt st id p' i' -> p = p' /\ i = i')
  /\ (forall (p : Z) (q : list prediction) (e : prediction),
        predictiveJITable st !! p = Some q -> e ∈ q -> is_Some (note_id (fieldsOf e)))
  /\ (forall p : Z, predictiveJITable st !! p ≠ Some [])
  /\ predictiveTuningActive st = bool_decide (predictiveJITable st ≠ ∅).
Proof.
  cbv zeta.
  assert (H : queueInv (predictiveAfter calls)
              /\ predictiveTuningActive (predictiveAfter calls)
                 = someQueueWaiting (predictiveJITable (predictiveAfter calls))).
  { unfold predictiveAfter. induction calls as [| c calls IH] using rev_ind.
    - split; [apply queueInv_initial | symmetry; apply no_queue_waiting].
    - rewrite fold_left_app. cbn [fold_left]. by apply predictiveStep_preserves. }
  destruct H as [[H1 H2 H3 H4] Hflag].
  split; [done |]. split; [done |]. split; [done |]. split; [done |].
  rewrite Hflag. unfold someQueueWaiting. apply bool_decide_ext.
  split.
  - intros (p & q & Hq & _) Hempty. by rewrite Hempty, lookup_empty in Hq.
  - intros Hne. apply map_choose in Hne as (p & q & Hq).
    exists p, q. split; [done |]. destruct q; [by destruct (H4 p) | simpl; lia].
Qed.

End PredictiveQueueProofs.

(** ** Writing and reading a MIDI file (js/midi-writer.js, js/midi-parser.js) *)

Module MidiFileProofs.
Import MidiWriter MidiParser.
Local Open Scope Z_scope.

Lemma toInt32_small (x : Z) : - 2 ^ 31 <= x < 2 ^ 31 -> toInt32 x = x.
Proof. intros H. unfold toInt32. rewrite Z.mod_small; lia. Qed.

Lemma testbit_below (b : Z) (k n : Z) :
  0 <= b < 2 ^ k -> k <= n -> Z.testbit b n = false.
Proof.
  intros Hb Hn. destruct (Z.eq_dec b 0) as [-> | Hne]; [apply Z.bits_0 |].
  apply Z.bits_above_log2; [lia |].
  assert (Z.log2 b < k); [| lia]. apply Z.log2_lt_pow2; lia.
Qed.

(** Two bit fields that do not overlap are added by [|]. *)
Lemma lor_fields (a b k : Z) :
  0 <= k -> 0 <= b < 2 ^ k -> Z.lor (Z.shiftl a k) b = a * 2 ^ k + b.
Proof.
  intros Hk Hb. rewrite Z.shiftl_mul_pow2 by done.
  symmetry. apply Z.add_nocarry_lor. apply Z.bits_inj'. intros n Hn.
  rewrite Z.land_spec, Z.bits_0. destruct (Z.lt_ge_cases n k) as [Hlt | Hge].
  - by rewrite Z.mul_pow2_bits_low.
  - by rewrite (testbit_below b k n), andb_false_r.
Qed.

Lemma land_127 (x : Z) : Z.land x 0x7F = x mod 128.
Proof. change 0x7F with (Z.ones 7). by rewrite Z.land_ones by lia. Qed.

Lemma land_128 (b : Z) : Z.land b 0x80 = if Z.testbit b 7 then 128 else 0.
Proof.
  change 128 with (2 ^ 7). apply Z.bits_inj'. intros n Hn.
  rewrite Z.land_spec, Z.pow2_bits_eqb by lia.
  destruct (Z.eqb_spec 7 n) as [<- | Hne].
  - destruct (Z.testbit b 7); [by rewrite Z.pow2_bits_true | by rewrite Z.bits_0].
  - rewrite andb_false_r.
    destruct (Z.testbit b 7); [by rewrite Z.pow2_bits_false | by rewrite Z.bits_0].
Qed.

Lemma testbit_7 (b : Z) : 0 <= b < 256 -> Z.testbit b 7 = (128 <=? b).
Proof.
  intros Hb. destruct (Z.leb_spec 128 b) as [Hge | Hlt].
  - apply Z.testbit_true; [lia |]. change (2 ^ 7) with 128.
    replace b with ((b - 128) + 1 * 128) by lia.
    rewrite Z.div_add by lia. rewrite Z.div_small by lia. reflexivity.
  - apply (testbit_below b 7 7); [change (2 ^ 7) with 128; lia | lia].
Qed.

(** A continuation byte, and the last byte, of a variable-length
    quantity. *)
Lemma continuation_byte (y : Z) :
  let b := Z.lor (Z.land y 0x7F) 0x80 in
  b = y mod 128 + 128 /\ Z.land b 0x7F = y mod 128 /\ (Z.land b 0x80 =? 0) = false.
Proof.
  cbv zeta.
  pose proof (Z.mod_pos_bound y 128 ltac:(lia)) as Hy.
  assert (Hb : Z.lor (Z.land y 0x7F) 0x80 = y mod 128 + 128).
  { rewrite Z.lor_comm.
    change (Z.lor 0x80 (Z.land y 0x7F)) with (Z.lor (Z.shiftl 1 7) (Z.land y 0x7F)).
    rewrite (lor_fields 1 (Z.land y 0x7F) 7); [| lia |].
    - rewrite land_127. change (2 ^ 7) with 128. lia.
    - rewrite land_127. change (2 ^ 7) with 128. lia. }
  rewrite Hb. split; [done |]. split.
  - rewrite land_127.
    rewrite <- Z.add_mod_idemp_r by lia. rewrite Z.mod_same by lia.
    rewrite Z.add_0_r. by rewrite Z.mod_mod by lia.
  - rewrite land_128, testbit_7 by lia.
    by destruct (Z.leb_spec 128 (y mod 128 + 128)); [| lia].
Qed.

Lemma last_byte (y : Z) :
  let b := Z.land y 0x7F in
  b = y mod 128 /\ Z.land b 0x7F = y mod 128 /\ (Z.land b 0x80 =? 0) = true.
Proof.
  cbv zeta. pose proof (Z.mod_pos_bound y 128 ltac:(lia)) as Hy.
  rewrite !land_127.
  split; [done |]. split; [by rewrite Z.mod_mod by lia |].
  rewrite land_128, testbit_7 by lia.
  by destruct (Z.leb_spec 128 (y mod 128)); [lia |].
Qed.

(** One pass of the reader's loop puts seven more bits under the
    value. *)
Lemma reader_step (value low : Z) :
  0 <= value -> value * 128 + low < 2 ^ 31 -> 0 <= low < 128 ->
  Z.lor (toInt32 (Z.shiftl value 7)) low = value * 128 + low.
Proof.
  intros Hv Hr Hl.
  rewrite toInt32_small by (rewrite Z.shiftl_mul_pow2 by lia; lia).
  rewrite lor_fields; [lia | lia | done].
Qed.

Lemma encodeLoop_bytes (k : nat) (value : Z) :
  0 <= value < 2 ^ (7 * (Z.of_nat k + 1)) -> value < 2 ^ 31 ->
  exists hi,
    (forall bytes, encodeLoop value bytes = bytes ++ hi)
    /\ (forall rest position,
          readVariableLengthFrom (reverse hi ++ rest) 0 position
          = readVariableLengthFrom rest (value / 128) (position + length hi)%nat)
    /\ Forall (fun b => 128 <= b <= 255) hi
    /\ (length hi <= k)%nat.
Proof.
  revert value. induction k as [| k IH]; intros value Hv H31.
  - exists []. split; [| split; [| split]].
    + intros bytes. simp encodeLoop. change (2 ^ (7 * (Z.of_nat 0 + 1))) with 128 in Hv.
      destruct (decide (127 < value)); [lia |]. cbn. by rewrite app_nil_r.
    + intros rest position. cbn [reverse app length].
      change (2 ^ (7 * (Z.of_nat 0 + 1))) with 128 in Hv.
      rewrite Z.div_small by lia. by rewrite Nat.add_0_r.
    + constructor.
    + done.
  - destruct (decide (127 < value)) as [Hbig | Hsmall].
    + assert (Hshift : Z.shiftr (toInt32 value) 7 = value / 128).
      { rewrite toInt32_small by lia. rewrite Z.shiftr_div_pow2 by lia. done. }
      assert (Hv' : 0 <= value / 128 < 2 ^ (7 * (Z.of_nat k + 1))).
      { split; [apply Z.div_pos; lia |]. apply Z.div_lt_upper_bound; [lia |].
        replace (7 * (Z.of_nat (S k) + 1)) with (7 + 7 * (Z.of_nat k + 1)) in Hv by lia.
        rewrite Z.pow_add_r in Hv by lia. change (2 ^ 7) with 128 in Hv. lia. }
      assert (H31' : value / 128 < 2 ^ 31).
      { apply Z.div_lt_upper_bound; lia. }
      destruct (IH (value / 128) Hv' H31') as (hi & Henc & Hread & Hall & Hlen).
      destruct (continuation_byte (value / 128)) as (Hb & Hb7 & Hb8).
      exists (Z.lor (Z.land (value / 128) 0x7F) 0x80 :: hi).
      split; [| split; [| split]].
      * intros bytes. simp encodeLoop.
        destruct (decide (127 < value)); [| lia]. cbn.
        rewrite Hshift, (toInt32_small (value / 128)) by lia.
        rewrite Henc. by rewrite <- app_assoc.
      * intros rest position. rewrite reverse_cons, <- app_assoc. cbn [app].
        rewrite Hread. cbn [readVariableLengthFrom]. rewrite Hb8, Hb7.
        rewrite reader_step.
        -- rewrite Z.mul_comm, <- Z.div_mod by lia. cbn [length]. f_equal. lia.
        -- apply Z.div_pos; [apply Z.div_pos; lia | lia].
        -- rewrite Z.mul_comm, <- Z.div_mod by lia. lia.
        -- apply Z.mod_pos_bound. lia.
      * constructor; [| done]. rewrite Hb.
        pose proof (Z.mod_pos_bound (value / 128) 128 ltac:(lia)). lia.
      * cbn [length]. lia.
    + exists []. split; [| split; [| split]].
      * intros bytes. simp encodeLoop.
        destruct (decide (127 < value)); [lia |]. cbn. by rewrite app_nil_r.
      * intros rest position. cbn [reverse app length].
        rewrite Z.div_small by lia. by rewrite Nat.add_0_r.
      * constructor.
      * cbn [length]. lia.
Qed.

(** X22.  The reader inverts the writer on variable-length quantities: for
    every value below 2^31, [readVariableLength] placed at the start of
    the bytes of [encodeVariableLength] (whatever precedes and follows
    them) returns the value and stops right behind them; the encoding
    has one to five bytes, each of them a byte. *)
Theorem variable_length_quantity_round_trip (value : Z) (before rest : list Z) :
  0 <= value < 2 ^ 31 ->
  readVariableLength (before ++ encodeVariableLength value ++ rest) (length before)
  = Some (value, (length before + length (encodeVariableLength value))%nat)
  /\ (1 <= length (encodeVariableLength value) <= 5)%nat
  /\ Forall (fun b => 0 <= b <= 255) (encodeVariableLength value).
Proof.
  intros Hv.
  destruct (encodeLoop_bytes 4 value) as (hi & Henc & Hread & Hall & Hlen).
  { change (2 ^ (7 * (Z.of_nat 4 + 1))) with (2 ^ 35). lia. }
  { lia. }
  destruct (last_byte value) as (Hb & Hb7 & Hb8).
  assert (E : encodeVariableLength value = reverse hi ++ [Z.land value 0x7F]).
  { unfold encodeVariableLength. destruct (Z.ltb_spec value 0) as [? | _]; [lia |].
    rewrite Henc, (toInt32_small value) by lia.
    rewrite reverse_app. by rewrite reverse_singleton. }
  rewrite E. split; [| split].
  - unfold readVariableLength. rewrite drop_app_length, <- app_assoc.
    rewrite Hread. cbn [app readVariableLengthFrom]. rewrite Hb8, Hb7.
    rewrite reader_step.
    + rewrite Z.mul_comm, <- Z.div_mod by lia.
      rewrite length_app, length_reverse. cbn [length]. do 2 f_equal. lia.
    + apply Z.div_pos; lia.
    + rewrite Z.mul_comm, <- Z.div_mod by lia. lia.
    + apply Z.mod_pos_bound. lia.
  - rewrite length_app, length_reverse. cbn [length]. lia.
  - apply Forall_app. split.
    + apply Forall_reverse. eapply Forall_impl; [exact Hall |]. cbn. lia.
    + constructor; [| constructor]. rewrite Hb.
      pose proof (Z.mod_pos_bound value 128 ltac:(lia)). lia.
Qed.

Lemma variable_length_quantity_round_trip_witness :
  readVariableLength ([0x90; 60; 100] ++ encodeVariableLength 480 ++ [0x80; 60; 0]) 3
  = Some (480, (3 + length (encodeVariableLength 480))%nat).
Proof.
  apply (proj1 (variable_length_quantity_round_trip 480 [0x90; 60; 100] [0x80; 60; 0]
                  ltac:(lia))).
Defined.

Lemma land_255 (x : Z) : Z.land x 0xFF = x mod 256.
Proof. change 0xFF with (Z.ones 8). by rewrite Z.land_ones by lia. Qed.

Lemma uint16_value (v : Z) :
  0 <= v < 65536 -> Z.land (Z.shiftr v 8) 0xFF * 256 + Z.land v 0xFF = v.
Proof.
  intros Hv. rewrite !land_255, Z.shiftr_div_pow2 by lia. change (2 ^ 8) with 256.
  rewrite (Z.mod_small (v / 256)).
  - pose proof (Z.div_mod v 256 ltac:(lia)). lia.
  - split; [apply Z.div_pos; lia | apply Z.div_lt_upper_bound; lia].
Qed.

(** X23.  [createHeaderChunk] writes 14 bytes, and [parseHeaderChunk] reads
    from them the format, the track count and the division that were
    written, without a warning, for 16-bit format and track count and a
    division below 32768. *)
Theorem header_chunk_round_trip (format numTracks ticksPerQuarter : Z) (rest : list Z) :
  0 <= format < 65536 -> 0 <= numTracks < 65536 -> 0 <= ticksPerQuarter < 32768 ->
  length (createHeaderChunk format numTracks ticksPerQuarter) = 14%nat
  /\ parseHeaderChunk (createHeaderChunk format numTracks ticksPerQuarter ++ rest) 0
     = Some (mkHeader format numTracks ticksPerQuarter, 14%nat, []).
Proof.
  intros Hf Hn Ht. split; [reflexivity |].
  unfold createHeaderChunk, uint32Bytes, uint16Bytes, parseHeaderChunk,
    readUint32, readUint16.
  cbn [app lookup list_lookup Nat.add].
  change (0x4D * 16777216 + 0x54 * 65536 + 0x68 * 256 + 0x64 =? 0x4D546864) with true.
  cbn [negb Nat.add lookup list_lookup].
  rewrite !uint16_value by lia.
  assert (Hlow : Z.land ticksPerQuarter 0x7FFF = ticksPerQuarter).
  { change 0x7FFF with (Z.ones 15). rewrite Z.land_ones by lia.
    apply Z.mod_small. change (2 ^ 15) with 32768. lia. }
  assert (Hhigh : (Z.land ticksPerQuarter 0x8000 =? 0) = true).
  { apply Z.eqb_eq. apply Z.bits_inj'. intros n Hn'.
    rewrite Z.land_spec, Z.bits_0. change 0x8000 with (2 ^ 15).
    rewrite Z.pow2_bits_eqb by lia. destruct (Z.eqb_spec 15 n) as [<- | Hne].
    - rewrite (testbit_below ticksPerQuarter 15 15);
        [done | change (2 ^ 15) with 32768; lia | lia].
    - by rewrite andb_false_r. }
  by rewrite Hlow, Hhigh.
Qed.

Lemma header_chunk_round_trip_witness :
  length (createHeaderChunk 1 3 480) = 14%nat
  /\ parseHeaderChunk (createHeaderChunk 1 3 480 ++ [0x4D; 0x54; 0x72; 0x6B]) 0
     = Some (mkHeader 1 3 480, 14%nat, []).
Proof. apply (header_chunk_round_trip 1 3 480); lia. Defined.

End MidiFileProofs.

(** ** Key segments of a MIDI file (js/midi-file-tuner.js) *)

Module SegmentProofs.
Import TuningCore MidiFileTuner.
Local Open Scope Z_scope.

Lemma keysAlternate_snoc (init : list segment) (x : segment) :
  keysAlternate (init ++ [x])
  <-> keysAlternate init /\ (forall p, last init = Some p -> key p ≠ key x).
Proof.
  unfold keysAlternate. split.
  - intros H. split.
    + intros i a b Ha Hb. apply (H i); by apply lookup_app_l_Some.
    + intros p Hp. rewrite last_lookup in Hp.
      destruct init as [| s0 init] using rev_ind; [done |].
      rewrite length_app in Hp. cbn [length] in Hp.
      replace (Nat.pred (length init + 1)) with (length init) in Hp by lia.
      apply (H (length init)).
      * by apply lookup_app_l_Some.
      * replace (S (length init)) with (length (init ++ [s0])) by (rewrite length_app; simpl; lia).
        by rewrite list_lookup_middle.
  - intros [Hinit Hlast] i a b Ha Hb.
    apply lookup_app_Some in Hb as [Hb | [Hlen Hb]].
    + apply (Hinit i); [| done].
      apply lookup_app_Some in Ha as [Ha | [Hlen Ha]]; [done |].
      apply lookup_lt_Some in Hb. lia.
    + apply list_lookup_singleton_Some in Hb as [Hi <-].
      apply lookup_app_Some in Ha as [Ha | [Hlen' Ha]]; [| lia].
      apply Hlast. rewrite last_lookup. rewrite <- Ha. f_equal. lia.
Qed.

Lemma totalNotes_snoc (init : list segment) (x : segment) :
  totalNotes (init ++ [x]) = totalNotes init + noteCount x.
Proof.
  unfold totalNotes. rewrite fmap_app, foldr_app. cbn [fmap list_fmap foldr].
  generalize (noteCount <$> init). intros l.
  induction l as [| c l IH]; cbn [foldr]; [lia |]. rewrite IH. lia.
Qed.

(** One pass of the loop of [mergeConsecutiveKeys]. *)
Lemma mergeStep_spec (init : list segment) (previous current : segment) :
  keysAlternate (init ++ [previous]) ->
  exists last',
    mergeStep (init ++ [previous]) current
    = (if bool_decide (key current = key previous) then init else init ++ [previous])
        ++ [last']
    /\ keysAlternate (mergeStep (init ++ [previous]) current)
    /\ key last' = key current
    /\ endTime last' = endTime current /\ endTick last' = endTick current
    /\ (key current = key previous ->
        startTime last' = startTime previous /\ startTick last' = startTick previous)
    /\ totalNotes (mergeStep (init ++ [previous]) current)
       = totalNotes (init ++ [previous]) + noteCount current.
Proof.
  intros Halt. unfold mergeStep. rewrite last_snoc.
  apply keysAlternate_snoc in Halt as [Hinit Hlast].
  case_bool_decide as Hk.
  - exists (absorb previous current).
    rewrite length_app. cbn [length].
    replace (length init + 1 - 1)%nat with (length init) by lia.
    rewrite take_app_length.
    split; [done |]. split; [| split; [| split; [| split; [| split]]]]; try done.
    + apply keysAlternate_snoc. split; [done |]. exact Hlast.
    + rewrite !totalNotes_snoc. cbn [absorb noteCount]. lia.
  - exists current.
    split; [done |]. split; [| split; [| split; [| split; [| split]]]]; try done.
    + apply keysAlternate_snoc. split.
      * by apply keysAlternate_snoc.
      * rewrite last_snoc. intros p [= <-]. congruence.
    + by rewrite totalNotes_snoc.
Qed.

Lemma merge_fold_spec (rest : list segment) (init : list segment) (previous : segment) :
  keysAlternate (init ++ [previous]) ->
  let merged := fold_left mergeStep rest (init ++ [previous]) in
  keysAlternate merged
  /\ totalNotes merged = totalNotes (init ++ [previous]) + totalNotes rest
  /\ (startTime <$> head merged) = (startTime <$> head (init ++ [previous]))
  /\ (startTick <$> head merged) = (startTick <$> head (init ++ [previous]))
  /\ (endTime <$> last merged) = (endTime <$> last (previous :: rest))
  /\ (endTick <$> last merged) = (endTick <$> last (previous :: rest))
  /\ (0 < length merged <= length (init ++ [previous]) + length rest)%nat.
Proof.
  revert init previous. induction rest as [| current rest IH]; intros init previous Halt.
  - cbn [fold_left]. cbv zeta. rewrite last_snoc. cbn [last fmap option_fmap option_map].
    split; [done |]. split; [unfold totalNotes at 3; cbn; lia |].
    repeat (split; [done |]). rewrite length_app. cbn [length]. lia.
  - cbn [fold_left]. cbv zeta.
    destruct (mergeStep_spec init previous current Halt)
      as (last' & E & Halt' & Hkey & Het & Hek & Hstart & Htotal).
    rewrite E in *.
    specialize (IH _ last' Halt'). cbv zeta in IH.
    destruct IH as (H1 & H2 & H3 & H4 & H5 & H6 & H7).
    split; [done |]. split.
    { rewrite H2, Htotal. unfold totalNotes at 4. cbn [fmap list_fmap foldr].
      fold (totalNotes rest). lia. }
    assert (Hhead : (startTime <$> head ((if bool_decide (key current = key previous)
                                          then init else init ++ [previous]) ++ [last']))
                    = (startTime <$> head (init ++ [previous]))
                    /\ (startTick <$> head ((if bool_decide (key current = key previous)
                                             then init else init ++ [previous]) ++ [last']))
                       = (startTick <$> head (init ++ [previous]))).
    { case_bool_decide as Hk.
      - destruct init as [| s0 init]; cbn; [| done].
        destruct (Hstart Hk) as [-> ->]. done.
      - destruct init as [| s0 init]; by cbn. }
    destruct Hhead as [Hh1 Hh2].
    split; [by rewrite H3 |]. split; [by rewrite H4 |].
    assert (Hlast : forall (A : Type) (f : segment -> A),
               f last' = f current ->
               (f <$> last (last' :: rest)) = (f <$> last (previous :: current :: rest))).
    { intros A f Hf. destruct rest as [| r rest]; [by cbn; rewrite Hf |].
      change (last (previous :: current :: r :: rest)) with (last (r :: rest)).
      by change (last (last' :: r :: rest)) with (last (r :: rest)). }
    split; [rewrite H5; by apply Hlast |]. split; [rewrite H6; by apply Hlast |].
    split; [lia |].
    destruct H7 as [_ H7]. case_bool_decide; rewrite !length_app in *; cbn [length] in *; lia.
Qed.

(** X24.  After [mergeConsecutiveKeys] no two neighbouring segments have the
    same key; the notes are all counted, the first start and the last
    end (time and tick) are kept, and the list is no longer than before
    and empty only if it was. *)
Theorem merged_segments_alternate (segments : list segment) :
  let merged := mergeConsecutiveKeys segments in
  keysAlternate merged
  /\ totalNotes merged = totalNotes segments
  /\ (startTime <$> head merged) = (startTime <$> head segments)
  /\ (startTick <$> head merged) = (startTick <$> head segments)
  /\ (endTime <$> last merged) = (endTime <$> last segments)
  /\ (endTick <$> last merged) = (endTick <$> last segments)
  /\ (length merged <= length segments)%nat
  /\ (segments ≠ [] -> merged ≠ []).
Proof.
  cbv zeta. destruct segments as [| first rest].
  { cbn. by repeat split. }
  unfold mergeConsecutiveKeys.
  destruct (merge_fold_spec rest [] first) as (H1 & H2 & H3 & H4 & H5 & H6 & H7).
  { intros i a b Ha Hb. by destruct i. }
  cbn [app] in *.
  split; [exact H1 |]. split.
  { fold (totalNotes (fold_left mergeStep rest [first])). rewrite H2.
    unfold totalNotes. cbn [fmap list_fmap foldr]. lia. }
  repeat (split; [done |]). split; [cbn [length] in *; lia |].
  intros _ Hnil. rewrite Hnil in H7. cbn [length] in H7. lia.
Qed.

Lemma fillFrom_spec (segments : list segment) (lastKey : string) :
  Main.truthy (Some lastKey) = true ->
  length (fillFrom lastKey segments) = length segments
  /\ Forall (fun seg => Main.truthy (key seg) = true) (fillFrom lastKey segments)
  /\ (forall i seg, segments !! i = Some seg -> Main.truthy (key seg) = true ->
        fillFrom lastKey segments !! i = Some seg)
  /\ (forall i seg, segments !! i = Some seg -> Main.truthy (key seg) = false ->
        exists seg', fillFrom lastKey segments !! i = Some seg'
          /\ confidence seg' = 0
          /\ (startTime seg', endTime seg', startTick seg', endTick seg', noteCount seg')
             = (startTime seg, endTime seg, startTick seg, endTick seg, noteCount seg)
          /\ match i with
             | O => key seg' = Some lastKey
             | S j => exists prev,
                        fillFrom lastKey segments !! j = Some prev /\ key seg' = key prev
             end).
Proof.
  revert lastKey. induction segments as [| seg0 segments IH]; intros lastKey Hlast.
  { cbn. repeat split; try done; intros i seg H; by rewrite lookup_nil in H. }
  cbn [fillFrom].
  destruct (Main.truthy (key seg0)) eqn:Ht.
  - assert (Hnext : Main.truthy (Some (default lastKey (key seg0))) = true).
    { by destruct (key seg0). }
    destruct (IH _ Hnext) as (H1 & H2 & H3 & H4).
    split; [cbn [length]; by rewrite H1 |]. split; [by constructor |]. split.
    + intros [| i] seg Hi Hs; [exact Hi |]. by apply H3.
    + intros [| i] seg Hi Hs.
      { injection Hi as <-. by rewrite Ht in Hs. }
      cbn [lookup list_lookup] in Hi.
      destruct (H4 i seg Hi Hs) as (seg' & E & Hc & Hf & Hk).
      exists seg'. split; [done |]. split; [done |]. split; [done |].
      destruct i as [| j]; [| done].
      exists seg0. split; [done |]. rewrite Hk. by destruct (key seg0).
  - destruct (IH _ Hlast) as (H1 & H2 & H3 & H4).
    split; [cbn [length]; by rewrite H1 |]. split; [by constructor |]. split.
    + intros [| i] seg Hi Hs; [| by apply H3].
      injection Hi as <-. by rewrite Ht in Hs.
    + intros [| i] seg Hi Hs.
      { injection Hi as <-. eexists. split; [done |]. by cbn. }
      cbn [lookup list_lookup] in Hi.
      destruct (H4 i seg Hi Hs) as (seg' & E & Hc & Hf & Hk).
      exists seg'. split; [done |]. split; [done |]. split; [done |].
      destruct i as [| j]; [| done].
      eexists. split; [done |]. by rewrite Hk.
Qed.

Lemma firstKeyOf_truthy (segments : list segment) :
  Main.truthy (Some (firstKeyOf segments)) = true.
Proof.
  unfold firstKeyOf.
  destruct (list_find _ segments) as [[i seg] |] eqn:E; [| done].
  apply list_find_Some in E as (_ & Ht & _). by destruct (key seg).
Qed.

(** X25.  After [fillMissingKeys] every segment has a non-empty key: a
    segment that had one is unchanged; one that had none takes the key
    of the segment before it (the first one: the first key of the file,
    or C when no segment has a key) with confidence 0, its times, ticks
    and notes unchanged. *)
Theorem every_segment_gets_a_key (segments : list segment) :
  let filled := fillMissingKeys segments in
  length filled = length segments
  /\ (forall seg, seg ∈ filled -> exists k, key seg = Some k /\ k ≠ ""%string)
  /\ (forall i seg, segments !! i = Some seg -> Main.truthy (key seg) = true ->
        filled !! i = Some seg)
  /\ (forall i seg, segments !! i = Some seg -> Main.truthy (key seg) = false ->
        exists seg', filled !! i = Some seg'
          /\ confidence seg' = 0
          /\ (startTime seg', endTime seg', startTick seg', endTick seg', noteCount seg')
             = (startTime seg, endTime seg, startTick seg, endTick seg, noteCount seg)
          /\ match i with
             | O => key seg' = Some (firstKeyOf segments)
             | S j => exists prev, filled !! j = Some prev /\ key seg' = key prev
             end)
  /\ ((forall seg, seg ∈ segments -> Main.truthy (key seg) = false) ->
      forall seg, seg ∈ filled -> key seg = Some "C"%string).
Proof.
  cbv zeta. unfold fillMissingKeys.
  destruct (fillFrom_spec segments (firstKeyOf segments) (firstKeyOf_truthy segments))
    as (H1 & H2 & H3 & H4).
  split; [done |]. split; [| split; [done | split; [done |]]].
  - intros seg Hin. rewrite Forall_forall in H2. specialize (H2 seg Hin).
    destruct (key seg) as [k |]; [| done]. exists k. split; [done |].
    intros ->. done.
  - intros Hnone.
    assert (Hfirst : firstKeyOf segments = "C"%string).
    { unfold firstKeyOf. destruct (list_find _ segments) as [[i seg] |] eqn:E; [| done].
      apply list_find_Some in E as (Hi & Ht & _).
      apply list_elem_of_lookup_2 in Hi. by rewrite (Hnone seg Hi) in Ht. }
    rewrite Hfirst in *. clear H1 H2 H3 H4 Hfirst.
    induction segments as [| seg0 segments IH]; intros seg Hin; [by apply elem_of_nil in Hin |].
    cbn [fillFrom] in Hin. rewrite (Hnone seg0) in Hin by (apply elem_of_cons; by left).
    apply elem_of_cons in Hin as [-> | Hin]; [done |].
    apply IH; [| done]. intros s Hs. apply Hnone. apply elem_of_cons. by right.
Qed.

Local Open Scope R_scope.

(** X26.  The file tuner and the live tuner agree: for every pitch 0..127 and
    every key name the deviation [calculateJITuning] gives a note is
    the one of [calculateJICentsForNote], and it is the entry of
    [calculateMTSScaleTuning] at the note's pitch class.  For a key
    name that is not inherited from [Object.prototype] it is a number
    strictly between -16 and 18 cents; for an inherited name all three
    are [NaN]. *)
Theorem file_tuner_agrees_with_live_tuner (pitch : Z) (keyName : string) :
  (0 <= pitch <= 127)%Z ->
  noteDeviation pitch keyName = calculateJICentsForNote pitch keyName
  /\ calculateMTSScaleTuning keyName !! Z.to_nat (pitch mod 12)
     = Some (calculateJICentsForNote pitch keyName)
  /\ (keyName ∉ OBJECT_PROTOTYPE_KEYS ->
      exists cents : R, noteDeviation pitch keyName = Num cents /\ -16 < cents < 18)
  /\ (keyName ∈ OBJECT_PROTOTYPE_KEYS -> noteDeviation pitch keyName = NaN).
Proof.
  intros Hp.
  pose proof (Z.mod_pos_bound pitch 12 ltac:(lia)) as Hm.
  assert (Hi : forall keyRoot, (60 <= keyRoot <= 71)%Z ->
               Z.rem (Z.rem pitch 12 - Z.rem keyRoot 12 + 12) 12
               = Z.rem (pitch - keyRoot + 144) 12).
  { intros keyRoot Hk. rewrite (Z.rem_mod_nonneg pitch 12) by lia.
    rewrite TuningCoreProofs.interval_of_class by (apply Z.mod_pos_bound; lia).
    rewrite TuningRangeProofs.note_interval by lia.
    by rewrite Zminus_mod_idemp_l. }
  assert (Hd : noteDeviation pitch keyName = calculateJICentsForNote pitch keyName).
  { unfold noteDeviation, calculateJICentsForNote.
    destruct (getKeyRoot keyName) as [keyRoot |] eqn:Hroot; [| done].
    rewrite Hi by (by apply (TuningCoreProofs.getKeyRoot_range keyName)). done. }
  split; [exact Hd |]. split; [| split].
  - unfold calculateMTSScaleTuning.
    rewrite !list_lookup_fmap, lookup_seq_lt by lia. cbn [fmap option_fmap option_map Nat.add].
    rewrite Z2Nat.id by lia. f_equal.
    unfold calculateJICentsForNote.
    destruct (getKeyRoot keyName) as [keyRoot |] eqn:Hroot; [| done].
    rewrite <- (Z.rem_mod_nonneg pitch 12) by lia.
    rewrite Hi by (by apply (TuningCoreProofs.getKeyRoot_range keyName)). done.
  - intros Hown. rewrite Hd.
    destruct (TuningCoreProofs.getKeyRoot_number keyName Hown) as (keyRoot & Hroot & Hk).
    unfold calculateJICentsForNote. rewrite Hroot. eexists. split; [reflexivity |].
    apply TuningRangeProofs.interval_cents_bounds.
    rewrite TuningRangeProofs.note_interval by lia. apply Z.mod_pos_bound. lia.
  - intros Hin. unfold noteDeviation.
    by rewrite (TuningCoreProofs.getKeyRoot_inherited keyName Hin).
Qed.

Lemma file_tuner_agrees_with_live_tuner_witness :
  noteDeviation 64 "Am" = calculateJICentsForNote 64 "Am"
  /\ calculateMTSScaleTuning "Am" !! 4%nat = Some (calculateJICentsForNote 64 "Am")
  /\ (exists cents : R, noteDeviation 64 "Am" = Num cents /\ -16 < cents < 18)
  /\ noteDeviation 64 "toString" = NaN.
Proof.
  destruct (file_tuner_agrees_with_live_tuner 64 "Am" ltac:(lia)) as (H1 & H2 & H3 & _).
  destruct (file_tuner_agrees_with_live_tuner 64 "toString" ltac:(lia)) as (_ & _ & _ & H4).
  split; [exact H1 |]. split; [exact H2 |]. split.
  - apply H3. compute_done.
  - apply H4. compute_done.
Defined.

End SegmentProofs.

(** ** The MIDI 2.0 encodings (js/tuning-midi2.js) *)

Module MIDI2Proofs.
Import TuningCore TuningMIDI2 TuningCoreProofs TuningRangeProofs MTSMessageProofs MidiFileProofs.
Local Open Scope R_scope.

Lemma toUint32_small (x : Z) : (0 <= x < 2 ^ 32)%Z -> toUint32 x = x.
Proof. intros H. unfold toUint32. by apply Z.mod_small. Qed.

Lemma clamp_between (lo hi x : R) : lo <= hi -> lo <= Rmax lo (Rmin hi x) <= hi.
Proof. intros H. unfold Rmax, Rmin. repeat destruct (Rle_dec _ _); lra. Qed.

Lemma clamp_monotone (lo hi x y : R) :
  lo <= hi -> x <= y -> Rmax lo (Rmin hi x) <= Rmax lo (Rmin hi y).
Proof. intros H Hxy. unfold Rmax, Rmin. repeat destruct (Rle_dec _ _); lra. Qed.

Lemma bend32_unwrapped (cents sensitivitySemitones : R) :
  0 < sensitivitySemitones ->
  let sensitivityCents := sensitivitySemitones * 100 in
  let normalized := Rmax (- sensitivityCents) (Rmin sensitivityCents cents) / sensitivityCents in
  -1 <= normalized <= 1
  /\ centsToPitchBend32 cents sensitivitySemitones
     = Math_round (normalized * 2147483647 + 2147483648)
  /\ (1 <= centsToPitchBend32 cents sensitivitySemitones <= 4294967295)%Z.
Proof.
  intros Hs. cbv zeta.
  set (sc := sensitivitySemitones * 100).
  assert (Hsc : 0 < sc) by (unfold sc; lra).
  pose proof (clamp_between (- sc) sc cents ltac:(lra)) as Hc.
  set (clamped := Rmax (- sc) (Rmin sc cents)) in *.
  assert (Hn : -1 <= clamped / sc <= 1).
  { split.
    - apply Rmult_le_reg_r with sc; [done |]. unfold Rdiv.
      rewrite Rmult_assoc, Rinv_l by lra. lra.
    - apply Rmult_le_reg_r with sc; [done |]. unfold Rdiv.
      rewrite Rmult_assoc, Rinv_l by lra. lra. }
  split; [exact Hn |].
  unfold centsToPitchBend32. fold sc. fold clamped.
  change (IZR 0x7FFFFFFF) with 2147483647.
  change (IZR PITCH_BEND_32_CENTER) with 2147483648.
  set (r := Math_round (clamped / sc * 2147483647 + 2147483648)).
  assert (Hr : (1 <= r <= 4294967295)%Z).
  { split; [apply round_above | apply round_below]; simpl; lra. }
  rewrite toUint32_small by (change (2 ^ 32)%Z with 4294967296%Z; lia).
  done.
Qed.

(** X27.  For a positive sensitivity [centsToPitchBend32] is a value in
    1..4294967295, the centre 0x80000000 at 0 cents, non-decreasing in
    the cents, and saturated at the two ends beyond the sensitivity. *)
Theorem pitch_bend_32_is_monotone_and_in_range (cents1 cents2 sensitivitySemitones : R) :
  0 < sensitivitySemitones ->
  (1 <= centsToPitchBend32 cents1 sensitivitySemitones <= 4294967295)%Z
  /\ centsToPitchBend32 0 sensitivitySemitones = 2147483648%Z
  /\ (cents1 <= cents2 ->
      (centsToPitchBend32 cents1 sensitivitySemitones
       <= centsToPitchBend32 cents2 sensitivitySemitones)%Z)
  /\ (sensitivitySemitones * 100 <= cents1 ->
      centsToPitchBend32 cents1 sensitivitySemitones = 4294967295%Z)
  /\ (cents1 <= - (sensitivitySemitones * 100) ->
      centsToPitchBend32 cents1 sensitivitySemitones = 1%Z).
Proof.
  intros Hs.
  set (sc := sensitivitySemitones * 100).
  assert (Hsc : 0 < sc) by (unfold sc; lra).
  destruct (bend32_unwrapped cents1 _ Hs) as (Hn1 & E1 & Hr1).
  destruct (bend32_unwrapped cents2 _ Hs) as (Hn2 & E2 & Hr2).
  destruct (bend32_unwrapped 0 _ Hs) as (Hn0 & E0 & Hr0).
  cbv zeta in *. fold sc in Hn1, Hn2, Hn0, E1, E2, E0.
  split; [exact Hr1 |]. split; [| split; [| split]].
  - rewrite E0.
    assert (Rmax (- sc) (Rmin sc 0) = 0) as ->.
    { unfold Rmax, Rmin. repeat destruct (Rle_dec _ _); lra. }
    apply Math_round_eq. unfold Rdiv. rewrite Rmult_0_l. lra.
  - intros Hle. rewrite E1, E2. apply Math_round_mono.
    pose proof (clamp_monotone (- sc) sc cents1 cents2 ltac:(lra) Hle) as Hm.
    apply Rplus_le_compat_r. apply Rmult_le_compat_r; [lra |].
    unfold Rdiv. apply Rmult_le_compat_r; [| done].
    left. by apply Rinv_0_lt_compat.
  - intros Hmax. rewrite E1.
    assert (Rmax (- sc) (Rmin sc cents1) = sc) as ->.
    { unfold Rmax, Rmin. repeat destruct (Rle_dec _ _); lra. }
    unfold Rdiv. rewrite Rinv_r by lra. apply Math_round_eq. lra.
  - intros Hmin. rewrite E1.
    assert (Rmax (- sc) (Rmin sc cents1) = - sc) as ->.
    { unfold Rmax, Rmin. repeat destruct (Rle_dec _ _); lra. }
    replace (- sc / sc) with (-1) by (field; lra). apply Math_round_eq. lra.
Qed.

Lemma pitch_bend_32_is_monotone_and_in_range_witness :
  (1 <= centsToPitchBend32 (-13.69) 2 <= 4294967295)%Z
  /\ centsToPitchBend32 0 2 = 2147483648%Z
  /\ (centsToPitchBend32 (-13.69) 2 <= centsToPitchBend32 11.73 2)%Z.
Proof.
  destruct (pitch_bend_32_is_monotone_and_in_range (-13.69) 11.73 2 ltac:(lra))
    as (H1 & H2 & H3 & _).
  split; [exact H1 |]. split; [exact H2 |]. apply H3. lra.
Defined.

Lemma toInt32_wrap (x : Z) :
  (0 <= x < 2 ^ 32)%Z -> toInt32 x = (if (x <? 2 ^ 31)%Z then x else x - 2 ^ 32)%Z.
Proof.
  intros Hx. unfold toInt32. destruct (Z.ltb_spec x (2 ^ 31)) as [Hlt | Hge].
  - rewrite Z.mod_small; lia.
  - replace (x + 2 ^ 31)%Z with (x - 2 ^ 31 + 1 * 2 ^ 32)%Z by lia.
    rewrite Z.mod_add by lia. rewrite Z.mod_small; lia.
Qed.

Lemma land_low_bits (x k : Z) :
  (0 <= k)%Z -> (0 <= x < 2 ^ k)%Z -> Z.land x (Z.ones k) = x.
Proof. intros Hk Hx. rewrite Z.land_ones by done. by apply Z.mod_small. Qed.

(** X28.  [centsToPitch725] builds the Pitch 7.25 value with the 32-bit [<<]
    and [|], so from semitone 64 up the value is negative (the unsigned
    value minus 2^32); the [>>> 0] of [encodePerNotePitch725UMP] undoes
    this: for every target pitch in 0..128 the second word of the packet
    is [whole * 2^25 + fraction], and it decodes to the target within
    0.00001 cents. *)
Theorem pitch_7_25_word_survives_the_signed_shift
    (channel noteNumber group semitone : Z) (cents : R) :
  let total := IZR semitone + cents / 100 in
  let whole := Zfloor total in
  let fraction := Math_round ((total - IZR whole) * 33554431) in
  0 <= total < 128 ->
  (0 <= whole <= 127)%Z /\ (0 <= fraction <= 33554431)%Z
  /\ centsToPitch725 semitone cents
     = (if (whole <? 64)%Z then whole * 2 ^ 25 + fraction
        else whole * 2 ^ 25 + fraction - 2 ^ 32)%Z
  /\ encodePerNotePitch725UMP channel noteNumber (centsToPitch725 semitone cents) group
       !! 1%nat
     = Some (whole * 2 ^ 25 + fraction)%Z
  /\ Rabs (IZR (whole * 2 ^ 25 + fraction) / 33554432 * 100 - (IZR semitone * 100 + cents))
     <= 0.00001.
Proof.
  intros total whole fraction Ht.
  pose proof (Zfloor_bound total) as Hfl. fold whole in Hfl.
  assert (Hw : (0 <= whole <= 127)%Z).
  { split.
    - apply Zfloor_lub. simpl. lra.
    - apply Z.lt_succ_r, lt_IZR. rewrite succ_IZR. simpl. lra. }
  pose proof (round_near ((total - IZR whole) * 33554431)) as Hn. fold fraction in Hn.
  assert (Hf : (0 <= fraction <= 33554431)%Z).
  { split; [apply round_above | apply round_below]; simpl; nra. }
  assert (Hvalue : centsToPitch725 semitone cents
                   = (if (whole <? 64)%Z then whole * 2 ^ 25 + fraction
                      else whole * 2 ^ 25 + fraction - 2 ^ 32)%Z).
  { unfold centsToPitch725. fold total. fold whole.
    change (IZR PITCH_7_25_FRACTIONAL_MAX) with 33554431. fold fraction.
    change PITCH_7_25_FRACTIONAL_MAX with (Z.ones 25).
    change 0x7F%Z with (Z.ones 7).
    rewrite (toInt32_small whole) by lia.
    rewrite (toInt32_small fraction) by lia.
    rewrite (land_low_bits whole 7) by (change (2 ^ 7)%Z with 128%Z; lia).
    rewrite (land_low_bits fraction 25) by (change (2 ^ 25)%Z with 33554432%Z; lia).
    assert (Hint : toInt32 (Z.shiftl whole 25)
                   = Z.shiftl (if (whole <? 64)%Z then whole else (whole - 128)%Z) 25).
    { rewrite !Z.shiftl_mul_pow2 by lia. rewrite toInt32_wrap by lia.
      destruct (Z.ltb_spec whole 64) as [Hlo | Hhi].
      - by rewrite (proj2 (Z.ltb_lt _ _)) by lia.
      - rewrite (proj2 (Z.ltb_ge _ _)) by lia. lia. }
    rewrite Hint, lor_fields by (change (2 ^ 25)%Z with 33554432%Z; lia).
    destruct (whole <? 64)%Z; lia. }
  split; [exact Hw |]. split; [exact Hf |]. split; [exact Hvalue |]. split.
  - unfold encodePerNotePitch725UMP. cbn [lookup list_lookup]. f_equal.
    rewrite Hvalue. unfold toUint32. destruct (Z.ltb_spec whole 64) as [Hlo | Hhi].
    + apply Z.mod_small. lia.
    + replace (whole * 2 ^ 25 + fraction - 2 ^ 32)%Z
        with (whole * 2 ^ 25 + fraction + (-1) * 2 ^ 32)%Z by lia.
      rewrite Z.mod_add by lia. apply Z.mod_small. lia.
  - rewrite plus_IZR, mult_IZR. change (IZR (2 ^ 25)) with 33554432.
    apply Rabs_le. unfold total in *. lra.
Qed.

Lemma pitch_7_25_word_survives_the_signed_shift_witness :
  centsToPitch725 69 (-15.64)
  = (if (Zfloor (IZR 69 + -15.64 / 100) <? 64)%Z
     then Zfloor (IZR 69 + -15.64 / 100) * 2 ^ 25
          + Math_round ((IZR 69 + -15.64 / 100 - IZR (Zfloor (IZR 69 + -15.64 / 100)))
                        * 33554431)
     else Zfloor (IZR 69 + -15.64 / 100) * 2 ^ 25
          + Math_round ((IZR 69 + -15.64 / 100 - IZR (Zfloor (IZR 69 + -15.64 / 100)))
                        * 33554431)
          - 2 ^ 32)%Z.
Proof.
  apply (pitch_7_25_word_survives_the_signed_shift 0 69 0 69 (-15.64)). lra.
Defined.

End MIDI2Proofs.

(** ** The tuning message of the prototype (script5.js) *)

Module PrototypeMessageProofs.
Import TuningCore Prototype TuningCoreProofs MTSMessageProofs.
Local Open Scope R_scope.

Lemma log2_Rpower (y : R) : log2 (Rpower 2 y) = y.
Proof.
  unfold log2, Rpower. rewrite ln_exp. pose proof ln_2_pos. field. lra.
Qed.

(** The way through the frequency leads back to the note number. *)
Lemma frequency_detour (n : Z) (cents : R) :
  69 + 12 * log2 (midiNoteToFrequency n * Rpower 2 (cents / 1200) / 440)
  = IZR n + cents / 100.
Proof.
  unfold midiNoteToFrequency.
  replace (440 * Rpower 2 ((IZR n - 69) / 12) * Rpower 2 (cents / 1200) / 440)
    with (Rpower 2 ((IZR n - 69) / 12) * Rpower 2 (cents / 1200)) by (field; lra).
  rewrite <- Rpower_plus, log2_Rpower. field.
Qed.

Lemma land_small (x : Z) : (0 <= x <= 127)%Z -> Z.land x 0x7F = x.
Proof.
  intros Hx. change 0x7F%Z with (Z.ones 7). rewrite Z.land_ones by lia.
  apply Z.mod_small. change (2 ^ 7)%Z with 128%Z. lia.
Qed.

(** X29.  The prototype's [createMtsSysex], which goes through frequencies
    and back, returns for every target pitch in 0..127 semitones a
    12-byte single-note tuning message whose data bytes are at most
    127 and whose frequency data decodes to the target within
    100/32768 cents. *)
Theorem prototype_message_encodes_the_target_pitch (s : state) (n : Z) (cents : R) :
  0 <= IZR n + cents / 100 < 127 ->
  exists dd kk xx yy zz,
    createMtsSysex s n cents
    = [0xF0; 0x7F; dd; 0x08; 0x02; 0x00; 0x01; kk; xx; yy; zz; 0xF7]%Z
    /\ (0 <= dd <= 127)%Z /\ (0 <= kk <= 127)%Z
    /\ (0 <= xx <= 127)%Z /\ (0 <= yy <= 127)%Z /\ (0 <= zz <= 127)%Z
    /\ Rabs (IZR xx * 100 + IZR (128 * yy + zz) / 16384 * 100
             - (IZR n * 100 + cents)) <= 100 / 32768.
Proof.
  intros Ht. unfold createMtsSysex. rewrite frequency_detour.
  set (t := IZR n + cents / 100) in *.
  pose proof (Zfloor_bound t) as Hfl.
  assert (Hw : (0 <= Zfloor t <= 126)%Z).
  { split.
    - apply Zfloor_lub. simpl. lra.
    - apply Z.lt_succ_r, lt_IZR. rewrite succ_IZR. simpl. lra. }
  rewrite Z.min_r, Z.max_r by lia.
  set (xx := Zfloor t) in *.
  pose proof (round_near ((t - IZR xx) * 16384)) as Hn.
  set (frac := Math_round ((t - IZR xx) * 16384)) in *.
  assert (Hf : (0 <= frac <= 16384)%Z).
  { split; [apply round_above | apply round_below]; simpl; nra. }
  destruct (Z.eqb_spec frac 16384) as [Hcarry | Hno].
  - exists (Z.land (lastDeviceId s) 0x7F), (Z.land n 0x7F), (xx + 1)%Z, 0%Z, 0%Z.
    split; [by rewrite (land_small (xx + 1)) by lia |].
    split; [apply low_seven_bits |]. split; [apply low_seven_bits |].
    split; [lia |]. split; [lia |]. split; [lia |].
    rewrite Hcarry in Hn. rewrite plus_IZR. change (128 * 0 + 0)%Z with 0%Z.
    apply Rabs_le. unfold t in *. lra.
  - destruct (seven_bits frac) as (Hm & Hl & Hsum); [lia |].
    exists (Z.land (lastDeviceId s) 0x7F), (Z.land n 0x7F), xx,
           (Z.land (Z.shiftr frac 7) 0x7F), (Z.land frac 0x7F).
    split; [by rewrite (land_small xx) by lia |].
    split; [apply low_seven_bits |]. split; [apply low_seven_bits |].
    split; [lia |]. split; [done |]. split; [done |].
    rewrite Hsum. apply Rabs_le. unfold t in *. lra.
Qed.

Lemma prototype_message_encodes_the_target_pitch_witness :
  exists dd kk xx yy zz,
    createMtsSysex initialState 61 11.73
    = [0xF0; 0x7F; dd; 0x08; 0x02; 0x00; 0x01; kk; xx; yy; zz; 0xF7]%Z
    /\ Rabs (IZR xx * 100 + IZR (128 * yy + zz) / 16384 * 100 - (IZR 61 * 100 + 11.73))
       <= 100 / 32768.
Proof.
  destruct (prototype_message_encodes_the_target_pitch initialState 61 11.73)
    as (dd & kk & xx & yy & zz & E & _ & _ & _ & _ & _ & Hacc).
  - lra.
  - exists dd, kk, xx, yy, zz. split; [exact E | exact Hacc].
Defined.

End PrototypeMessageProofs.
